(** * SQL Server to MySQL converter: the rewrite engine of [src/sqlConverter.js]
    and the batch driver of [src/index.js], embedded in Rocq.

    A JavaScript string is a sequence of UTF-16 code units; a code unit is a
    number below 65536, kept here as an [N].  The eight regular expressions
    of [SQLConverter.conversions] use only literal characters, the classes
    [\w], [\d], [\s] and [[^\]]] under a greedy [+], one capture group and
    the assertion [\b]; the matcher below is a backtracking matcher for
    exactly that fragment. *)

From Stdlib Require Import Ascii.
From stdpp Require Import prelude gmap strings pretty.

Set Default Proof Using "Type".

(** ** Text *)

Abbreviation text := (list N).

(** The code units of an ASCII literal. *)
Fixpoint u (s : string) : text :=
  match s with
  | EmptyString => []
  | String a s' => N_of_ascii a :: u s'
  end.

(** ** Character classes *)

Definition in_range (lo hi c : N) : bool := (lo <=? c)%N && (c <=? hi)%N.

(** [\d] *)
Definition is_digit (c : N) : bool := in_range 48 57 c.

(** [\w] : [A-Za-z0-9_] *)
Definition is_word (c : N) : bool :=
  in_range 65 90 c || in_range 97 122 c || in_range 48 57 c || (c =? 95)%N.

(** [\s] : the WhiteSpace and LineTerminator code points of ECMAScript. *)
Definition is_space (c : N) : bool :=
  in_range 9 13 c || (c =? 32)%N || (c =? 160)%N || (c =? 5760)%N
  || in_range 8192 8202 c || (c =? 8232)%N || (c =? 8233)%N
  || (c =? 8239)%N || (c =? 8287)%N || (c =? 12288)%N || (c =? 65279)%N.

(** [[^\]]] *)
Definition not_rbracket (c : N) : bool := negb (c =? 93)%N.

(** Canonicalize of a code unit under the [i] flag (no [u] flag): the upper
    case of the unit, except that a unit of 128 or more is never mapped to
    one below 128.  The patterns compare the result with ASCII letters only,
    so units of 128 or more are left as they are. *)
Definition canon (c : N) : N :=
  if in_range 97 122 c then (c - 32)%N else c.

(** ** Patterns *)

Inductive atom : Type :=
  | Chr (c : N)                 (* a literal code unit *)
  | ChrI (c : N)                (* a literal under the [i] flag, given in upper case *)
  | Plus (cls : N -> bool)      (* [cls+], greedy *)
  | CapPlus (cls : N -> bool)   (* [(cls+)], greedy, capture group 1 *)
  | Bnd.                        (* [\b] *)

Abbreviation pattern := (list atom).

Definition lit (s : string) : pattern := Chr <$> u s.
Definition litI (s : string) : pattern := ChrI <$> u s.

(** Is the unit before the current position a word character?  [None] is the
    start of the input. *)
Definition word_before (prev : option N) : bool :=
  match prev with Some c => is_word c | None => false end.

(** Is the unit at the current position a word character? *)
Definition word_at (s : text) : bool :=
  match s with c :: _ => is_word c | [] => false end.

(** Greedy [cls+] followed by the rest of the pattern [k]: the longest run
    is tried first, and a shorter one only when the rest fails after the
    longer one.  The result pairs the run with what [k] returned. *)
Fixpoint plus_greedy {A} (cls : N -> bool)
    (k : option N -> text -> option A) (s : text) : option (text * A) :=
  match s with
  | [] => None
  | x :: s' =>
      if cls x then
        match plus_greedy cls k s' with
        | Some (run, r) => Some (x :: run, r)
        | None =>
            match k (Some x) s' with
            | Some r => Some ([x], r)
            | None => None
            end
        end
      else None
  end.

(** One match attempt at a fixed position: [prev] is the unit before the
    position, [s] the input from the position on.  The result is the text of
    capture group 1 (empty when the pattern has no group) and the input left
    after the match. *)
Fixpoint exec (p : pattern) (prev : option N) (s : text) : option (text * text) :=
  match p with
  | [] => Some ([], s)
  | Chr c :: p' =>
      match s with
      | x :: s' => if (x =? c)%N then exec p' (Some x) s' else None
      | [] => None
      end
  | ChrI c :: p' =>
      match s with
      | x :: s' => if (canon x =? c)%N then exec p' (Some x) s' else None
      | [] => None
      end
  | Plus cls :: p' =>
      match plus_greedy cls (exec p') s with
      | Some (_, r) => Some r
      | None => None
      end
  | CapPlus cls :: p' =>
      match plus_greedy cls (exec p') s with
      | Some (run, (_, rest)) => Some (run, rest)
      | None => None
      end
  | Bnd :: p' =>
      if xorb (word_before prev) (word_at s) then exec p' prev s else None
  end.

(** ** The scan of a global regular expression

    [String.prototype.replace] and [String.prototype.match] with a [g]
    pattern both run the same loop: try the pattern at the current index; on
    a match record it and continue right after it, otherwise move one unit
    on.  [skip] counts the units of the last match still to be passed. *)

Inductive item : Type :=
  | Copy (x : N)                   (* a unit outside every match *)
  | Hit (m : text) (cap : text).   (* a match and its capture group 1 *)

Fixpoint scan (p : pattern) (prev : option N) (s : text) (skip : nat) : list item :=
  match s with
  | [] => []
  | x :: s' =>
      match skip with
      | S n => scan p (Some x) s' n
      | O =>
          match exec p prev s with
          | Some (cap, rest) =>
              Hit (take (length s - length rest) s) cap
                :: scan p (Some x) s' (length s' - length rest)
          | None => Copy x :: scan p (Some x) s' 0
          end
      end
  end.

(** ** Replacement templates *)

Inductive piece : Type :=
  | Txt (t : text)   (* literal text *)
  | Grp.             (* [$1] *)

Abbreviation template := (list piece).

Definition expand (tmpl : template) (cap : text) : text :=
  mjoin ((fun pc => match pc with Txt t => t | Grp => cap end) <$> tmpl).

Definition render (tmpl : template) (it : item) : text :=
  match it with
  | Copy x => [x]
  | Hit _ cap => expand tmpl cap
  end.

(** [s.replace(pattern, replacement)] for a global pattern. *)
Definition replace (p : pattern) (tmpl : template) (s : text) : text :=
  mjoin (render tmpl <$> scan p None s 0).

Definition is_hit (it : item) : bool :=
  match it with Hit _ _ => true | Copy _ => false end.

(** [s.match(pattern)] for a global pattern: [null] when nothing matches,
    otherwise the array of the matched substrings. *)
Definition matched (it : item) : option text :=
  match it with Hit m _ => Some m | Copy _ => None end.

Definition js_match (p : pattern) (s : text) : option (list text) :=
  match omap matched (scan p None s 0) with
  | [] => None
  | ms => Some ms
  end.

(** ** The rule table of [SQLConverter] *)

Record rule : Type := Rule {
  source : string;        (* [pattern.toString()] *)
  pat : pattern;
  replacement : template
}.

Definition rule_dbo : rule :=
  Rule "/\[dbo\]\.\[(\w+)\]/g"
       (lit "[dbo].[" ++ [CapPlus is_word] ++ lit "]") [Grp].

Definition rule_bracket : rule :=
  Rule "/\[([^\]]+)\]/g"
       (lit "[" ++ [CapPlus not_rbracket] ++ lit "]") [Grp].

Definition rule_getdate : rule :=
  Rule "/GETDATE\(\)/g" (lit "GETDATE()") [Txt (u "NOW()")].

Definition rule_getutcdate : rule :=
  Rule "/GETUTCDATE\(\)/g" (lit "GETUTCDATE()") [Txt (u "UTC_TIMESTAMP()")].

Definition rule_newid : rule :=
  Rule "/NEWID\(\)/g" (lit "NEWID()") [Txt (u "UUID()")].

Definition rule_len : rule :=
  Rule "/\bLEN\(/g" (Bnd :: lit "LEN(") [Txt (u "LENGTH(")].

Definition rule_isnull : rule :=
  Rule "/\bISNULL\(/g" (Bnd :: lit "ISNULL(") [Txt (u "IFNULL(")].

Definition rule_top : rule :=
  Rule "/\bTOP\s+(\d+)\b/gi"
       (Bnd :: litI "TOP" ++ [Plus is_space; CapPlus is_digit; Bnd])
       [Txt (u "LIMIT "); Grp].

Definition conversions : list rule :=
  [rule_dbo; rule_bracket; rule_getdate; rule_getutcdate; rule_newid;
   rule_len; rule_isnull; rule_top].

Definition apply_rule (r : rule) (s : text) : text :=
  replace (pat r) (replacement r) s.

(** The loop of [convertToMySQL]: every rule, in order, over the whole
    current text. *)
Definition apply_rules (rs : list rule) (s : text) : text :=
  foldl (fun acc r => apply_rule r acc) s rs.

Definition transform (s : text) : text := apply_rules conversions s.


(** ** [convertToMySQL] *)

Definition NL : N := 10.
Definition CR : N := 13.

Definition marker_line : text := u "-- Converted from SQL Server to MySQL".
Definition generated_prefix : text := u "-- Generated on: ".
Definition caution_line : text := u "-- Use with caution and verify before executing".

(** The header template; [ts] is [new Date().toISOString()]. *)
Definition header (ts : text) : text :=
  marker_line ++ [NL] ++ generated_prefix ++ ts ++ [NL] ++ caution_line ++ [NL; NL].

Definition convertToMySQL (ts : text) (sqlContent : text) : text :=
  let converted := transform sqlContent in
  header ts ++ converted.

(** [s.split('\n')] *)
Fixpoint split_nl_go (cur : text) (s : text) : list text :=
  match s with
  | [] => [cur]
  | x :: s' =>
      if (x =? NL)%N then cur :: split_nl_go [] s'
      else split_nl_go (cur ++ [x]) s'
  end.

Definition split_nl (s : text) : list text := split_nl_go [] s.

(** ** [getConversionStats] *)

Record stats : Type := Stats {
  originalLines : nat;
  convertedLines : nat;
  conversionsApplied : list (string * nat)   (* [{pattern, count}] *)
}.

Definition getConversionStats (originalContent convertedContent : text) : stats :=
  Stats (length (split_nl originalContent))
        (length (split_nl convertedContent))
        (foldl (fun applied conv =>
                  match js_match (pat conv) originalContent with
                  | Some matches => applied ++ [(source conv, length matches)]
                  | None => applied
                  end)
               [] conversions).

(** ** The line reader

    [readline.createInterface] with [crlfDelay: Infinity] ends a line at
    [\n], at [\r\n] and at a [\r] that no [\n] follows; the terminator is
    not part of the line.  When the input ends, what is left after the last
    terminator is one more line unless it is empty. *)
Fixpoint readline_go (cur : text) (s : text) : list text :=
  match s with
  | [] => match cur with [] => [] | _ => [cur] end
  | x :: s' =>
      if (x =? NL)%N then cur :: readline_go [] s'
      else if (x =? CR)%N then
        match s' with
        | y :: s'' =>
            if (y =? NL)%N then cur :: readline_go [] s''
            else cur :: readline_go [] s'
        | [] => cur :: readline_go [] s'
        end
      else readline_go (cur ++ [x]) s'
  end.

Definition readline_lines (s : text) : list text := readline_go [] s.

(** ** [convertLargeFileStreaming]: the event handlers *)

Record result : Type := Result { success : bool; message : string }.

(** The strings ["\r"] and ["\n"]. *)
Definition carriage_return : string := String "013" "".
Definition line_feed : string := String "010" "".

Inductive outcome : Type :=
  | Resolve (r : result)
  | Reject (msg : string).

Inductive ws_state : Type := WsOpen | WsEnded | WsDestroyed.

(** The variables the handlers close over.  [written] holds the chunks given
    to [writeStream.write], oldest first; [console] what went to
    [process.stdout]; [settled] the state of the promise, which keeps the
    first of [resolve] and [reject]. *)
Record stream : Type := Stream {
  lineCount : nat;
  convertedCount : nat;
  written : list text;
  console : list string;
  rl_closed : bool;
  ws : ws_state;
  settled : option outcome
}.

Definition settle (o : outcome) (st : stream) : stream :=
  match settled st with
  | Some _ => st
  | None =>
      Stream (lineCount st) (convertedCount st) (written st) (console st)
             (rl_closed st) (ws st) (Some o)
  end.

(** The state after [writeStream.write(header)]. *)
Definition stream_start (ts : text) : stream :=
  Stream 0 0 [header ts] [] false WsOpen None.

(** The body of the ['line'] handler up to the write: the converted line
    and the flag [hasConversions]. *)
Definition convert_line (line : text) : text * bool :=
  foldl (fun '(convertedLine, hasConversions) conv =>
           let beforeConversion := convertedLine in
           let convertedLine := apply_rule conv convertedLine in
           (convertedLine,
            if bool_decide (beforeConversion = convertedLine)
            then hasConversions else true))
        (line, false) conversions.

Definition on_line (line : text) (st : stream) : stream :=
  let lineCount := S (lineCount st) in
  let '(convertedLine, hasConversions) := convert_line line in
  let convertedCount :=
    if hasConversions then S (convertedCount st) else convertedCount st in
  let console :=
    if (N.of_nat lineCount mod 10000 =? 0)%N
    then console st ++ [carriage_return +:+ "Processed " +:+ pretty lineCount +:+ " lines..."]
    else console st in
  Stream lineCount convertedCount (written st ++ [convertedLine ++ [NL]])
         console (rl_closed st) (ws st) (settled st).

Definition summary (inputFile outputFile : string) (lineCount convertedCount : nat) : result :=
  Result true
    ("Successfully converted " +:+ inputFile +:+ " to " +:+ outputFile
     +:+ " (" +:+ pretty lineCount +:+ " lines processed, "
     +:+ pretty convertedCount +:+ " lines converted)").

Definition on_close (inputFile outputFile : string) (st : stream) : stream :=
  settle (Resolve (summary inputFile outputFile (lineCount st) (convertedCount st)))
    (Stream (lineCount st) (convertedCount st) (written st)
            (console st ++ [carriage_return +:+ "Processed " +:+ pretty (lineCount st)
                              +:+ " lines total." +:+ line_feed])
            true WsEnded (settled st)).

Definition on_rl_error (msg : string) (st : stream) : stream :=
  settle (Reject ("Error reading file: " +:+ msg))
    (Stream (lineCount st) (convertedCount st) (written st) (console st)
            (rl_closed st) WsDestroyed (settled st)).

(** [rl.close()] emits ['close'] unless the interface is closed already. *)
Definition rl_close (inputFile outputFile : string) (st : stream) : stream :=
  if rl_closed st then st else on_close inputFile outputFile st.

Definition on_ws_error (inputFile outputFile msg : string) (st : stream) : stream :=
  settle (Reject ("Error writing file: " +:+ msg))
         (rl_close inputFile outputFile st).

Inductive event : Type :=
  | Line (line : text)
  | Close
  | RlError (msg : string)
  | WsError (msg : string).

(** Delivery of one event; a closed interface emits no further line. *)
Definition deliver (inputFile outputFile : string) (ev : event) (st : stream) : stream :=
  match ev with
  | Line line => if rl_closed st then st else on_line line st
  | Close => rl_close inputFile outputFile st
  | RlError msg => on_rl_error msg st
  | WsError msg => on_ws_error inputFile outputFile msg st
  end.

Definition run_events (inputFile outputFile : string) (evs : list event) (st : stream) : stream :=
  foldl (fun st ev => deliver inputFile outputFile ev st) st evs.

(** The events of an input that is read to its end without error. *)
Definition events_of (content : text) : list event :=
  (Line <$> readline_lines content) ++ [Close].

(** What the destination holds: the chunks in the order they were written. *)
Definition flushed (st : stream) : text := mjoin (written st).

(** ** The file system

    A path holds at most one file.  A file has the size [statSync] reports,
    what reading it gives (its text, or the error thrown, as for a file
    without read permission or a directory), and whether writing to it
    throws.  A directory is there through the paths below it. *)

Inductive payload : Type :=
  | Content (t : text)          (* what [readFileSync(path, 'utf8')] returns *)
  | ReadFails (msg : string).   (* reading throws an error with this message *)

Record file : Type := File {
  f_size : N;                   (* [statSync(path).size], in bytes *)
  f_payload : payload;
  f_locked : option string      (* [Some msg]: writing throws an error with this message *)
}.

Abbreviation files := (gmap string file).

(** Bytes of the UTF-8 encoding of a string, as [writeFileSync(.., 'utf8')]
    stores it: a surrogate pair takes four bytes, a lone surrogate three. *)
Fixpoint utf8_length (s : text) : N :=
  match s with
  | [] => 0
  | x :: s' =>
      if (x <? 128)%N then 1 + utf8_length s'
      else if (x <? 2048)%N then 2 + utf8_length s'
      else if in_range 55296 56319 x then
        match s' with
        | y :: s'' =>
            if in_range 56320 57343 y then 4 + utf8_length s''
            else 3 + utf8_length s'
        | [] => 3
        end
      else 3 + utf8_length s'
  end%N.

Definition enoent (call path : string) : string :=
  "ENOENT: no such file or directory, " +:+ call +:+ " '" +:+ path +:+ "'".

Definition statSync (fs : files) (path : string) : string + N :=
  match fs !! path with
  | Some f => inr (f_size f)
  | None => inl (enoent "stat" path)
  end.

Definition readFileSync (fs : files) (path : string) : string + text :=
  match fs !! path with
  | Some f =>
      match f_payload f with
      | Content t => inr t
      | ReadFails msg => inl msg
      end
  | None => inl (enoent "open" path)
  end.

Definition write_lock (fs : files) (path : string) : option string :=
  match fs !! path with
  | Some f => f_locked f
  | None => None
  end.

Definition stored (data : text) : file := File (utf8_length data) (Content data) None.

Definition writeFileSync (fs : files) (path : string) (data : text) : string + files :=
  match write_lock fs path with
  | Some msg => inl msg
  | None => inr (<[path := stored data]> fs)
  end.

(** ** [convertFile], [convertAndSave], [convertLargeFileStreaming] *)

Definition convertFile (ts : text) (fs : files) (inputFile : string) : string + text :=
  match readFileSync fs inputFile with
  | inr content => inr (convertToMySQL ts content)
  | inl msg => inl ("Error reading file " +:+ inputFile +:+ ": " +:+ msg)
  end.

(** [fileSizeInMB > 50] with [fileSizeInMB = size / (1024 * 1024)]. *)
Definition large (size : N) : bool := (50 * 1024 * 1024 <? size)%N.

(** The events a run receives: a destination that cannot be opened reports
    its error first; otherwise a source that cannot be read reports its
    error through the line reader; otherwise the source is read to its
    end. *)
Definition stream_events (fs : files) (inputFile outputFile : string) : list event :=
  match write_lock fs outputFile with
  | Some msg => [WsError msg]
  | None =>
      match readFileSync fs inputFile with
      | inr content => events_of content
      | inl msg => [RlError msg]
      end
  end.

(** The promise ([None]: never settled) and the file system afterwards.
    [createWriteStream] creates or empties the destination; it then holds
    the chunks written (a destroyed stream may have stored fewer). *)
Definition convertLargeFileStreaming (ts : text) (fs : files)
    (inputFile outputFile : string) : option outcome * files :=
  let st := run_events inputFile outputFile
              (stream_events fs inputFile outputFile) (stream_start ts) in
  (settled st,
   match write_lock fs outputFile with
   | Some _ => fs
   | None => <[outputFile := stored (flushed st)]> fs
   end).

(** The synchronous branch returns its result at once, which [await] takes
    as a resolved promise; the streaming branch returns the promise of
    [convertLargeFileStreaming]. *)
Definition convertAndSave (ts : text) (fs : files)
    (inputFile outputFile : string) : option outcome * files :=
  match statSync fs inputFile with
  | inl msg => (Some (Resolve (Result false msg)), fs)
  | inr size =>
      if large size then convertLargeFileStreaming ts fs inputFile outputFile
      else
        match convertFile ts fs inputFile with
        | inl msg => (Some (Resolve (Result false msg)), fs)
        | inr convertedContent =>
            match writeFileSync fs outputFile convertedContent with
            | inl msg => (Some (Resolve (Result false msg)), fs)
            | inr fs' =>
                (Some (Resolve (Result true
                   ("Successfully converted " +:+ inputFile +:+ " to " +:+ outputFile))),
                 fs')
            end
        end
  end.

(** ** The steps of [executeSQLFile] (src/database.js) before it connects *)

(** [!sqlContent.trim()]: [trim] removes exactly the units of [\s]. *)
Definition blank (s : text) : bool := forallb is_space s.

Definition executeSQLFile_read (fs : files) (filePath : string) : string + text :=
  match fs !! filePath with
  | None => inl ("SQL file not found: " +:+ filePath)
  | Some _ =>
      match readFileSync fs filePath with
      | inl msg => inl msg
      | inr sqlContent =>
          if blank sqlContent then inl "SQL file is empty" else inr sqlContent
      end
  end.

(** ** The [batch] command of [src/index.js]

    File names are byte strings; [toLowerCase] is modelled on ASCII letters,
    which is all the test for the suffix [.sql] looks at.  What the command
    prints is left out. *)

Definition lower_ascii (a : ascii) : ascii :=
  let n := N_of_ascii a in
  if in_range 65 90 n then ascii_of_N (n + 32) else a.

Fixpoint toLowerCase (s : string) : string :=
  match s with
  | EmptyString => EmptyString
  | String a s' => String (lower_ascii a) (toLowerCase s')
  end.

Definition endsWith (s suffix : string) : bool :=
  String.prefix (String.rev suffix) (String.rev s).

Fixpoint has_slash (s : string) : bool :=
  match s with
  | EmptyString => false
  | String a s' => bool_decide (a = "/"%char) || has_slash s'
  end.

(** [path.join(directory, file)] for a normalized directory and a name. *)
Definition path_join (directory name : string) : string :=
  directory +:+ "/" +:+ name.

(** The name under [directory] that a path stands for, if it is an entry of
    that directory. *)
Definition entry_of (directory path : string) : option string :=
  let stem := directory +:+ "/" in
  if String.prefix stem path then
    let name := String.substring (String.length stem)
                  (String.length path - String.length stem) path in
    if bool_decide (name = "") || has_slash name then None else Some name
  else None.

Definition readdirSync (fs : files) (directory : string) : list string :=
  omap (fun kv => entry_of directory kv.1) (map_to_list fs).

(** [path.basename(inputFile, '.sql')] for [inputFile = path.join(directory, name)]. *)
Definition basename_sql (name : string) : string :=
  if endsWith name ".sql" && negb (bool_decide (name = ".sql"))
  then String.substring 0 (String.length name - 4) name
  else name.

Definition output_path (outputDir name : string) : string :=
  path_join outputDir (basename_sql name +:+ "_mysql.sql").

(** The loop variables; [hung] is set when an awaited promise never settles. *)
Record tally : Type := Tally {
  successCount : nat;
  errorCount : nat;
  disk : files;
  clock : nat;
  hung : bool
}.

Section Batch.

(** [iso n]: the ISO string of the date read at tick [n]. *)
Variable iso : nat -> text.

Definition batch_step (directory outputDir : string) (t : tally) (name : string) : tally :=
  if hung t then t else
  let inputFile := path_join directory name in
  let outputFile := output_path outputDir name in
  match convertAndSave (iso (clock t)) (disk t) inputFile outputFile with
  | (Some (Resolve r), fs') =>
      if success r
      then Tally (S (successCount t)) (errorCount t) fs' (S (clock t)) false
      else Tally (successCount t) (S (errorCount t)) fs' (S (clock t)) false
  | (Some (Reject _), fs') =>
      Tally (successCount t) (S (errorCount t)) fs' (S (clock t)) false
  | (None, fs') =>
      Tally (successCount t) (errorCount t) fs' (S (clock t)) true
  end.

Definition sql_files (fs : files) (directory : string) : list string :=
  filter (fun name => endsWith (toLowerCase name) ".sql" = true)
         (readdirSync fs directory).

(** [DirectoryNotFound]: the directory has no entry (the command prints an
    error and exits with status 1); [NoSqlFiles]: no entry ends in [.sql];
    [Completed t]: the loop has run over every SQL file. *)
Inductive batch_outcome : Type :=
  | DirectoryNotFound
  | NoSqlFiles
  | Completed (t : tally).

Definition batch (fs : files) (now : nat) (directory : string)
    (output : option string) : batch_outcome :=
  match readdirSync fs directory with
  | [] => DirectoryNotFound
  | _ =>
      let outputDir := default directory output in
      match sql_files fs directory with
      | [] => NoSqlFiles
      | names =>
          Completed
            (foldl (batch_step directory outputDir) (Tally 0 0 fs now false) names)
      end
  end.

End Batch.

(** ** The [convert] command of [src/index.js]

    What the command prints is kept as the outcome: which branch was taken
    and the values that branch shows.  [default_output] stands for the
    default destination, which Node's [path] module computes from the
    source path:
    [path.join(path.dirname(inputFile),
               path.basename(inputFile, path.extname(inputFile)) + '_mysql.sql')]. *)

Record convert_options : Type := ConvertOptions {
  opt_output : option string;   (* [-o, --output <file>] *)
  opt_stats : bool;             (* [-s, --stats] *)
  opt_preview : bool            (* [--preview] *)
}.

Inductive convert_outcome : Type :=
  | InputNotFound                  (* the input does not exist: [process.exit(1)] *)
  | PreviewUnavailable             (* a large file with [--preview]: nothing is converted *)
  | StreamedOk (msg : string) (note : bool)
                                   (* the streaming result; [note]: the statistics block is printed *)
  | StreamedFailed (msg : string)  (* a streaming result without success: [process.exit(1)] *)
  | Previewed (lines : list (nat * text)) (truncated : bool)
                                   (* the numbered lines shown; [truncated]: the last notice *)
  | Saved (outputFile : string) (report : option stats)
  | Errored (msg : string)         (* the [catch]: [Error: msg], [process.exit(1)] *)
  | Pending.                       (* the awaited promise never settles *)

Section Convert.

Variable default_output : string -> string.

Definition convert (ts : text) (fs : files) (inputFile : string)
    (options : convert_options) : convert_outcome * files :=
  match fs !! inputFile with
  | None => (InputNotFound, fs)
  | Some _ =>
      match statSync fs inputFile with
      | inl msg => (Errored msg, fs)
      | inr size =>
          let outputFile :=
            match opt_output options with
            | Some o => if bool_decide (o = "") then default_output inputFile else o
            | None => default_output inputFile
            end in
          if large size then
            if opt_preview options then (PreviewUnavailable, fs)
            else
              match convertLargeFileStreaming ts fs inputFile outputFile with
              | (Some (Resolve r), fs') =>
                  if success r then (StreamedOk (message r) (opt_stats options), fs')
                  else (StreamedFailed (message r), fs')
              | (Some (Reject msg), fs') => (Errored msg, fs')
              | (None, fs') => (Pending, fs')
              end
          else
            match readFileSync fs inputFile with
            | inl msg => (Errored msg, fs)
            | inr originalContent =>
                let convertedContent := convertToMySQL ts originalContent in
                if opt_preview options then
                  let previewLines := take 20 (split_nl convertedContent) in
                  (Previewed (imap (fun index line => (S index, line)) previewLines)
                             (20 <? length (split_nl convertedContent)),
                   fs)
                else
                  match writeFileSync fs outputFile convertedContent with
                  | inl msg => (Errored msg, fs)
                  | inr fs' =>
                      (Saved outputFile
                         (if opt_stats options
                          then Some (getConversionStats originalContent convertedContent)
                          else None),
                       fs')
                  end
            end
      end
  end.

End Convert.

(** ** [executeSQLFile] of [src/database.js]

    The statements of a file: [sqlContent.split(';')], each piece trimmed,
    the empty ones dropped. *)

Definition SEMICOLON : N := 59.

(** [s.split(';')] *)
Fixpoint split_semicolon_go (cur : text) (s : text) : list text :=
  match s with
  | [] => [cur]
  | x :: s' =>
      if (x =? SEMICOLON)%N then cur :: split_semicolon_go [] s'
      else split_semicolon_go (cur ++ [x]) s'
  end.

Definition split_semicolon (s : text) : list text := split_semicolon_go [] s.

(** [s.trim()]: the white space of [\s] removed at both ends. *)
Fixpoint trimStart (s : text) : text :=
  match s with
  | x :: s' => if is_space x then trimStart s' else s
  | [] => []
  end.

Definition trimEnd (s : text) : text := reverse (trimStart (reverse s)).

Definition trim (s : text) : text := trimEnd (trimStart s).

Definition statements_of (sqlContent : text) : list text :=
  List.filter (fun stmt => 0 <? length stmt) (trim <$> split_semicolon sqlContent).

Module Database.

(** The object [executeSQLFile] returns. *)
Record report : Type := Report {
  success : bool;
  executedCount : nat;
  errorCount : nat;
  totalStatements : nat
}.

(** What the loop prints: the progress line after every fiftieth executed
    statement, and for a statement that failed its number, the message of
    the error and the preview of the statement. *)
Inductive console_line : Type :=
  | ProgressLine (executed total : nat)
  | ErrorLine (number : nat) (msg : string) (preview : text).

(** [statement.substring(0, 100) + (statement.length > 100 ? '...' : '')] *)
Definition statement_preview (statement : text) : text :=
  take 100 statement ++ (if 100 <? length statement then u "..." else []).

Definition batchSize : nat := 100.

(** [statements.slice(i, j)] *)
Definition slice (i j : nat) (statements : list text) : list text :=
  take (j - i) (drop i statements).

Section Execute.

(** The database behind the connection, and [connection.execute(statement)]:
    the database afterwards and, when the call throws, the message of the
    error. *)
Variable db : Type.
Variable execute : db -> text -> db * option string.

(** The variables of the loop: [executedCount], [errorCount], the database
    and what was printed. *)
Record loop : Type := Loop {
  executed : nat;
  failed : nat;
  connection : db;
  console : list console_line
}.

(** The body of the inner loop, for one statement. *)
Definition run_statement (total : nat) (st : loop) (statement : text) : loop :=
  match execute (connection st) statement with
  | (d, None) =>
      let executedCount := S (executed st) in
      Loop executedCount (failed st) d
           (if executedCount mod 50 =? 0
            then console st ++ [ProgressLine executedCount total]
            else console st)
  | (d, Some msg) =>
      let errorCount := S (failed st) in
      Loop (executed st) errorCount d
           (console st
            ++ [ErrorLine (executed st + errorCount) msg (statement_preview statement)])
  end.

(** [for (let i = 0; i < statements.length; i += batchSize)]; [fuel] bounds
    the number of rounds. *)
Fixpoint run_batches (fuel i : nat) (statements : list text) (st : loop) : loop :=
  match fuel with
  | O => st
  | S fuel' =>
      if i <? length statements then
        let batch := slice i (i + batchSize) statements in
        run_batches fuel' (i + batchSize) statements
          (foldl (run_statement (length statements)) st batch)
      else st
  end.

(** [connect]: what [this.connect()] gives, a connection or the error it
    throws.  The result is the error thrown or the report with the final
    state of the loop. *)
Definition executeSQLFile (fs : files) (filePath : string) (connect : string + db)
    : string + (report * loop) :=
  match executeSQLFile_read fs filePath with
  | inl msg => inl msg
  | inr sqlContent =>
      match connect with
      | inl msg => inl msg
      | inr connection =>
          let statements := statements_of sqlContent in
          let st := run_batches (length statements) 0 statements (Loop 0 0 connection []) in
          inr (Report true (executed st) (failed st) (length statements), st)
      end
  end.

End Execute.

End Database.

Arguments Database.Loop {db}.
Arguments Database.executed {db}.
Arguments Database.failed {db}.
Arguments Database.connection {db}.
Arguments Database.console {db}.
Arguments Database.run_statement {db}.
Arguments Database.run_batches {db}.
Arguments Database.executeSQLFile {db}.

(** ** Definitions used in the statements below *)

(** [has_match p prev s]: the pattern matches at some position of [s]. *)
Fixpoint has_match (p : pattern) (prev : option N) (s : text) : bool :=
  match s with
  | [] => bool_decide (is_Some (exec p prev []))
  | x :: s' => bool_decide (is_Some (exec p prev s)) || has_match p (Some x) s'
  end.

(** The unit before the position reached after passing [m]. *)
Fixpoint lastp (prev : option N) (m : text) : option N :=
  match m with
  | [] => prev
  | x :: m' => lastp (Some x) m'
  end.

Definition is_bnd (a : atom) : bool :=
  match a with Bnd => true | _ => false end.

(** A pattern with an atom other than [\b] cannot match the empty string. *)
Definition consuming (p : pattern) : bool := existsb (fun a => negb (is_bnd a)) p.

(** [replace] started in the middle of an input. *)
Definition replace_from (p : pattern) (tmpl : template) (prev : option N) (s : text) : text :=
  mjoin (render tmpl <$> scan p prev s 0).

(** The nonempty suffixes of a text. *)
Fixpoint tails_ne (w : text) : list text :=
  match w with
  | [] => []
  | x :: w' => (x :: w') :: tails_ne w'
  end.

(** One of the two texts is a prefix of the other. *)
Definition comparable (a b : text) : bool :=
  bool_decide (a `prefix_of` b) || bool_decide (b `prefix_of` a).

(** No nonempty suffix of [w] can be the start of a text that starts with [r]:
    an occurrence of [w] cannot run into an occurrence of [r]. *)
Definition safe_b (r w : text) : bool :=
  forallb (fun w2 => negb (comparable w2 r)) (tails_ne w).

(** No occurrence of [l] starts inside [r ++ tail], for a [tail] of units in [cls]. *)
Definition clean_b (r : text) (cls : N -> bool) (l : text) : bool :=
  forallb (fun r2 => negb (comparable r2 l)) (tails_ne r)
  && match l with c :: _ => negb (cls c) | [] => false end.

(** A literal, behind a [\b] when [bnd] is set. *)
Definition lit_pat (bnd : bool) (l : text) : pattern :=
  (if bnd then [Bnd] else []) ++ (Chr <$> l).

(** The side conditions under which the literal [lj] (behind [\b] when [bj])
    matches in the output of a rule with replacement [r ++ tail], [tail] in
    [cls], only where it matched in the input. *)
Definition lit_ok (r : text) (cls : N -> bool) (bj : bool) (lj : text) : bool :=
  safe_b r lj && clean_b r cls lj && (if bj then word_at lj else true).

(** The rules after the two bracket rules. *)
Definition function_rules : list rule :=
  [rule_getdate; rule_getutcdate; rule_newid; rule_len; rule_isnull; rule_top].

(** A captured run of [cls] between the literal [a] and the unit [c]. *)
Definition wrap_pat (a : text) (cls : N -> bool) (c : N) : pattern :=
  (Chr <$> a) ++ [CapPlus cls; Chr c].

(** Does a match found by the scan contain a line feed? *)
Definition spans_line (it : item) : bool :=
  match it with
  | Hit m _ => bool_decide (NL ∈ m)
  | Copy _ => false
  end.

(** Some match of the global pattern [p] in [s] extends over a line feed. *)
Definition crosses_line (p : pattern) (s : text) : bool :=
  existsb spans_line (scan p None s 0).

(** Some match made while the rules [rs] rewrite [s], each on the output of
    the one before, extends over a line feed. *)
Fixpoint pass_crosses (rs : list rule) (s : text) : bool :=
  match rs with
  | [] => false
  | r :: rs' => crosses_line (pat r) s || pass_crosses rs' (apply_rule r s)
  end.

(** Lines put together with one line feed between two of them. *)
Fixpoint join_nl (ls : list text) : text :=
  match ls with
  | [] => []
  | [l] => l
  | l :: ls' => l ++ NL :: join_nl ls'
  end.

(** The text has a last line that no line feed ends. *)
Definition open_ended (s : text) : bool :=
  match last s with
  | Some c => negb (c =? NL)%N
  | None => false
  end.

(** A template without a line feed in its literal text. *)
Definition one_line (tmpl : template) : bool :=
  forallb (fun pc => match pc with Txt t => negb (bool_decide (NL ∈ t)) | Grp => true end) tmpl.

(** A text without the line feeds and carriage returns at its end. *)
Fixpoint drop_breaks (l : text) : text :=
  match l with
  | x :: l' => if (x =? NL)%N || (x =? CR)%N then drop_breaks l' else l
  | [] => []
  end.

Definition chomp (s : text) : text := reverse (drop_breaks (reverse s)).

(** The lines the reader delivers, from the segments of [split('\n')]: the
    last segment is a line only when it is not empty. *)
Fixpoint drop_empty_last (ls : list text) : list text :=
  match ls with
  | [] => []
  | [l] => match l with [] => [] | _ => [l] end
  | l :: ls' => l :: drop_empty_last ls'
  end.

(** What the streaming run writes after the header. *)
Definition streaming_body (s : text) : text :=
  mjoin ((fun line => (convert_line line).1 ++ [NL]) <$> readline_lines s).

(** Some rule of [rs] has a match in the text it is applied to, when the
    rules rewrite [s] one after the other. *)
Fixpoint pass_matches (rs : list rule) (s : text) : bool :=
  match rs with
  | [] => false
  | r :: rs' => has_match (pat r) None s || pass_matches rs' (apply_rule r s)
  end.

(** How many lines satisfy [f]. *)
Fixpoint count_lines (f : text -> bool) (ls : list text) : nat :=
  match ls with
  | [] => 0
  | l :: ls' => (if f l then 1 else 0) + count_lines f ls'
  end.

(** The first four lines of every converted file. *)
Definition header_lines (ts : text) : list text :=
  [marker_line; generated_prefix ++ ts; caution_line; []].

(** A comment line of SQL. *)
Definition is_comment (l : text) : bool := bool_decide (u "--" `prefix_of` l).

(** The number of matches of a global pattern in a text. *)
Definition match_count (p : pattern) (s : text) : nat :=
  length (omap matched (scan p None s 0)).

(** Every rule counted on the same text. *)
Definition original_counts (rs : list rule) (s : text) : list (string * nat) :=
  (fun r => (source r, match_count (pat r) s)) <$> rs.

(** Every rule counted on the text it is applied to during the conversion:
    the output of the rules before it. *)
Fixpoint pass_counts (rs : list rule) (s : text) : list (string * nat) :=
  match rs with
  | [] => []
  | r :: rs' => (source r, match_count (pat r) s) :: pass_counts rs' (apply_rule r s)
  end.

(** The entries with a count above zero. *)
Definition reported (counts : list (string * nat)) : list (string * nat) :=
  List.filter (fun e => negb (e.2 =? 0)) counts.

(** The path holds a file that can be read. *)
Definition readable_in (fs : files) (path : string) : bool :=
  match readFileSync fs path with
  | inr _ => true
  | inl _ => false
  end.



(** The first seven rules: all but the [TOP] rule. *)
Definition early_rules : list rule :=
  [rule_dbo; rule_bracket; rule_getdate; rule_getutcdate; rule_newid;
   rule_len; rule_isnull].


(** The number of opening brackets in a text. *)
Definition opens (s : text) : nat := length (List.filter (N.eqb 91) s).

(** Some rule has a match in the line as it is read. *)
Definition any_rule_matches (l : text) : bool :=
  existsb (fun r => has_match (pat r) None l) conversions.

(** The atom can consume the unit [x]. *)
Definition accepts (a : atom) (x : N) : bool :=
  match a with
  | Chr c => (x =? c)%N
  | ChrI c => (canon x =? c)%N
  | Plus cls | CapPlus cls => cls x
  | Bnd => false
  end.

(** No atom of the pattern can consume a line feed. *)
Definition within_line (p : pattern) : bool := forallb (fun a => negb (accepts a NL)) p.

(** The rules whose patterns cannot take a line feed: all but the bracket
    rule and the [TOP] rule. *)
Definition line_rules : list rule :=
  [rule_dbo; rule_getdate; rule_getutcdate; rule_newid; rule_len; rule_isnull].

(** The conversion gives the line a different text. *)
Definition changed (l : text) : bool := negb (bool_decide (transform l = l)).

(** How often the unit [c] occurs in a text. *)
Definition count_unit (c : N) (s : text) : nat := length (List.filter (N.eqb c) s).

(** The units the replacement templates can add. *)
Definition template_units : text :=
  mjoin ((fun r => expand (replacement r) []) <$> conversions).

(** A unit that is not white space, not a word character and none of the
    brackets, the dot and the parentheses: a semicolon, a quote, a comma, an
    operator, a unit outside ASCII. *)
Definition inert (c : N) : bool :=
  negb (is_space c || is_word c || bool_decide (c ∈ u "[].()")).

(** The command wrote a converted file. *)
Definition completed (o : convert_outcome) : bool :=
  match o with
  | Saved _ _ | StreamedOk _ _ => true
  | _ => false
  end.

(** The promise resolved with [success: true]. *)
Definition succeeded (o : option outcome) : bool :=
  match o with
  | Some (Resolve r) => success r
  | _ => false
  end.

(** A unit that is white space or a semicolon. *)
Definition is_separator (c : N) : bool := is_space c || (c =? SEMICOLON)%N.

(** A console line that agrees with a list of statements: an error line
    carries the number (from 1) and the preview of a statement of the list,
    a progress line a count within the list. *)
Definition line_of (statements : list text) (line : Database.console_line) : Prop :=
  match line with
  | Database.ErrorLine number _ preview =>
      0 < number
      /\ exists statement,
           statements !! (number - 1) = Some statement
           /\ preview = Database.statement_preview statement
  | Database.ProgressLine executed _ => 0 < executed <= length statements
  end.

Example transform_select :
  transform (u "SELECT TOP 10 [Id] FROM [dbo].[Users]")
  = u "SELECT LIMIT 10 Id FROM Users".
Proof. vm_compute. reflexivity. Qed.

Example transform_nested : transform (u "[[a]]") = u "[a]".
Proof. vm_compute. reflexivity. Qed.

Example transform_newid : transform (u "NEWID()") = u "UUID()".
Proof. vm_compute. reflexivity. Qed.

Example transform_newid_lower : transform (u "newid()") = u "newid()".
Proof. vm_compute. reflexivity. Qed.

Example transform_insert :
  transform (u "INSERT INTO [dbo].[AbpAuditLogs] ([Id], [UserId]) VALUES (NEWID(), ISNULL(@u, 0));")
  = u "INSERT INTO AbpAuditLogs (Id, UserId) VALUES (UUID(), IFNULL(@u, 0));".
Proof. vm_compute. reflexivity. Qed.

Example readline_lines_mixed :
  readline_lines (u "a" ++ [CR; NL] ++ u "b" ++ [CR] ++ u "c" ++ [NL; NL] ++ u "d")
  = [u "a"; u "b"; u "c"; []; u "d"].
Proof. vm_compute. reflexivity. Qed.

Example readline_lines_final_newline :
  readline_lines (u "a" ++ [NL]) = [u "a"] /\ split_nl (u "a" ++ [NL]) = [u "a"; []].
Proof. vm_compute. split; reflexivity. Qed.

Example stats_sample :
  getConversionStats (u "SELECT TOP 5 [a], [b]" ++ NL :: u "FROM [dbo].[T]") []
  = Stats 2 1 [(source rule_dbo, 1); (source rule_bracket, 4); (source rule_top, 1)].
Proof. vm_compute. reflexivity. Qed.

Example streaming_lines_sample :
  streaming_body (u "SELECT [a]" ++ [CR; NL] ++ u "FROM t") =
  u "SELECT a" ++ [NL] ++ u "FROM t" ++ [NL].
Proof. vm_compute. reflexivity. Qed.

(** * Properties *)

(** ** The matcher *)

Lemma lastp_app prev a b : lastp prev (a ++ b) = lastp (lastp prev a) b.
Proof. revert prev. induction a as [|x a IH]; intros prev; simpl; auto. Qed.

Lemma plus_greedy_split {A} cls (k : option N -> text -> option A) s run r :
  plus_greedy cls k s = Some (run, r) ->
  exists rest, s = run ++ rest /\ run <> [] /\ forallb cls run = true
               /\ k (lastp None run) rest = Some r.
Proof.
  revert run r. induction s as [|x s IH]; intros run r; simpl; [done|].
  destruct (cls x) eqn:Hx; [|done].
  destruct (plus_greedy cls k s) as [[run' r']|] eqn:Hg.
  - intros [= <- <-]. destruct (IH _ _ eq_refl) as (rest & -> & Hne & Hall & Hk).
    exists rest. repeat split; simpl; auto.
    + by rewrite Hx, Hall.
    + destruct run'; [done|]. exact Hk.
  - destruct (k (Some x) s) as [r'|] eqn:Hk; [|done].
    intros [= <- <-]. exists s. repeat split; simpl; auto. by rewrite Hx.
Qed.

(** A match leaves a suffix of the input. *)
Lemma exec_suffix p : forall prev s cap rest,
  exec p prev s = Some (cap, rest) -> exists m, s = m ++ rest.
Proof.
  induction p as [|a p IH]; intros prev s cap rest; simpl.
  - intros [= <- <-]. by exists [].
  - destruct a as [c|c|cls|cls|].
    + destruct s as [|x s]; [done|]. destruct (x =? c)%N; [|done].
      intros H. destruct (IH _ _ _ _ H) as [m ->]. by exists (x :: m).
    + destruct s as [|x s]; [done|]. destruct (canon x =? c)%N; [|done].
      intros H. destruct (IH _ _ _ _ H) as [m ->]. by exists (x :: m).
    + destruct (plus_greedy cls (exec p) s) as [[run [c r]]|] eqn:Hg; [|done].
      intros [= <- <-].
      destruct (plus_greedy_split _ _ _ _ _ Hg) as (rest' & -> & _ & _ & Hk).
      destruct (IH _ _ _ _ Hk) as [m ->]. exists (run ++ m). by rewrite <- app_assoc.
    + destruct (plus_greedy cls (exec p) s) as [[run [c r]]|] eqn:Hg; [|done].
      intros [= <- <-].
      destruct (plus_greedy_split _ _ _ _ _ Hg) as (rest' & -> & _ & _ & Hk).
      destruct (IH _ _ _ _ Hk) as [m ->]. exists (run ++ m). by rewrite <- app_assoc.
    + destruct (xorb _ _); [|done]. apply IH.
Qed.

Lemma exec_shorter p : forall prev s cap rest,
  consuming p = true -> exec p prev s = Some (cap, rest) -> length rest < length s.
Proof.
  induction p as [|a p IH]; intros prev s cap rest; simpl; [done|].
  destruct a as [c|c|cls|cls|]; simpl.
  - intros _. destruct s as [|x s]; [done|]. destruct (x =? c)%N; [|done].
    intros H. destruct (exec_suffix _ _ _ _ _ H) as [m ->].
    simpl; rewrite length_app; lia.
  - intros _. destruct s as [|x s]; [done|]. destruct (canon x =? c)%N; [|done].
    intros H. destruct (exec_suffix _ _ _ _ _ H) as [m ->].
    simpl; rewrite length_app; lia.
  - intros _. destruct (plus_greedy cls (exec p) s) as [[run [c r]]|] eqn:Hg; [|done].
    intros [= <- <-].
    destruct (plus_greedy_split _ _ _ _ _ Hg) as (rest' & -> & Hne & _ & Hk).
    destruct (exec_suffix _ _ _ _ _ Hk) as [m ->].
    destruct run; [done|]. simpl; rewrite !length_app; simpl; lia.
  - intros _. destruct (plus_greedy cls (exec p) s) as [[run [c r]]|] eqn:Hg; [|done].
    intros [= <- <-].
    destruct (plus_greedy_split _ _ _ _ _ Hg) as (rest' & -> & Hne & _ & Hk).
    destruct (exec_suffix _ _ _ _ _ Hk) as [m ->].
    destruct run; [done|]. simpl; rewrite !length_app; simpl; lia.
  - intros Hc. destruct (xorb _ _); [|done]. by apply IH.
Qed.

Lemma exec_nil p prev : consuming p = true -> exec p prev [] = None.
Proof.
  intros Hc. destruct (exec p prev []) as [[cap rest]|] eqn:He; [|done].
  apply exec_shorter in He; [simpl in He; lia | done].
Qed.

(** A match depends on the unit before it only through [\b]. *)
Lemma exec_word_before p : forall prev prev' s,
  word_before prev = word_before prev' -> exec p prev s = exec p prev' s.
Proof.
  induction p as [|a p IH]; intros prev prev' s Hw; [done|].
  destruct a; simpl; try done. rewrite Hw. destruct (xorb _ _); auto.
Qed.

(** ** The scan *)

Lemma scan_skip p m : forall prev rest,
  scan p prev (m ++ rest) (length m) = scan p (lastp prev m) rest 0.
Proof. induction m as [|x m IH]; intros prev rest; simpl; [by destruct rest|apply IH]. Qed.

Lemma scan_copy p prev x s :
  exec p prev (x :: s) = None -> scan p prev (x :: s) 0 = Copy x :: scan p (Some x) s 0.
Proof. intros H. simpl scan. by rewrite H. Qed.

Lemma scan_hit p prev m cap rest :
  m <> [] -> exec p prev (m ++ rest) = Some (cap, rest) ->
  scan p prev (m ++ rest) 0 = Hit m cap :: scan p (lastp prev m) rest 0.
Proof.
  intros Hm He. destruct m as [|x m]; [done|].
  change (scan p prev ((x :: m) ++ rest) 0)
    with (match exec p prev ((x :: m) ++ rest) with
          | Some (cap, rest') =>
              Hit (take (length ((x :: m) ++ rest) - length rest') ((x :: m) ++ rest)) cap
                :: scan p (Some x) (m ++ rest) (length (m ++ rest) - length rest')
          | None => Copy x :: scan p (Some x) (m ++ rest) 0
          end).
  rewrite He. f_equal.
  - f_equal. rewrite length_app.
    replace (length (x :: m) + length rest - length rest) with (length (x :: m)) by lia.
    by rewrite take_app_length.
  - rewrite length_app.
    replace (length m + length rest - length rest) with (length m) by lia.
    by rewrite scan_skip.
Qed.

(** What a match attempt at a position gives: nothing, or a nonempty match
    followed by the rest. *)
Lemma exec_cases p prev s :
  consuming p = true ->
  exec p prev s = None \/
  exists m cap rest, m <> [] /\ s = m ++ rest /\ exec p prev s = Some (cap, rest).
Proof.
  intros Hc. destruct (exec p prev s) as [[cap rest]|] eqn:He; [right|by left].
  destruct (exec_suffix _ _ _ _ _ He) as [m ->].
  exists m, cap, rest. split_and!; auto.
  intros ->. apply exec_shorter in He; [simpl in He; lia|done].
Qed.

(** Induction along the scan. *)
Lemma scan_ind p (P : option N -> text -> list item -> Prop) :
  consuming p = true ->
  (forall prev, P prev [] []) ->
  (forall prev x s, exec p prev (x :: s) = None ->
     P (Some x) s (scan p (Some x) s 0) ->
     P prev (x :: s) (Copy x :: scan p (Some x) s 0)) ->
  (forall prev m cap rest, m <> [] -> exec p prev (m ++ rest) = Some (cap, rest) ->
     P (lastp prev m) rest (scan p (lastp prev m) rest 0) ->
     P prev (m ++ rest) (Hit m cap :: scan p (lastp prev m) rest 0)) ->
  forall prev s, P prev s (scan p prev s 0).
Proof.
  intros Hc Hnil Hcopy Hhit prev s.
  remember (length s) as n eqn:Hn. revert prev s Hn.
  induction n as [n IH] using lt_wf_ind. intros prev s ->.
  destruct (exec_cases p prev s Hc) as [He|(m & cap & rest & Hm & -> & He)].
  - destruct s as [|x s]; [apply Hnil|].
    rewrite scan_copy by done. apply Hcopy; [done|].
    eapply IH; [|reflexivity]. simpl; lia.
  - rewrite (scan_hit _ _ _ cap) by done. apply Hhit; [done..|].
    eapply IH; [|reflexivity]. destruct m; [done|]. simpl; rewrite length_app; lia.
Qed.

(** ** Replacement along the scan *)


Lemma replace_from_copy p t prev x s :
  exec p prev (x :: s) = None ->
  replace_from p t prev (x :: s) = x :: replace_from p t (Some x) s.
Proof. intros H. unfold replace_from. by rewrite scan_copy. Qed.

Lemma replace_from_hit p t prev m cap rest :
  m <> [] -> exec p prev (m ++ rest) = Some (cap, rest) ->
  replace_from p t prev (m ++ rest) = expand t cap ++ replace_from p t (lastp prev m) rest.
Proof. intros Hm H. unfold replace_from. by rewrite (scan_hit _ _ _ cap). Qed.

(** ** Positions where a pattern matches *)

Lemma has_match_intro p a : forall prev b,
  is_Some (exec p (lastp prev a) b) -> has_match p prev (a ++ b) = true.
Proof.
  induction a as [|x a IH]; intros prev b Hs; simpl in *.
  - destruct b; simpl; rewrite bool_decide_eq_true_2; auto.
  - rewrite (IH _ _ Hs). by rewrite orb_true_r.
Qed.

Lemma has_match_elim p : forall s prev,
  has_match p prev s = true ->
  exists a b, s = a ++ b /\ is_Some (exec p (lastp prev a) b).
Proof.
  induction s as [|x s IH]; intros prev; simpl.
  - intros H%bool_decide_eq_true. by exists [], [].
  - intros [H%bool_decide_eq_true|H]%orb_true_iff.
    + by exists [], (x :: s).
    + destruct (IH _ H) as (a & b & -> & Hs). by exists (x :: a), b.
Qed.

Lemma has_match_none p prev s :
  has_match p prev s = false ->
  forall a b, s = a ++ b -> exec p (lastp prev a) b = None.
Proof.
  intros H a b ->. destruct (exec p (lastp prev a) b) eqn:He; [|done].
  rewrite has_match_intro in H; [done|]. by rewrite He.
Qed.

Lemma has_match_app p a : forall prev b,
  has_match p prev (a ++ b) = true ->
  (exists a1 a2, a = a1 ++ a2 /\ a2 <> [] /\ is_Some (exec p (lastp prev a1) (a2 ++ b)))
  \/ has_match p (lastp prev a) b = true.
Proof.
  induction a as [|x a IH]; intros prev b; simpl; [by right|].
  intros [H%bool_decide_eq_true|H]%orb_true_iff.
  - left. by exists [], (x :: a).
  - destruct (IH _ _ H) as [(a1 & a2 & -> & Hne & Hs)|Hr]; [left|by right].
    by exists (x :: a1), a2.
Qed.

(** Without a match the scan copies every unit. *)
Lemma scan_no_match p : forall s prev,
  has_match p prev s = false -> scan p prev s 0 = Copy <$> s.
Proof.
  induction s as [|x s IH]; intros prev; [done|].
  simpl has_match. intros [H1 H2]%orb_false_iff.
  apply bool_decide_eq_false in H1.
  rewrite scan_copy.
  - simpl. by rewrite IH.
  - destruct (exec p prev (x :: s)); [|done]. by destruct H1.
Qed.

Lemma mjoin_copy t (s : text) : mjoin (render t <$> (Copy <$> s)) = s.
Proof. induction s as [|x s IH]; [done|]. simpl. f_equal. exact IH. Qed.

Lemma replace_from_no_match p t prev s :
  has_match p prev s = false -> replace_from p t prev s = s.
Proof. intros H. unfold replace_from. rewrite scan_no_match by done. apply mjoin_copy. Qed.

Lemma replace_no_match p t s : has_match p None s = false -> replace p t s = s.
Proof. apply replace_from_no_match. Qed.

(** The scan finds a match exactly when the pattern matches somewhere. *)
Lemma scan_hit_iff p : consuming p = true -> forall prev s,
  existsb is_hit (scan p prev s 0) = has_match p prev s.
Proof.
  intros Hc. apply (scan_ind p (fun prev s its => existsb is_hit its = has_match p prev s) Hc).
  - intros prev. simpl. by rewrite exec_nil, bool_decide_eq_false_2 by (done || by intros [??]).
  - intros prev x s He IH. simpl. rewrite IH, He.
    by rewrite bool_decide_eq_false_2 by (by intros [??]).
  - intros prev m cap rest Hm He IH. simpl. symmetry.
    apply (has_match_intro p [] prev (m ++ rest)). cbn [lastp]. by rewrite He.
Qed.

Lemma js_match_none p s :
  consuming p = true -> js_match p s = None <-> has_match p None s = false.
Proof.
  intros Hc. rewrite <- (scan_hit_iff p Hc). unfold js_match.
  induction (scan p None s 0) as [|[x|m cap] its IH]; simpl; [done|..].
  - exact IH.
  - done.
Qed.

(** ** Matches in the output of a rule

    A rule whose replacement is a fixed text [R] followed by units of a
    class [cls] (the captured digits of the last rule; nothing for the
    others), and a literal [L], possibly behind a [\b], that can neither run
    into [R] nor start inside a replacement: every place where [L] matches
    in the output of the rule comes from a place of the input that the rule
    copied and where [L] matched already. *)

Section Reflect.

Variables (p : pattern) (t : template) (R : text) (cls : N -> bool).
Hypothesis Hc : consuming p = true.
Hypothesis HR : R <> [].
Hypothesis Hout : forall prev s cap rest,
  exec p prev s = Some (cap, rest) ->
  exists tail, expand t cap = R ++ tail /\ forallb cls tail = true.
Hypothesis Hword : forall prev m cap rest,
  m <> [] -> exec p prev (m ++ rest) = Some (cap, rest) ->
  word_before (lastp prev m) = word_before (lastp None (expand t cap)).

Lemma prefix_reflect w :
  (forall w1 w2 y z, w = w1 ++ w2 -> w2 <> [] -> w2 ++ y <> R ++ z) ->
  forall prev s o,
    replace_from p t prev s = w ++ o ->
    exists s2, s = w ++ s2 /\ o = replace_from p t (lastp prev w) s2.
Proof using Hc Hout.
  induction w as [|c w IH]; intros Hsafe prev s o Heq.
  - exists s. simpl in *. by subst o.
  - destruct (exec_cases p prev s Hc) as [He|(m & cap & rest & Hm & -> & He)].
    + destruct s as [|x s]; [done|].
      rewrite replace_from_copy in Heq by done.
      injection Heq as -> Heq.
      destruct (IH (fun w1 w2 y z Hw => Hsafe (c :: w1) w2 y z (f_equal (cons c) Hw))
                   _ _ _ Heq) as (s2 & -> & ->).
      by exists s2.
    + rewrite (replace_from_hit _ _ _ _ cap) in Heq by done.
      destruct (Hout _ _ _ _ He) as (tail & Hex & _).
      rewrite Hex, <- app_assoc in Heq.
      exfalso. by apply (Hsafe [] (c :: w) o (tail ++ replace_from p t (lastp prev m) rest)).
Qed.

Variables (q : pattern) (bnd : bool) (L : text).
Hypothesis Hq : forall prev s,
  is_Some (exec q prev s) <->
  (bnd = true -> word_before prev = false) /\ exists o, s = L ++ o.
Hypothesis HL : L <> [].
Hypothesis Hsafe : forall w1 w2 y z, L = w1 ++ w2 -> w2 <> [] -> w2 ++ y <> R ++ z.
Hypothesis Hclean : forall tail r1 r2 y z,
  forallb cls tail = true -> R ++ tail = r1 ++ r2 -> r2 <> [] -> r2 ++ y <> L ++ z.

Lemma reflect : forall prev s prev',
  word_before prev = word_before prev' ->
  has_match q prev' (replace_from p t prev s) = true ->
  exists a b, s = a ++ b /\ exec p (lastp prev a) b = None
              /\ is_Some (exec q (lastp prev a) b).
Proof using All.
  intros prev s.
  apply (scan_ind p (fun prev s its => forall prev',
    word_before prev = word_before prev' ->
    has_match q prev' (mjoin (render t <$> its)) = true ->
    exists a b, s = a ++ b /\ exec p (lastp prev a) b = None
                /\ is_Some (exec q (lastp prev a) b)) Hc); clear prev s.
  - intros prev prev' _ H. simpl in H. apply bool_decide_eq_true in H.
    apply Hq in H as [_ [o Ho]]. destruct L; done.
  - intros prev x s He IH prev' Hw H.
    change (mjoin (render t <$> Copy x :: scan p (Some x) s 0))
      with (x :: replace_from p t (Some x) s) in H.
    simpl in H. apply orb_true_iff in H as [H|H].
    + apply bool_decide_eq_true in H. apply Hq in H as [Hb [o Ho]].
      rewrite <- (replace_from_copy p t prev) in Ho by done.
      destruct (prefix_reflect L Hsafe _ _ _ Ho) as (s2 & Hs & _).
      exists [], (x :: s). split_and!; [done..|].
      apply Hq. split; [|by exists s2].
      intros Hbt. rewrite <- (Hb Hbt). exact Hw.
    + destruct (IH (Some x) eq_refl H) as (a & b & -> & Hn & Hs).
      by exists (x :: a), b.
  - intros prev m cap rest Hm He IH prev' Hw H.
    change (mjoin (render t <$> Hit m cap :: scan p (lastp prev m) rest 0))
      with (expand t cap ++ replace_from p t (lastp prev m) rest) in H.
    destruct (Hout _ _ _ _ He) as (tail & Hex & Htail).
    apply has_match_app in H as [(r1 & r2 & Hr & Hne & Hs)|H].
    + apply Hq in Hs as [_ [o Ho]]. exfalso.
      rewrite Hex in Hr. by apply (Hclean _ _ _ _ _ Htail Hr Hne Ho).
    + assert (Hw' : word_before (lastp prev m)
                    = word_before (lastp prev' (expand t cap))).
      { rewrite (Hword _ _ _ _ Hm He). rewrite Hex.
        destruct R; [done|]. reflexivity. }
      destruct (IH _ Hw' H) as (a & b & -> & Hn & Hs).
      exists (m ++ a), b. rewrite <- app_assoc, lastp_app. done.
Qed.

(** The literal matches nowhere in the output if it matched nowhere in the
    input. *)
Lemma reflect_preserve s :
  has_match q None s = false -> has_match q None (replace p t s) = false.
Proof using All.
  intros Hn. destruct (has_match q None (replace p t s)) eqn:H; [|done].
  destruct (reflect None s None eq_refl H) as (a & b & -> & _ & Hs).
  rewrite (has_match_none _ _ _ Hn a b eq_refl) in Hs. by destruct Hs.
Qed.

End Reflect.

(** A rule leaves no match of its own literal pattern. *)
Lemma reflect_clear p t R cls bnd L :
  consuming p = true -> R <> [] ->
  (forall prev s cap rest, exec p prev s = Some (cap, rest) ->
     exists tail, expand t cap = R ++ tail /\ forallb cls tail = true) ->
  (forall prev m cap rest, m <> [] -> exec p prev (m ++ rest) = Some (cap, rest) ->
     word_before (lastp prev m) = word_before (lastp None (expand t cap))) ->
  (forall prev s, is_Some (exec p prev s) <->
     (bnd = true -> word_before prev = false) /\ exists o, s = L ++ o) ->
  L <> [] ->
  (forall w1 w2 y z, L = w1 ++ w2 -> w2 <> [] -> w2 ++ y <> R ++ z) ->
  (forall tail r1 r2 y z,
     forallb cls tail = true -> R ++ tail = r1 ++ r2 -> r2 <> [] -> r2 ++ y <> L ++ z) ->
  forall s, has_match p None (replace p t s) = false.
Proof.
  intros Hc HR Hout Hword Hq HL Hsafe Hclean s.
  destruct (has_match p None (replace p t s)) eqn:H; [|done].
  destruct (reflect p t R cls Hc HR Hout Hword p bnd L Hq HL Hsafe Hclean
              None s None eq_refl H) as (a & b & -> & Hn & Hs).
  rewrite Hn in Hs. by destruct Hs.
Qed.

(** ** The side conditions, decided by computation *)

Lemma comparable_app (a b y z : text) : a ++ y = b ++ z -> comparable a b = true.
Proof.
  intros H. unfold comparable. apply orb_true_iff.
  destruct (app_eq_inv _ _ _ _ H) as [(k & -> & _)|(k & -> & _)].
  - right. apply bool_decide_eq_true. by exists k.
  - left. apply bool_decide_eq_true. by exists k.
Qed.

Lemma tails_ne_elem (w1 w2 : text) : w2 <> [] -> In w2 (tails_ne (w1 ++ w2)).
Proof.
  intros Hne. induction w1 as [|x w1 IH]; simpl.
  - destruct w2; [done|]. by left.
  - by right.
Qed.

Lemma safe_b_sound r w :
  safe_b r w = true ->
  forall w1 w2 y z, w = w1 ++ w2 -> w2 <> [] -> w2 ++ y <> r ++ z.
Proof.
  intros Hs w1 w2 y z -> Hne Heq. unfold safe_b in Hs.
  rewrite forallb_forall in Hs. specialize (Hs w2 (tails_ne_elem w1 w2 Hne)).
  by rewrite (comparable_app _ _ _ _ Heq) in Hs.
Qed.

Lemma clean_b_sound r cls l :
  clean_b r cls l = true ->
  forall tail r1 r2 y z,
    forallb cls tail = true -> r ++ tail = r1 ++ r2 -> r2 <> [] -> r2 ++ y <> l ++ z.
Proof.
  intros [Hs Hl]%andb_true_iff tail r1 r2 y z Htail Hsplit Hne Heq.
  rewrite forallb_forall in Hs.
  assert (Htl : forall c r2' , forallb cls (c :: r2') = true -> (c :: r2') ++ y <> l ++ z).
  { intros c r2' Hc He. destruct l as [|c' l]; [done|]. injection He as <- _.
    simpl in Hc. apply andb_true_iff in Hc as [Hc _]. by rewrite Hc in Hl. }
  destruct (app_eq_inv _ _ _ _ Hsplit) as [(k & Hr & Hr2)|(k & Hr1 & Ht)].
  - (* the occurrence starts in the fixed part, or where the tail starts *)
    subst r r2. destruct k as [|c k].
    + simpl in *. destruct tail as [|c tail]; [done|]. by apply (Htl c tail).
    + specialize (Hs (c :: k) (tails_ne_elem r1 (c :: k) ltac:(done))).
      rewrite <- app_assoc in Heq.
      by rewrite (comparable_app _ _ _ _ Heq) in Hs.
  - (* the occurrence starts in the tail *)
    subst tail. rewrite forallb_app in Htail. apply andb_true_iff in Htail as [_ Hc].
    destruct r2 as [|c r2]; [done|]. by apply (Htl c r2).
Qed.

(** ** Literal patterns *)

Lemma exec_chr_some (l : text) : forall prev o, exec (Chr <$> l) prev (l ++ o) = Some ([], o).
Proof.
  induction l as [|c l IH]; intros prev o; [done|].
  simpl. rewrite N.eqb_refl. apply IH.
Qed.

Lemma exec_chr_inv (l : text) : forall prev s cap rest,
  exec (Chr <$> l) prev s = Some (cap, rest) -> cap = [] /\ s = l ++ rest.
Proof.
  induction l as [|c l IH]; intros prev s cap rest; simpl.
  - by intros [= <- <-].
  - destruct s as [|x s]; [done|]. destruct (x =? c)%N eqn:Hx; [|done].
    apply N.eqb_eq in Hx as ->. intros H. destruct (IH _ _ _ _ H) as [-> ->]. done.
Qed.

Lemma exec_lit_pat_inv bnd l prev s cap rest :
  exec (lit_pat bnd l) prev s = Some (cap, rest) ->
  cap = [] /\ s = l ++ rest /\ (bnd = true -> xorb (word_before prev) (word_at s) = true).
Proof.
  destruct bnd; simpl.
  - destruct (xorb _ _) eqn:Hx; [|done]. intros H.
    destruct (exec_chr_inv _ _ _ _ _ H) as [-> ->]. done.
  - intros H. destruct (exec_chr_inv _ _ _ _ _ H) as [-> ->]. done.
Qed.

Lemma exec_lit_pat_some bnd l prev o :
  (bnd = true -> xorb (word_before prev) (word_at (l ++ o)) = true) ->
  exec (lit_pat bnd l) prev (l ++ o) = Some ([], o).
Proof.
  destruct bnd; simpl; intros H.
  - rewrite H by done. apply exec_chr_some.
  - apply exec_chr_some.
Qed.

Lemma word_at_app (l o : text) : l <> [] -> word_at (l ++ o) = word_at l.
Proof. by destruct l. Qed.

Lemma lit_pat_matches bnd l prev s :
  l <> [] -> (bnd = true -> word_at l = true) ->
  is_Some (exec (lit_pat bnd l) prev s) <->
  (bnd = true -> word_before prev = false) /\ exists o, s = l ++ o.
Proof.
  intros Hl Hw. split.
  - intros [[cap rest] He]. apply exec_lit_pat_inv in He as (-> & -> & Hb).
    split; [|by exists rest]. intros Hbt. specialize (Hb Hbt).
    rewrite word_at_app, (Hw Hbt) in Hb by done. by destruct (word_before prev).
  - intros [Hb [o ->]]. rewrite exec_lit_pat_some; [done|].
    intros Hbt. rewrite word_at_app, (Hw Hbt), (Hb Hbt) by done. done.
Qed.

Lemma consuming_lit_pat bnd l : l <> [] -> consuming (lit_pat bnd l) = true.
Proof. destruct l; [done|]. by destruct bnd. Qed.

Lemma lastp_nonempty prev prev' (m : text) : m <> [] -> lastp prev m = lastp prev' m.
Proof. by destruct m. Qed.

(** A rule with a literal pattern and a fixed replacement. *)
Section LiteralRule.

Variables (bk : bool) (lk rk : text).
Hypothesis Hlk : lk <> [].
Hypothesis Hrk : rk <> [].
Hypothesis Hwk : bk = true -> word_at lk = true.
Hypothesis Hlast : word_before (lastp None lk) = word_before (lastp None rk).

Lemma literal_out prev s cap rest :
  exec (lit_pat bk lk) prev s = Some (cap, rest) ->
  exists tail, expand [Txt rk] cap = rk ++ tail /\ forallb (fun _ => false) tail = true.
Proof. intros _. by exists []. Qed.

Lemma literal_word prev m cap rest :
  m <> [] -> exec (lit_pat bk lk) prev (m ++ rest) = Some (cap, rest) ->
  word_before (lastp prev m) = word_before (lastp None (expand [Txt rk] cap)).
Proof using Hlk Hrk Hlast.
  intros Hm He. apply exec_lit_pat_inv in He as (_ & Heq & _).
  apply app_inv_tail in Heq as ->.
  rewrite (lastp_nonempty prev None) by done. rewrite Hlast.
  unfold expand. simpl. by rewrite app_nil_r.
Qed.

Lemma literal_preserve bj lj s :
  lj <> [] -> lit_ok rk (fun _ => false) bj lj = true ->
  has_match (lit_pat bj lj) None s = false ->
  has_match (lit_pat bj lj) None (replace (lit_pat bk lk) [Txt rk] s) = false.
Proof using All.
  intros Hlj [[Hs Hcl]%andb_true_iff Hwj]%andb_true_iff.
  apply (reflect_preserve (lit_pat bk lk) [Txt rk] rk (fun _ => false)
           (consuming_lit_pat _ _ Hlk) Hrk literal_out literal_word
           (lit_pat bj lj) bj lj).
  - intros prev s'. apply lit_pat_matches; [done|]. intros ->. exact Hwj.
  - done.
  - by apply safe_b_sound.
  - by apply clean_b_sound.
Qed.

Lemma literal_clear s :
  lit_ok rk (fun _ => false) bk lk = true ->
  has_match (lit_pat bk lk) None (replace (lit_pat bk lk) [Txt rk] s) = false.
Proof using All.
  intros [[Hs Hcl]%andb_true_iff _]%andb_true_iff.
  apply (reflect_clear (lit_pat bk lk) [Txt rk] rk (fun _ => false) bk lk
           (consuming_lit_pat _ _ Hlk) Hrk literal_out literal_word).
  - intros prev s'. by apply lit_pat_matches.
  - done.
  - by apply safe_b_sound.
  - by apply clean_b_sound.
Qed.

End LiteralRule.

(** ** The greedy run *)

(** A run that cannot be extended, followed by a successful rest. *)
Lemma plus_greedy_max {A} cls (k : option N -> text -> option A) (run rest : text) r :
  run <> [] -> forallb cls run = true ->
  match rest with c :: _ => cls c = false | [] => True end ->
  k (lastp None run) rest = Some r ->
  plus_greedy cls k (run ++ rest) = Some (run, r).
Proof.
  intros Hne Hall Hstop Hk.
  induction run as [|x run IH]; [done|].
  simpl in Hall. apply andb_true_iff in Hall as [Hx Hall].
  simpl. rewrite Hx. destruct run as [|x' run].
  - simpl in *. replace (plus_greedy cls k rest) with (@None (text * A)).
    + by rewrite Hk.
    + destruct rest as [|c rest]; [done|]. simpl. by rewrite Hstop.
  - rewrite IH; done.
Qed.

Lemma is_digit_word c : is_digit c = true -> is_word c = true.
Proof. unfold is_word, is_digit. intros ->. by rewrite !orb_true_r. Qed.

Lemma lastp_forall (P : N -> bool) (m : text) :
  m <> [] -> forallb P m = true -> exists c, lastp None m = Some c /\ P c = true.
Proof.
  generalize (@None N). induction m as [|x m IH]; intros prev Hne Hall; [done|].
  simpl in Hall. apply andb_true_iff in Hall as [Hx Hall].
  destruct m as [|y m]; [by exists x|]. by apply (IH (Some x)).
Qed.

Lemma exec_CapPlus cls p prev s :
  exec (CapPlus cls :: p) prev s =
  match plus_greedy cls (exec p) s with
  | Some (run, (_, rest)) => Some (run, rest)
  | None => None
  end.
Proof. done. Qed.

Lemma exec_Plus cls p prev s :
  exec (Plus cls :: p) prev s =
  match plus_greedy cls (exec p) s with
  | Some (_, r) => Some r
  | None => None
  end.
Proof. done. Qed.

(** ** The [TOP] rule *)

Lemma canon_word c a : canon c = a -> is_word a = true -> in_range 65 90 a = true ->
  is_word c = true.
Proof.
  unfold canon. destruct (in_range 97 122 c) eqn:Hr.
  - intros _ _ _. unfold is_word. rewrite Hr. by rewrite orb_true_r.
  - by intros ->.
Qed.

Lemma exec_top_inv prev s cap rest :
  exec (pat rule_top) prev s = Some (cap, rest) ->
  word_before prev = false /\
  exists c1 c2 c3 sp,
    s = c1 :: c2 :: c3 :: sp ++ cap ++ rest
    /\ canon c1 = 84%N /\ canon c2 = 79%N /\ canon c3 = 80%N
    /\ sp <> [] /\ forallb is_space sp = true
    /\ cap <> [] /\ forallb is_digit cap = true
    /\ word_at rest = false.
Proof.
  change (pat rule_top)
    with [Bnd; ChrI 84; ChrI 79; ChrI 80; Plus is_space; CapPlus is_digit; Bnd].
  cbn [exec].
  destruct (xorb (word_before prev) (word_at s)) eqn:Hb; [|done].
  destruct s as [|c1 s]; [done|]. destruct (canon c1 =? 84)%N eqn:H1; [|done].
  destruct s as [|c2 s]; [done|]. destruct (canon c2 =? 79)%N eqn:H2; [|done].
  destruct s as [|c3 s]; [done|]. destruct (canon c3 =? 80)%N eqn:H3; [|done].
  apply N.eqb_eq in H1, H2, H3.
  destruct (plus_greedy is_space _ s) as [[sp [cap' rest']]|] eqn:Hg; [|done].
  intros [= -> ->].
  apply plus_greedy_split in Hg as (s1 & -> & Hsp & Hspall & Hk).
  destruct (plus_greedy is_digit _ s1) as [[dg [c0 r0]]|] eqn:Hd; [|done].
  injection Hk as -> ->.
  apply plus_greedy_split in Hd as (s2 & -> & Hdg & Hdgall & Hk).
  destruct (lastp_forall _ _ Hdg Hdgall) as (d & Hlast & Hdd).
  rewrite Hlast in Hk. simpl in Hk. rewrite (is_digit_word _ Hdd) in Hk.
  destruct (word_at s2) eqn:Hw; [done|]. injection Hk as _ ->.
  split.
  - simpl in Hb. rewrite (canon_word c1 84%N H1) in Hb by done.
    by destruct (word_before prev).
  - exists c1, c2, c3, sp. split_and!; done.
Qed.

Lemma is_space_digit c : is_digit c = true -> is_space c = false.
Proof.
  unfold is_digit, is_space, in_range.
  intros [H1 H2]%andb_true_iff. apply N.leb_le in H1, H2.
  repeat (apply orb_false_iff; split); try (apply andb_false_iff);
    try (apply N.eqb_neq; lia).
  - right. apply N.leb_gt. lia.
  - left. apply N.leb_gt. lia.
Qed.

Lemma not_word_not_digit (s : text) :
  word_at s = false -> match s with c :: _ => is_digit c = false | [] => True end.
Proof.
  destruct s as [|c s]; [done|]. simpl. intros Hw.
  destruct (is_digit c) eqn:Hd; [|done]. by rewrite (is_digit_word _ Hd) in Hw.
Qed.

Lemma exec_top_some prev c1 c2 c3 sp cap rest :
  word_before prev = false ->
  canon c1 = 84%N -> canon c2 = 79%N -> canon c3 = 80%N ->
  sp <> [] -> forallb is_space sp = true ->
  cap <> [] -> forallb is_digit cap = true ->
  word_at rest = false ->
  exec (pat rule_top) prev (c1 :: c2 :: c3 :: sp ++ cap ++ rest) = Some (cap, rest).
Proof.
  intros Hb H1 H2 H3 Hsp Hspall Hdg Hdgall Hw.
  assert (Hd : plus_greedy is_digit (exec [Bnd]) (cap ++ rest) = Some (cap, ([], rest))).
  { apply plus_greedy_max; [done..|by apply not_word_not_digit|].
    destruct (lastp_forall _ _ Hdg Hdgall) as (d & -> & Hdd).
    simpl. by rewrite (is_digit_word _ Hdd), Hw. }
  assert (Hs : plus_greedy is_space (exec [CapPlus is_digit; Bnd]) (sp ++ cap ++ rest)
               = Some (sp, (cap, rest))).
  { apply plus_greedy_max; [done..| |].
    - destruct cap as [|d cap]; [done|]. simpl. apply is_space_digit.
      simpl in Hdgall. by apply andb_true_iff in Hdgall as [-> _].
    - by rewrite exec_CapPlus, Hd. }
  change (pat rule_top)
    with ([Bnd; ChrI 84; ChrI 79; ChrI 80] ++ Plus is_space :: [CapPlus is_digit; Bnd]).
  cbn [exec app]. rewrite Hb. cbn [word_at]. rewrite (canon_word c1 84%N H1) by done.
  cbn [xorb]. rewrite H1, H2, H3. cbn [N.eqb Pos.eqb].
  change (match plus_greedy is_space (exec [CapPlus is_digit; Bnd]) (sp ++ cap ++ rest) with
          | Some (_, r) => Some r
          | None => None
          end = Some (cap, rest)).
  by rewrite Hs.
Qed.

Lemma top_out prev s cap rest :
  exec (pat rule_top) prev s = Some (cap, rest) ->
  exists tail, expand (replacement rule_top) cap = u "LIMIT " ++ tail
               /\ forallb is_digit tail = true.
Proof.
  intros He. apply exec_top_inv in He as (_ & c1 & c2 & c3 & sp & _ & _ & _ & _ & _ & _ & _ & Hd & _).
  exists cap. split; [|done]. unfold expand. simpl. by rewrite app_nil_r.
Qed.

Lemma top_word prev m cap rest :
  m <> [] -> exec (pat rule_top) prev (m ++ rest) = Some (cap, rest) ->
  word_before (lastp prev m) = word_before (lastp None (expand (replacement rule_top) cap)).
Proof.
  intros Hm He.
  apply exec_top_inv in He as (_ & c1 & c2 & c3 & sp & Hs & _ & _ & _ & _ & _ & Hdg & Hd & _).
  replace (c1 :: c2 :: c3 :: sp ++ cap ++ rest)
    with ((c1 :: c2 :: c3 :: sp ++ cap) ++ rest) in Hs by (simpl; by rewrite <- app_assoc).
  apply app_inv_tail in Hs as ->.
  replace (expand (replacement rule_top) cap) with (u "LIMIT " ++ cap)
    by (unfold expand; simpl; by rewrite app_nil_r).
  change (c1 :: c2 :: c3 :: sp ++ cap) with ([c1; c2; c3] ++ sp ++ cap).
  rewrite !lastp_app.
  rewrite (lastp_nonempty _ None cap), (lastp_nonempty (lastp None _) None cap); done.
Qed.

Lemma top_preserve bj lj s :
  lj <> [] -> lit_ok (u "LIMIT ") is_digit bj lj = true ->
  has_match (lit_pat bj lj) None s = false ->
  has_match (lit_pat bj lj) None (apply_rule rule_top s) = false.
Proof.
  intros Hlj [[Hs Hcl]%andb_true_iff Hwj]%andb_true_iff.
  apply (reflect_preserve (pat rule_top) (replacement rule_top) (u "LIMIT ") is_digit
           eq_refl ltac:(done) top_out top_word (lit_pat bj lj) bj lj).
  - intros prev s'. apply lit_pat_matches; [done|]. intros ->. exact Hwj.
  - done.
  - by apply safe_b_sound.
  - by apply clean_b_sound.
Qed.

(** The [TOP] rule leaves no match of its own pattern: [LIMIT] and the
    digits after it cannot be part of a new match, and a copied [TOP n]
    would have been a match in the input. *)

Lemma top_head_word prev (s : text) :
  word_at (replace_from (pat rule_top) (replacement rule_top) prev s) = false ->
  word_at s = false.
Proof.
  destruct (exec_cases (pat rule_top) prev s eq_refl)
    as [He|(m & cap & rest & Hm & -> & He)].
  - destruct s as [|x s]; [done|]. by rewrite replace_from_copy.
  - rewrite (replace_from_hit _ _ _ _ cap) by done.
    destruct (top_out _ _ _ _ He) as (tail & -> & _). done.
Qed.

Lemma canon_neq_L c a : canon c = a -> a <> 76%N -> in_range 65 90 a = true -> c <> 76%N.
Proof. intros <- Hne _ ->. by apply Hne. Qed.

Lemma top_match_safe (c1 c2 c3 : N) (sp cap : text) :
  canon c1 = 84%N -> canon c2 = 79%N -> canon c3 = 80%N ->
  forallb is_space sp = true -> forallb is_digit cap = true ->
  forall w1 w2 y z,
    c1 :: c2 :: c3 :: sp ++ cap = w1 ++ w2 -> w2 <> [] -> w2 ++ y <> u "LIMIT " ++ z.
Proof.
  intros H1 H2 H3 Hsp Hdg w1 w2 y z Hw Hne Heq.
  assert (Hall : Forall (fun c => c <> 76%N) (c1 :: c2 :: c3 :: sp ++ cap)).
  { repeat apply Forall_cons_2; try (eapply canon_neq_L; [eassumption|done..]).
    apply Forall_app. split; apply Forall_forall; intros c Hc Hcc; subst c.
    - rewrite forallb_forall in Hsp. by specialize (Hsp _ (proj1 (list_elem_of_In _ _) Hc)).
    - rewrite forallb_forall in Hdg. by specialize (Hdg _ (proj1 (list_elem_of_In _ _) Hc)). }
  rewrite Hw in Hall. apply Forall_app in Hall as [_ Hall].
  destruct w2 as [|c w2]; [done|]. apply Forall_cons_1 in Hall as [Hc _].
  by injection Heq as -> _.
Qed.

Lemma top_not_inside cap r1 r2 o prev :
  forallb is_digit cap = true -> u "LIMIT " ++ cap = r1 ++ r2 -> r2 <> [] ->
  exec (pat rule_top) prev (r2 ++ o) = None.
Proof.
  intros Hdg Hsplit Hne.
  destruct (exec (pat rule_top) prev (r2 ++ o)) as [[cap' rest']|] eqn:He; [|done].
  exfalso.
  apply exec_top_inv in He as (_ & c1 & c2 & c3 & sp & Hs & H1 & H2 & _).
  assert (Hdigit : forall c, is_digit c = true -> canon c <> 84%N).
  { intros c Hc. unfold is_digit, in_range in Hc.
    apply andb_true_iff in Hc as [Ha Hb]. apply N.leb_le in Ha, Hb.
    unfold canon, in_range. replace (97 <=? c)%N with false by (symmetry; apply N.leb_gt; lia).
    simpl. lia. }
  destruct (app_eq_inv _ _ _ _ Hsplit) as [(k & Hr & Hr2)|(k & Hr1 & Ht)].
  - subst r2.
    assert (Hk : k = [] \/ In k (tails_ne (u "LIMIT "))).
    { destruct k; [by left|right]. rewrite Hr. by apply tails_ne_elem. }
    destruct Hk as [->|Hk].
    + simpl in Hs. destruct cap as [|d cap]; [done|]. injection Hs as <- _.
      simpl in Hdg. apply andb_true_iff in Hdg as [Hd _]. by apply (Hdigit d).
    + vm_compute in Hk.
      destruct Hk as [<-|[<-|[<-|[<-|[<-|[<-|[]]]]]]]; simpl in Hs;
        injection Hs as <- Hs; try done.
      subst c2. by vm_compute in H2.
  - subst cap. rewrite forallb_app in Hdg. apply andb_true_iff in Hdg as [_ Hdg].
    destruct r2 as [|d r2]; [done|]. injection Hs as <- _.
    simpl in Hdg. apply andb_true_iff in Hdg as [Hd _]. by apply (Hdigit d).
Qed.

Lemma top_clear_from : forall prev s prev',
  word_before prev = word_before prev' ->
  has_match (pat rule_top) prev'
    (replace_from (pat rule_top) (replacement rule_top) prev s) = false.
Proof.
  intros prev s.
  apply (scan_ind (pat rule_top) (fun prev s its => forall prev',
    word_before prev = word_before prev' ->
    has_match (pat rule_top) prev' (mjoin (render (replacement rule_top) <$> its)) = false)
    eq_refl); clear prev s.
  - intros prev prev' _. change (has_match (pat rule_top) prev' [] = false).
    cbn [has_match]. apply bool_decide_eq_false_2.
    rewrite exec_nil by done. by intros [??].
  - intros prev x s He IH prev' Hw.
    change (mjoin (render (replacement rule_top) <$> Copy x :: scan (pat rule_top) (Some x) s 0))
      with (x :: replace_from (pat rule_top) (replacement rule_top) (Some x) s).
    cbn [has_match].
    fold (replace_from (pat rule_top) (replacement rule_top) (Some x) s) in IH.
    rewrite (IH (Some x) eq_refl), orb_false_r.
    apply bool_decide_eq_false_2. intros [[cap rest] Hm].
    pose proof Hm as Hm'.
    apply exec_top_inv in Hm' as (Hb & c1 & c2 & c3 & sp & Hs & H1 & H2 & H3
                                  & Hsp & Hspall & Hdg & Hdgall & Hrest).
    rewrite <- (replace_from_copy _ _ prev) in Hs by done.
    replace (c1 :: c2 :: c3 :: sp ++ cap ++ rest)
      with ((c1 :: c2 :: c3 :: sp ++ cap) ++ rest) in Hs by (simpl; by rewrite <- app_assoc).
    destruct (prefix_reflect (pat rule_top) (replacement rule_top) (u "LIMIT ")
                is_digit eq_refl top_out _
                (top_match_safe c1 c2 c3 sp cap H1 H2 H3 Hspall Hdgall) _ _ _ Hs)
      as (s2 & Hxs & Hro).
    rewrite Hro in Hrest. apply top_head_word in Hrest.
    rewrite Hxs in He.
    replace ((c1 :: c2 :: c3 :: sp ++ cap) ++ s2)
      with (c1 :: c2 :: c3 :: sp ++ cap ++ s2) in He by (simpl; by rewrite <- app_assoc).
    rewrite (exec_top_some prev c1 c2 c3 sp cap s2) in He; try done.
    by rewrite Hw.
  - intros prev m cap rest Hm He IH prev' Hw.
    change (mjoin (render (replacement rule_top) <$>
                     Hit m cap :: scan (pat rule_top) (lastp prev m) rest 0))
      with (expand (replacement rule_top) cap
              ++ replace_from (pat rule_top) (replacement rule_top) (lastp prev m) rest).
    destruct (has_match (pat rule_top) prev' _) eqn:H; [exfalso|done].
    pose proof (top_word _ _ _ _ Hm He) as Hlast.
    pose proof He as He'.
    apply exec_top_inv in He' as (_ & _ & _ & _ & _ & _ & _ & _ & _ & _ & _ & Hdg & Hdgall & _).
    replace (expand (replacement rule_top) cap) with (u "LIMIT " ++ cap) in *
      by (unfold expand; simpl; by rewrite app_nil_r).
    apply has_match_app in H as [(r1 & r2 & Hr & Hne & Hs)|H].
    + rewrite (top_not_inside cap r1 r2 _ _ Hdgall Hr Hne) in Hs. by destruct Hs.
    + fold (replace_from (pat rule_top) (replacement rule_top) (lastp prev m) rest) in IH.
      rewrite IH in H; [done|]. rewrite Hlast. done.
Qed.

Lemma top_clear s :
  has_match (pat rule_top) None (apply_rule rule_top s) = false.
Proof. by apply top_clear_from. Qed.

(** ** One pass settles the function rules and the [TOP] rule *)

Ltac side := first [done | intros _; vm_compute; reflexivity | vm_compute; reflexivity].

(** [bk lk rk]: the rule applied; [bj lj]: the literal looked for. *)
Ltac keep bk lk rk bj lj :=
  apply (literal_preserve bk (u lk) (u rk) ltac:(side) ltac:(side) ltac:(side)
           ltac:(side) bj (u lj) _ ltac:(side) ltac:(side)).

Ltac keep_top bj lj :=
  apply (top_preserve bj (u lj) _ ltac:(side) ltac:(side)).

Ltac clear_own bk lk rk :=
  apply (literal_clear bk (u lk) (u rk) ltac:(side) ltac:(side) ltac:(side)
           ltac:(side) _ ltac:(side)).

Lemma function_rules_settled (s : text) (r : rule) :
  r ∈ function_rules ->
  has_match (pat r) None (apply_rules function_rules s) = false.
Proof.
  intros Hr. unfold apply_rules, function_rules. cbn [foldl].
  set (v3 := apply_rule rule_getdate s).
  set (v4 := apply_rule rule_getutcdate v3).
  set (v5 := apply_rule rule_newid v4).
  set (v6 := apply_rule rule_len v5).
  set (v7 := apply_rule rule_isnull v6).
  assert (H33 : has_match (pat rule_getdate) None v3 = false)
    by clear_own false "GETDATE()" "NOW()".
  assert (H34 : has_match (pat rule_getdate) None v4 = false)
    by (keep false "GETUTCDATE()" "UTC_TIMESTAMP()" false "GETDATE()"; exact H33).
  assert (H44 : has_match (pat rule_getutcdate) None v4 = false)
    by clear_own false "GETUTCDATE()" "UTC_TIMESTAMP()".
  assert (H35 : has_match (pat rule_getdate) None v5 = false)
    by (keep false "NEWID()" "UUID()" false "GETDATE()"; exact H34).
  assert (H45 : has_match (pat rule_getutcdate) None v5 = false)
    by (keep false "NEWID()" "UUID()" false "GETUTCDATE()"; exact H44).
  assert (H55 : has_match (pat rule_newid) None v5 = false)
    by clear_own false "NEWID()" "UUID()".
  assert (H36 : has_match (pat rule_getdate) None v6 = false)
    by (keep true "LEN(" "LENGTH(" false "GETDATE()"; exact H35).
  assert (H46 : has_match (pat rule_getutcdate) None v6 = false)
    by (keep true "LEN(" "LENGTH(" false "GETUTCDATE()"; exact H45).
  assert (H56 : has_match (pat rule_newid) None v6 = false)
    by (keep true "LEN(" "LENGTH(" false "NEWID()"; exact H55).
  assert (H66 : has_match (pat rule_len) None v6 = false)
    by clear_own true "LEN(" "LENGTH(".
  assert (H37 : has_match (pat rule_getdate) None v7 = false)
    by (keep true "ISNULL(" "IFNULL(" false "GETDATE()"; exact H36).
  assert (H47 : has_match (pat rule_getutcdate) None v7 = false)
    by (keep true "ISNULL(" "IFNULL(" false "GETUTCDATE()"; exact H46).
  assert (H57 : has_match (pat rule_newid) None v7 = false)
    by (keep true "ISNULL(" "IFNULL(" false "NEWID()"; exact H56).
  assert (H67 : has_match (pat rule_len) None v7 = false)
    by (keep true "ISNULL(" "IFNULL(" true "LEN("; exact H66).
  assert (H77 : has_match (pat rule_isnull) None v7 = false)
    by clear_own true "ISNULL(" "IFNULL(".
  repeat (apply elem_of_cons in Hr as [->|Hr]); [..|by apply elem_of_nil in Hr].
  - by keep_top false "GETDATE()".
  - by keep_top false "GETUTCDATE()".
  - by keep_top false "NEWID()".
  - by keep_top true "LEN(".
  - by keep_top true "ISNULL(".
  - apply top_clear.
Qed.

(** ** The two bracket rules *)

Lemma exec_chr_app_some (a : text) p : forall prev s,
  exec ((Chr <$> a) ++ p) prev (a ++ s) = exec p (lastp prev a) s.
Proof.
  induction a as [|c a IH]; intros prev s; [done|].
  simpl. rewrite N.eqb_refl. apply IH.
Qed.

Lemma exec_chr_app_inv (a : text) p : forall prev s r,
  exec ((Chr <$> a) ++ p) prev s = Some r ->
  exists s', s = a ++ s' /\ exec p (lastp prev a) s' = Some r.
Proof.
  induction a as [|c a IH]; intros prev s r; simpl.
  - intros H. by exists s.
  - destruct s as [|x s]; [done|]. destruct (x =? c)%N eqn:Hx; [|done].
    apply N.eqb_eq in Hx as ->. intros H.
    destruct (IH _ _ _ H) as (s' & -> & He). by exists s'.
Qed.

Lemma exec_wrap_inv a cls c prev s cap rest :
  exec (wrap_pat a cls c) prev s = Some (cap, rest) ->
  s = a ++ cap ++ c :: rest /\ cap <> [] /\ forallb cls cap = true.
Proof.
  intros H. apply exec_chr_app_inv in H as (s' & -> & H).
  rewrite exec_CapPlus in H.
  destruct (plus_greedy cls _ s') as [[run [c0 r0]]|] eqn:Hg; [|done].
  injection H as -> ->.
  apply plus_greedy_split in Hg as (s2 & -> & Hne & Hall & Hk).
  simpl in Hk. destruct s2 as [|x s2]; [done|].
  destruct (x =? c)%N eqn:Hx; [|done]. apply N.eqb_eq in Hx as ->.
  by injection Hk as _ ->.
Qed.

Lemma exec_wrap_some a cls c prev cap rest :
  cls c = false -> cap <> [] -> forallb cls cap = true ->
  exec (wrap_pat a cls c) prev (a ++ cap ++ c :: rest) = Some (cap, rest).
Proof.
  intros Hc Hne Hall. unfold wrap_pat. rewrite exec_chr_app_some, exec_CapPlus.
  rewrite (plus_greedy_max cls _ cap (c :: rest) ([], rest)); try done.
  simpl. by rewrite N.eqb_refl.
Qed.

Lemma pat_rule_dbo : pat rule_dbo = wrap_pat (u "[dbo].[") is_word 93.
Proof. reflexivity. Qed.

Lemma pat_rule_bracket : pat rule_bracket = wrap_pat [91%N] not_rbracket 93.
Proof. reflexivity. Qed.

(** Where the schema rule matches, the bracket rule matches too. *)
Lemma dbo_match_bracket prev s :
  is_Some (exec (pat rule_dbo) prev s) -> is_Some (exec (pat rule_bracket) prev s).
Proof.
  intros [[cap rest] H]. rewrite pat_rule_dbo in H.
  apply exec_wrap_inv in H as (-> & _ & _).
  rewrite pat_rule_bracket.
  change (u "[dbo].[" ++ cap ++ 93%N :: rest)
    with ([91%N] ++ u "dbo" ++ 93%N :: (u ".[" ++ cap ++ 93%N :: rest)).
  rewrite exec_wrap_some; done.
Qed.

Lemma has_match_mono p q :
  (forall prev s, is_Some (exec p prev s) -> is_Some (exec q prev s)) ->
  forall s prev, has_match p prev s = true -> has_match q prev s = true.
Proof.
  intros Hpq s prev H. apply has_match_elim in H as (a & b & -> & Hs).
  apply has_match_intro. by apply Hpq.
Qed.

Lemma no_bracket_no_dbo s :
  has_match (pat rule_bracket) None s = false -> has_match (pat rule_dbo) None s = false.
Proof.
  intros H. destruct (has_match (pat rule_dbo) None s) eqn:Hd; [|done].
  by rewrite (has_match_mono _ _ dbo_match_bracket _ _ Hd) in H.
Qed.

(** ** Second pass *)

Lemma transform_split s :
  transform s = apply_rules function_rules (apply_rule rule_bracket (apply_rule rule_dbo s)).
Proof. reflexivity. Qed.

Lemma apply_rules_no_match rs s :
  (forall r, r ∈ rs -> has_match (pat r) None s = false) -> apply_rules rs s = s.
Proof.
  unfold apply_rules. induction rs as [|r rs IH]; intros H; [done|].
  simpl. unfold apply_rule at 2. rewrite replace_no_match.
  - apply IH. intros r' Hr'. apply H. by right.
  - apply H. by left.
Qed.

Lemma transform_settled s :
  has_match (pat rule_bracket) None (transform s) = false ->
  transform (transform s) = transform s.
Proof.
  intros Hb. rewrite (transform_split (transform s)).
  unfold apply_rule at 1 2.
  rewrite (replace_no_match (pat rule_dbo)) by by apply no_bracket_no_dbo.
  rewrite (replace_no_match (pat rule_bracket)) by done.
  apply apply_rules_no_match. intros r Hr.
  rewrite transform_split. by apply function_rules_settled.
Qed.

(** ** Matching within a line

    [a] is the input up to the next line feed and [b] what follows it.  A
    match attempt on [a] alone succeeds only if it succeeds on the whole
    input, and a match of the whole input that ends before the line feed is
    the match found on [a] alone. *)

Section LineLocal.

Variable b : text.

Lemma word_at_line (a : text) : word_at (a ++ NL :: b) = word_at a.
Proof. by destruct a. Qed.

Section Greedy.

Variables (cls : N -> bool) (k : option N -> text -> option (text * text)).
Hypothesis Hsuf : forall pv s cap rest,
  k pv s = Some (cap, rest) -> length rest <= length s.
Hypothesis Hsome : forall pv a,
  NL ∉ a -> is_Some (k pv a) -> is_Some (k pv (a ++ NL :: b)).
Hypothesis Hinv : forall pv a cap rest,
  NL ∉ a -> k pv (a ++ NL :: b) = Some (cap, rest) -> length b < length rest ->
  exists ra, rest = ra ++ NL :: b /\ k pv a = Some (cap, ra).

Lemma plus_greedy_line_some a :
  NL ∉ a -> is_Some (plus_greedy cls k a) ->
  is_Some (plus_greedy cls k (a ++ NL :: b)).
Proof using Hsome.
  induction a as [|x a IH]; intros Hnl; simpl; [by intros [??]|].
  apply not_elem_of_cons in Hnl as [_ Hnl].
  destruct (cls x); [|done].
  destruct (plus_greedy cls k a) as [[run r]|] eqn:Hg.
  - intros _. destruct (IH Hnl) as [[run' r'] ->]; eauto.
  - destruct (k (Some x) a) as [r|] eqn:Hk; [|by intros [??]]. intros _.
    destruct (plus_greedy cls k (a ++ NL :: b)) as [[run' r']|]; [eauto|].
    destruct (Hsome (Some x) a Hnl) as [r' ->]; eauto.
Qed.

Lemma plus_greedy_line_inv a run cap rest :
  NL ∉ a -> plus_greedy cls k (a ++ NL :: b) = Some (run, (cap, rest)) ->
  length b < length rest ->
  exists ra, rest = ra ++ NL :: b /\ plus_greedy cls k a = Some (run, (cap, ra)).
Proof using All.
  revert run. induction a as [|x a IH]; intros run Hnl H Hlen.
  - apply plus_greedy_split in H as (s' & Hs & Hne & _ & Hk).
    apply Hsuf in Hk. destruct run as [|c run]; [done|].
    simpl in Hs. injection Hs as _ ->. rewrite length_app in Hlen. lia.
  - apply not_elem_of_cons in Hnl as [_ Hnl].
    simpl in H |- *. destruct (cls x); [|done].
    destruct (plus_greedy cls k (a ++ NL :: b)) as [[run' [cap' rest']]|] eqn:Hg.
    + injection H as <- <- <-.
      destruct (IH _ Hnl eq_refl Hlen) as (ra & -> & ->). by exists ra.
    + destruct (k (Some x) (a ++ NL :: b)) as [[cap' rest']|] eqn:Hk; [|done].
      injection H as <- <- <-.
      destruct (Hinv _ _ _ _ Hnl Hk Hlen) as (ra & -> & ->).
      exists ra. split; [done|].
      destruct (plus_greedy cls k a) as [r|] eqn:Hl; [|done].
      destruct (plus_greedy_line_some a Hnl) as [r' Hr']; [by rewrite Hl|].
      by rewrite Hg in Hr'.
Qed.

End Greedy.

Lemma exec_length p prev s cap rest :
  exec p prev s = Some (cap, rest) -> length rest <= length s.
Proof.
  intros H. destruct (exec_suffix _ _ _ _ _ H) as [m ->]. rewrite length_app. lia.
Qed.

Lemma exec_line_some p : forall prev a,
  NL ∉ a -> is_Some (exec p prev a) -> is_Some (exec p prev (a ++ NL :: b)).
Proof.
  induction p as [|at1 p IH]; intros prev a Hnl; [by eauto|].
  destruct at1 as [c|c|cls|cls|].
  - destruct a as [|x a]; simpl; [by intros [??]|].
    apply not_elem_of_cons in Hnl as [_ Hnl].
    destruct (x =? c)%N; [by apply IH|by intros [??]].
  - destruct a as [|x a]; simpl; [by intros [??]|].
    apply not_elem_of_cons in Hnl as [_ Hnl].
    destruct (canon x =? c)%N; [by apply IH|by intros [??]].
  - rewrite !exec_Plus. intros Hs.
    destruct (plus_greedy_line_some cls (exec p) IH a Hnl) as [[run r] ->]; [|eauto].
    destruct (plus_greedy cls (exec p) a); [eauto|by destruct Hs].
  - rewrite !exec_CapPlus. intros Hs.
    destruct (plus_greedy_line_some cls (exec p) IH a Hnl) as [[run [c r]] ->]; [|eauto].
    destruct (plus_greedy cls (exec p) a); [eauto|by destruct Hs].
  - simpl. rewrite word_at_line. destruct (xorb _ _); [by apply IH|done].
Qed.

Lemma exec_line_inv p : forall prev a cap rest,
  NL ∉ a -> exec p prev (a ++ NL :: b) = Some (cap, rest) -> length b < length rest ->
  exists ra, rest = ra ++ NL :: b /\ exec p prev a = Some (cap, ra).
Proof.
  induction p as [|at1 p IH]; intros prev a cap rest Hnl.
  - simpl. intros [= <- <-] _. by exists a.
  - destruct at1 as [c|c|cls|cls|].
    + destruct a as [|x a]; cbn [exec app].
      * destruct (_ =? c)%N; [|done]. intros H%exec_length Hlen. lia.
      * apply not_elem_of_cons in Hnl as [_ Hnl].
        destruct (x =? c)%N; [by apply IH|done].
    + destruct a as [|x a]; cbn [exec app].
      * destruct (_ =? c)%N; [|done]. intros H%exec_length Hlen. lia.
      * apply not_elem_of_cons in Hnl as [_ Hnl].
        destruct (canon x =? c)%N; [by apply IH|done].
    + rewrite !exec_Plus.
      destruct (plus_greedy cls (exec p) (a ++ NL :: b)) as [[run [c r]]|] eqn:Hg; [|done].
      intros [= -> ->] Hlen.
      destruct (plus_greedy_line_inv cls (exec p) (exec_length p) (exec_line_some p) IH
                  a run cap rest Hnl Hg Hlen) as (ra & -> & ->).
      by exists ra.
    + rewrite !exec_CapPlus.
      destruct (plus_greedy cls (exec p) (a ++ NL :: b)) as [[run [c r]]|] eqn:Hg; [|done].
      intros [= -> ->] Hlen.
      destruct (plus_greedy_line_inv cls (exec p) (exec_length p) (exec_line_some p) IH
                  a cap c rest Hnl Hg Hlen) as (ra & -> & ->).
      by exists ra.
    + simpl. rewrite word_at_line. destruct (xorb _ _); [by apply IH|done].
Qed.

End LineLocal.

(** ** The scan of a text made of lines *)

Lemma scan_word_before p prev prev' s :
  word_before prev = word_before prev' -> scan p prev s 0 = scan p prev' s 0.
Proof. intros Hw. destruct s as [|x s]; [done|]. simpl. by rewrite (exec_word_before p prev prev'). Qed.

Lemma split_at_line (a b m rest : text) :
  NL ∉ a -> NL ∉ m -> a ++ NL :: b = m ++ rest ->
  exists ra, a = m ++ ra /\ rest = ra ++ NL :: b.
Proof.
  intros Ha Hm Heq.
  destruct (app_eq_inv _ _ _ _ Heq) as [(k & -> & ->)|(k & -> & Hk)].
  - by exists k.
  - apply not_elem_of_app in Hm as [_ Hm]. destruct k as [|c k].
    + exists []. simpl in Hk. by rewrite !app_nil_r.
    + injection Hk as <- _. by apply not_elem_of_cons in Hm as [? _].
Qed.

Lemma scan_line p : consuming p = true -> forall n a b prev,
  length a <= n -> NL ∉ a ->
  existsb spans_line (scan p prev (a ++ NL :: b) 0) = false ->
  scan p prev (a ++ NL :: b) 0 = scan p prev a 0 ++ Copy NL :: scan p None b 0.
Proof.
  intros Hc. induction n as [n IH] using lt_wf_ind. intros a b prev Hn Hnl Hx.
  destruct (exec_cases p prev (a ++ NL :: b) Hc) as [He|(m & cap & rest & Hm & Hs & He)].
  - destruct a as [|x a].
    + simpl app in *. rewrite scan_copy by done. simpl. f_equal.
      by apply scan_word_before.
    + apply not_elem_of_cons in Hnl as [Hxnl Hnl].
      change ((x :: a) ++ NL :: b) with (x :: a ++ NL :: b) in *.
      rewrite scan_copy in Hx |- * by done.
      assert (Hea : exec p prev (x :: a) = None).
      { destruct (exec p prev (x :: a)) eqn:Hea; [|done].
        destruct (exec_line_some b p prev (x :: a)) as [r Hr].
        - by apply not_elem_of_cons.
        - by rewrite Hea.
        - change ((x :: a) ++ NL :: b) with (x :: a ++ NL :: b) in Hr. by rewrite He in Hr. }
      rewrite (scan_copy _ _ _ _ Hea). cbn [existsb spans_line orb] in Hx.
      cbn [app]. f_equal.
      apply (IH (length a)); [simpl in Hn; lia|lia|done|exact Hx].
  - rewrite Hs in Hx, He |- *. rewrite (scan_hit _ _ _ cap) in Hx |- * by done.
    simpl in Hx. apply orb_false_iff in Hx as [Hmnl Hx].
    apply bool_decide_eq_false in Hmnl.
    destruct (split_at_line _ _ _ _ Hnl Hmnl Hs) as (ra & -> & ->).
    apply not_elem_of_app in Hnl as [_ Hnl].
    destruct (exec_line_inv b p prev (m ++ ra) cap (ra ++ NL :: b)) as (ra' & Hra & Hea).
    + by apply not_elem_of_app.
    + by rewrite <- app_assoc.
    + rewrite length_app. simpl. lia.
    + apply app_inv_tail in Hra as <-.
      rewrite (scan_hit _ _ _ cap _ Hm Hea). simpl. f_equal.
      apply (IH (length ra)); [|lia|done|done].
      rewrite length_app in Hn. destruct m; [done|]. simpl in Hn. lia.
Qed.

Lemma join_nl_cons l l' ls : join_nl (l :: l' :: ls) = l ++ NL :: join_nl (l' :: ls).
Proof. done. Qed.

Lemma replace_line p t (a b : text) :
  consuming p = true -> NL ∉ a -> crosses_line p (a ++ NL :: b) = false ->
  replace p t (a ++ NL :: b) = replace p t a ++ NL :: replace p t b
  /\ crosses_line p b = false.
Proof.
  unfold crosses_line, replace. intros Hc Hnl Hx.
  rewrite (scan_line p Hc (length a)) in Hx |- * by done.
  rewrite existsb_app in Hx. apply orb_false_iff in Hx as [_ Hx].
  split; [|exact Hx]. by rewrite fmap_app, join_app.
Qed.

Lemma replace_join p t : consuming p = true -> forall ls,
  Forall (fun l => NL ∉ l) ls ->
  crosses_line p (join_nl ls) = false ->
  replace p t (join_nl ls) = join_nl (replace p t <$> ls).
Proof.
  intros Hc. induction ls as [|l ls IH]; intros Hnl Hx; [done|].
  destruct ls as [|l' ls]; [done|].
  apply Forall_cons_1 in Hnl as [Hl Hnl].
  rewrite join_nl_cons in Hx |- *.
  destruct (replace_line p t _ _ Hc Hl Hx) as [-> Hx'].
  rewrite IH by done. done.
Qed.

(** ** Units of the output *)

Lemma plus_greedy_sub {A} cls (k : option N -> text -> option A) s run r c :
  plus_greedy cls k s = Some (run, r) -> c ∈ run -> c ∈ s.
Proof.
  intros H Hc. apply plus_greedy_split in H as (rest & -> & _). apply elem_of_app. by left.
Qed.

Lemma exec_cap_sub p : forall prev s cap rest c,
  exec p prev s = Some (cap, rest) -> c ∈ cap -> c ∈ s.
Proof.
  induction p as [|at1 p IH]; intros prev s cap rest c.
  - simpl. intros [= <- <-] Hc. by apply elem_of_nil in Hc.
  - destruct at1 as [c0|c0|cls|cls|]; simpl.
    + destruct s as [|x s]; [done|]. destruct (x =? c0)%N; [|done].
      intros H Hc. right. by apply (IH _ _ _ _ _ H).
    + destruct s as [|x s]; [done|]. destruct (canon x =? c0)%N; [|done].
      intros H Hc. right. by apply (IH _ _ _ _ _ H).
    + destruct (plus_greedy cls (exec p) s) as [[run [c1 r1]]|] eqn:Hg; [|done].
      intros [= -> ->] Hc.
      apply plus_greedy_split in Hg as (s' & -> & _ & _ & Hk).
      apply elem_of_app. right. by apply (IH _ _ _ _ _ Hk).
    + destruct (plus_greedy cls (exec p) s) as [[run [c1 r1]]|] eqn:Hg; [|done].
      intros [= -> ->] Hc. by apply (plus_greedy_sub _ _ _ _ _ _ Hg).
    + destruct (xorb _ _); [|done]. apply IH.
Qed.

Lemma expand_elem t cap c :
  c ∈ expand t cap -> c ∈ cap \/ exists txt, Txt txt ∈ t /\ c ∈ txt.
Proof.
  unfold expand. induction t as [|pc t IH]; simpl.
  - intros H. by apply elem_of_nil in H.
  - intros [H|H]%elem_of_app.
    + destruct pc as [txt|]; [right|by left]. exists txt. split; [by left|done].
    + destruct (IH H) as [?|(txt & ? & ?)]; [by left|right].
      exists txt. split; [by right|done].
Qed.

Lemma replace_from_elem p t c : consuming p = true -> forall prev s,
  c ∈ replace_from p t prev s -> c ∈ s \/ exists txt, Txt txt ∈ t /\ c ∈ txt.
Proof.
  intros Hc. unfold replace_from.
  apply (scan_ind p (fun prev s its =>
    c ∈ mjoin (render t <$> its) -> c ∈ s \/ exists txt, Txt txt ∈ t /\ c ∈ txt) Hc).
  - intros _ H. by apply elem_of_nil in H.
  - intros prev x s He IH H. simpl in H. apply elem_of_cons in H as [->|H].
    + left. by left.
    + destruct (IH H) as [?|?]; [left; by right|by right].
  - intros prev m cap rest Hm He IH H. simpl in H. apply elem_of_app in H as [H|H].
    + apply expand_elem in H as [H|H]; [left|by right].
      by apply (exec_cap_sub _ _ _ _ _ _ He).
    + destruct (IH H) as [?|?]; [left|by right]. apply elem_of_app. by right.
Qed.

Lemma replace_one_line p t (l : text) :
  consuming p = true -> one_line t = true -> NL ∉ l -> NL ∉ replace p t l.
Proof.
  intros Hc Ht Hl H. apply (replace_from_elem p t NL Hc None l) in H as [H|(txt & Hin & H)].
  - done.
  - unfold one_line in Ht. rewrite forallb_forall in Ht.
    specialize (Ht _ (proj1 (list_elem_of_In _ _) Hin)). simpl in Ht.
    by rewrite bool_decide_eq_true_2 in Ht.
Qed.

(** ** A whole pass over a text made of lines *)

Lemma apply_rules_cons r rs s :
  apply_rules (r :: rs) s = apply_rules rs (apply_rule r s).
Proof. done. Qed.

Lemma pass_join rs :
  Forall (fun r => consuming (pat r) = true /\ one_line (replacement r) = true) rs ->
  forall ls, Forall (fun l => NL ∉ l) ls ->
  pass_crosses rs (join_nl ls) = false ->
  apply_rules rs (join_nl ls) = join_nl (apply_rules rs <$> ls).
Proof.
  induction rs as [|r rs IH]; intros Hrs ls Hls Hx.
  - unfold apply_rules. simpl. by rewrite list_fmap_id.
  - apply Forall_cons_1 in Hrs as [[Hc Ht] Hrs].
    simpl in Hx. apply orb_false_iff in Hx as [Hx1 Hx2].
    assert (Hj : apply_rule r (join_nl ls) = join_nl (apply_rule r <$> ls))
      by (by apply replace_join).
    rewrite apply_rules_cons. rewrite Hj in Hx2 |- *.
    rewrite IH; [|done| |done].
    + by rewrite <- list_fmap_compose.
    + apply Forall_fmap. eapply Forall_impl; [exact Hls|].
      intros l Hl. by apply replace_one_line.
Qed.

(** ** Lines of a text *)

Lemma split_nl_go_nonempty s : forall cur, split_nl_go cur s <> [].
Proof.
  induction s as [|x s IH]; intros cur; simpl; [done|].
  destruct (x =? NL)%N; [done|apply IH].
Qed.

Lemma split_nl_go_join s : forall cur, join_nl (split_nl_go cur s) = cur ++ s.
Proof.
  induction s as [|x s IH]; intros cur; simpl; [by rewrite app_nil_r|].
  destruct (x =? NL)%N eqn:Hx.
  - apply N.eqb_eq in Hx as ->.
    pose proof (split_nl_go_nonempty s []) as Hne. specialize (IH []).
    destruct (split_nl_go [] s) as [|l ls]; [done|].
    rewrite join_nl_cons, IH. done.
  - rewrite IH, <- app_assoc. done.
Qed.

Lemma split_nl_join s : join_nl (split_nl s) = s.
Proof. apply split_nl_go_join. Qed.

Lemma split_nl_go_free s : forall cur,
  NL ∉ cur -> Forall (fun l => NL ∉ l) (split_nl_go cur s).
Proof.
  induction s as [|x s IH]; intros cur Hcur; simpl.
  - by apply Forall_singleton.
  - destruct (x =? NL)%N eqn:Hx.
    + apply Forall_cons_2; [done|]. apply IH. apply not_elem_of_nil.
    + apply IH. apply N.eqb_neq in Hx. apply not_elem_of_app. split; [done|].
      apply not_elem_of_cons. split; [done|apply not_elem_of_nil].
Qed.

Lemma split_nl_free s : Forall (fun l => NL ∉ l) (split_nl s).
Proof. apply split_nl_go_free, not_elem_of_nil. Qed.

Lemma drop_empty_last_cons l ls :
  ls <> [] -> drop_empty_last (l :: ls) = l :: drop_empty_last ls.
Proof. by destruct ls. Qed.

(** Without carriage returns the reader's lines are the segments between
    line feeds, less an empty last one. *)
Lemma readline_go_split s : forall cur,
  CR ∉ s -> readline_go cur s = drop_empty_last (split_nl_go cur s).
Proof.
  induction s as [|x s IH]; intros cur Hcr; simpl; [by destruct cur|].
  apply not_elem_of_cons in Hcr as [Hx Hcr].
  destruct (x =? NL)%N.
  - rewrite drop_empty_last_cons by apply split_nl_go_nonempty. by rewrite IH.
  - replace (x =? CR)%N with false by (symmetry; apply N.eqb_neq; congruence).
    by apply IH.
Qed.

Lemma readline_split s : CR ∉ s -> readline_lines s = drop_empty_last (split_nl s).
Proof. apply readline_go_split. Qed.

Lemma last_cons_nonempty {A} (x : A) (l : list A) : l <> [] -> last (x :: l) = last l.
Proof. by destruct l. Qed.

Lemma split_nl_go_last s : forall cur,
  match last (split_nl_go cur s) with
  | Some [] => match last s with
               | Some c => c = NL
               | None => cur = []
               end
  | _ => match last s with
         | Some c => c <> NL
         | None => cur <> []
         end
  end.
Proof.
  induction s as [|x s IH]; intros cur.
  - simpl. by destruct cur.
  - simpl split_nl_go. destruct (x =? NL)%N eqn:Hx.
    + apply N.eqb_eq in Hx as ->.
      rewrite last_cons_nonempty by apply split_nl_go_nonempty.
      specialize (IH []). destruct s as [|y s]; [done|].
      rewrite (last_cons_nonempty NL) by done.
      destruct (last (y :: s)) eqn:El; [exact IH|]. by apply last_None in El.
    + apply N.eqb_neq in Hx. specialize (IH (cur ++ [x])).
      destruct s as [|y s].
      * simpl in *. by destruct (cur ++ [x]) eqn:E; [destruct cur|].
      * rewrite (last_cons_nonempty x) by done.
        destruct (last (y :: s)) eqn:El; [exact IH|]. by apply last_None in El.
Qed.

Lemma split_nl_open s :
  open_ended s = match last (split_nl s) with Some [] => false | _ => true end.
Proof.
  unfold open_ended, split_nl. pose proof (split_nl_go_last s []) as H.
  destruct (last (split_nl_go [] s)) as [[|c l]|]; destruct (last s) as [c'|];
    try done; subst; try done; by apply negb_true_iff, N.eqb_neq.
Qed.

Lemma join_nl_cons_nonempty l ls : ls <> [] -> join_nl (l :: ls) = l ++ NL :: join_nl ls.
Proof. by destruct ls. Qed.

Lemma streamed_lines (f : text -> text) (ls : list text) :
  ls <> [] -> f [] = [] ->
  mjoin ((fun l => f l ++ [NL]) <$> drop_empty_last ls)
  = join_nl (f <$> ls)
    ++ (if match last ls with Some [] => false | _ => true end then [NL] else []).
Proof.
  intros Hne Hf. induction ls as [|l ls IH]; [done|].
  destruct (decide (ls = [])) as [->|Hls].
  - destruct l; simpl; [by rewrite Hf|by rewrite app_nil_r].
  - rewrite drop_empty_last_cons by done. rewrite (last_cons_nonempty l) by done.
    rewrite !fmap_cons. rewrite join_nl_cons_nonempty by (by destruct ls).
    change (mjoin ((f l ++ [NL]) :: ((fun l => f l ++ [NL]) <$> drop_empty_last ls)))
      with ((f l ++ [NL]) ++ mjoin ((fun l => f l ++ [NL]) <$> drop_empty_last ls)).
    rewrite IH by done. by rewrite <- !app_assoc.
Qed.

(** ** The ['line'] handler *)

Lemma convert_line_fold rs : forall l h,
  (foldl (fun '(convertedLine, hasConversions) conv =>
            (apply_rule conv convertedLine,
             if bool_decide (convertedLine = apply_rule conv convertedLine)
             then hasConversions else true))
         (l, h) rs).1 = apply_rules rs l.
Proof. induction rs as [|r rs IH]; intros l h; [done|]. simpl. apply IH. Qed.

Lemma convert_line_text l : (convert_line l).1 = transform l.
Proof. apply convert_line_fold. Qed.

Lemma transform_nil : transform [] = [].
Proof. reflexivity. Qed.

Lemma conversions_line_rules :
  Forall (fun r => consuming (pat r) = true /\ one_line (replacement r) = true) conversions.
Proof. repeat constructor. Qed.

(** ** Streaming against buffered conversion *)

Lemma streaming_body_lines s :
  streaming_body s = mjoin ((fun l => transform l ++ [NL]) <$> readline_lines s).
Proof.
  unfold streaming_body.
  rewrite (list_fmap_ext _ (fun l => transform l ++ [NL])); [done|].
  intros i l _. by rewrite convert_line_text.
Qed.

Lemma streaming_buffered s :
  CR ∉ s -> pass_crosses conversions s = false ->
  streaming_body s = transform s ++ (if open_ended s then [NL] else []).
Proof.
  intros Hcr Hx. rewrite streaming_body_lines, readline_split by done.
  rewrite streamed_lines; [|apply split_nl_go_nonempty|apply transform_nil].
  rewrite <- split_nl_open. f_equal.
  rewrite <- (split_nl_join s) in Hx.
  rewrite <- (split_nl_join s) at 2. symmetry.
  apply (pass_join conversions conversions_line_rules _ (split_nl_free s) Hx).
Qed.

(** ** Patterns that stay within a line *)

Lemma exec_units p : forall prev m rest cap x,
  exec p prev (m ++ rest) = Some (cap, rest) -> x ∈ m ->
  exists a, a ∈ p /\ accepts a x = true.
Proof.
  induction p as [|a p IH]; intros prev m rest cap x He Hx.
  - simpl in He. injection He as _ He.
    apply (f_equal length) in He. rewrite length_app in He.
    destruct m; [by apply elem_of_nil in Hx|simpl in He; lia].
  - assert (Hstep : forall y m', m = y :: m' -> accepts a y = true ->
              exec p (Some y) (m' ++ rest) = Some (cap, rest) ->
              exists a', a' ∈ a :: p /\ accepts a' x = true).
    { intros y m' -> Hy He'. apply elem_of_cons in Hx as [->|Hx].
      - exists a. split; [by left|done].
      - destruct (IH _ _ _ _ _ He' Hx) as (a' & Ha' & Hacc). exists a'. split; [by right|done]. }
    destruct a as [c|c|cls|cls|].
    + destruct m as [|y m'].
      { simpl in He. destruct rest as [|y rest]; [done|]. destruct (y =? c)%N; [|done].
        apply exec_length in He. simpl in He. lia. }
      simpl in He. destruct (y =? c)%N eqn:E; [|done]. by apply (Hstep y m').
    + destruct m as [|y m'].
      { simpl in He. destruct rest as [|y rest]; [done|]. destruct (canon y =? c)%N; [|done].
        apply exec_length in He. simpl in He. lia. }
      simpl in He. destruct (canon y =? c)%N eqn:E; [|done]. by apply (Hstep y m').
    + rewrite exec_Plus in He.
      destruct (plus_greedy cls (exec p) (m ++ rest)) as [[run [c r]]|] eqn:Hg; [|done].
      injection He as -> ->.
      apply plus_greedy_split in Hg as (s' & Hs & Hne & Hall & Hk).
      destruct (exec_suffix _ _ _ _ _ Hk) as [m2 ->].
      assert (m = run ++ m2) as ->.
      { apply (app_inv_tail rest). by rewrite Hs, <- app_assoc. }
      apply elem_of_app in Hx as [Hx|Hx].
      * exists (Plus cls). split; [by left|]. simpl.
        rewrite forallb_forall in Hall. apply Hall. by apply list_elem_of_In.
      * destruct (IH _ _ _ _ _ Hk Hx) as (a' & Ha' & Hacc). exists a'. split; [by right|done].
    + rewrite exec_CapPlus in He.
      destruct (plus_greedy cls (exec p) (m ++ rest)) as [[run [c r]]|] eqn:Hg; [|done].
      injection He as -> ->.
      apply plus_greedy_split in Hg as (s' & Hs & Hne & Hall & Hk).
      destruct (exec_suffix _ _ _ _ _ Hk) as [m2 ->].
      assert (m = cap ++ m2) as ->.
      { apply (app_inv_tail rest). by rewrite Hs, <- app_assoc. }
      apply elem_of_app in Hx as [Hx|Hx].
      * exists (CapPlus cls). split; [by left|]. simpl.
        rewrite forallb_forall in Hall. apply Hall. by apply list_elem_of_In.
      * destruct (IH _ _ _ _ _ Hk Hx) as (a' & Ha' & Hacc). exists a'. split; [by right|done].
    + simpl in He. destruct (xorb _ _); [|done].
      destruct (IH _ _ _ _ _ He Hx) as (a' & Ha' & Hacc). exists a'. split; [by right|done].
Qed.

Lemma within_line_never_crosses p s :
  consuming p = true -> within_line p = true -> crosses_line p s = false.
Proof.
  intros Hc Hw. unfold crosses_line.
  apply (scan_ind p (fun _ _ its => existsb spans_line its = false) Hc).
  - done.
  - intros prev x s' He IH. exact IH.
  - intros prev m cap rest Hm He IH. simpl. rewrite IH, orb_false_r.
    apply bool_decide_eq_false_2. intros Hin.
    destruct (exec_units _ _ _ _ _ _ He Hin) as (a & Ha & Hacc).
    unfold within_line in Hw. rewrite forallb_forall in Hw.
    specialize (Hw a (proj1 (list_elem_of_In _ _) Ha)). by rewrite Hacc in Hw.
Qed.

(** Of the eight rules only the bracket rule and the [TOP] rule can match
    over a line feed. *)
Lemma pass_crosses_conversions s :
  pass_crosses conversions s
  = crosses_line (pat rule_bracket) (apply_rule rule_dbo s)
    || crosses_line (pat rule_top) (apply_rules early_rules s).
Proof.
  unfold conversions. cbn [pass_crosses].
  repeat match goal with
  | |- context [crosses_line (pat ?r) ?x] =>
      lazymatch r with
      | rule_bracket => fail
      | rule_top => fail
      | _ => rewrite (within_line_never_crosses (pat r) x eq_refl eq_refl)
      end
  end.
  cbn [orb]. by rewrite !orb_false_r.
Qed.

(** ** A rule that matches changes the text *)

Lemma render_hit t m cap its :
  mjoin (render t <$> Hit m cap :: its) = expand t cap ++ mjoin (render t <$> its).
Proof. done. Qed.

Lemma render_copy t x its :
  mjoin (render t <$> Copy x :: its) = x :: mjoin (render t <$> its).
Proof. done. Qed.

Lemma replace_differs p t :
  consuming p = true ->
  (forall prev m cap rest, m <> [] -> exec p prev (m ++ rest) = Some (cap, rest) ->
     comparable (expand t cap) m = false) ->
  forall prev s, has_match p prev s = true -> replace_from p t prev s <> s.
Proof.
  intros Hc Hd. unfold replace_from.
  apply (scan_ind p (fun prev s its =>
    has_match p prev s = true -> mjoin (render t <$> its) <> s) Hc).
  - intros prev. simpl. rewrite exec_nil by done.
    by rewrite bool_decide_eq_false_2 by (by intros [??]).
  - intros prev x s He IH. simpl has_match. rewrite He.
    rewrite bool_decide_eq_false_2 by (by intros [??]). rewrite render_copy.
    intros H Heq. injection Heq as Heq. by apply IH.
  - intros prev m cap rest Hm He _ _ Heq. rewrite render_hit in Heq.
    apply comparable_app in Heq. by rewrite (Hd _ _ _ _ Hm He) in Heq.
Qed.

Lemma replace_shorter p t :
  consuming p = true ->
  (forall prev m cap rest, m <> [] -> exec p prev (m ++ rest) = Some (cap, rest) ->
     length (expand t cap) < length m) ->
  forall prev s,
    length (replace_from p t prev s) <= length s
    /\ (has_match p prev s = true -> length (replace_from p t prev s) < length s).
Proof.
  intros Hc Hd. unfold replace_from.
  apply (scan_ind p (fun prev s its =>
    length (mjoin (render t <$> its)) <= length s
    /\ (has_match p prev s = true -> length (mjoin (render t <$> its)) < length s)) Hc).
  - intros prev. simpl. rewrite exec_nil by done.
    by rewrite bool_decide_eq_false_2 by (by intros [??]).
  - intros prev x s He [IH1 IH2]. simpl has_match. rewrite He.
    rewrite bool_decide_eq_false_2 by (by intros [??]). rewrite render_copy.
    cbn [length orb]. split; [lia|]. intros H. specialize (IH2 H). lia.
  - intros prev m cap rest Hm He [IH1 _]. rewrite render_hit.
    rewrite !length_app. specialize (Hd _ _ _ _ Hm He). split; [lia|]. intros _. lia.
Qed.

Lemma comparable_heads (c d : N) (x y : text) : c <> d -> comparable (c :: x) (d :: y) = false.
Proof.
  intros Hcd. unfold comparable. apply orb_false_iff.
  split; apply bool_decide_eq_false; intros [k Hk]; injection Hk as ? _; congruence.
Qed.

Lemma expand_grp cap : expand [Grp] cap = cap.
Proof. unfold expand. simpl. apply app_nil_r. Qed.

Lemma rule_changes r s :
  r ∈ conversions -> has_match (pat r) None s = true -> apply_rule r s <> s.
Proof.
  intros Hr. unfold conversions in Hr.
  repeat (apply elem_of_cons in Hr as [->|Hr]); [..|by apply elem_of_nil in Hr].
  - (* [dbo].[name] *)
    apply (replace_differs (pat rule_dbo) (replacement rule_dbo) eq_refl). intros prev m cap rest Hm He.
    change (replacement rule_dbo) with [Grp]. rewrite expand_grp.
    rewrite pat_rule_dbo in He. apply exec_wrap_inv in He as (Hs & Hne & Hall).
    assert (Hm' : m = u "[dbo].[" ++ cap ++ [93%N]).
    { apply (app_inv_tail rest). rewrite Hs, <- !app_assoc. done. }
    subst m. destruct cap as [|c cap]; [done|].
    apply comparable_heads. intros ->. simpl in Hall. done.
  - (* [name] *)
    intros Hm Heq.
    destruct (replace_shorter (pat rule_bracket) (replacement rule_bracket) eq_refl)
      with (prev := @None N) (s := s) as [_ Hlt].
    + intros prev m cap rest Hm' He.
      change (replacement rule_bracket) with [Grp]. rewrite expand_grp.
      rewrite pat_rule_bracket in He. apply exec_wrap_inv in He as (Hs & _ & _).
      apply (f_equal length) in Hs. repeat (rewrite ?length_app in Hs; simpl in Hs). lia.
    + specialize (Hlt Hm). unfold apply_rule, replace, replace_from in *.
      rewrite Heq in Hlt. lia.
  - apply (replace_differs (pat rule_getdate) (replacement rule_getdate) eq_refl). intros prev m cap rest Hm He.
    apply (exec_lit_pat_inv false) in He as (-> & He & _).
    apply app_inv_tail in He as ->. by vm_compute.
  - apply (replace_differs (pat rule_getutcdate) (replacement rule_getutcdate) eq_refl). intros prev m cap rest Hm He.
    apply (exec_lit_pat_inv false) in He as (-> & He & _).
    apply app_inv_tail in He as ->. by vm_compute.
  - apply (replace_differs (pat rule_newid) (replacement rule_newid) eq_refl). intros prev m cap rest Hm He.
    apply (exec_lit_pat_inv false) in He as (-> & He & _).
    apply app_inv_tail in He as ->. by vm_compute.
  - apply (replace_differs (pat rule_len) (replacement rule_len) eq_refl). intros prev m cap rest Hm He.
    apply (exec_lit_pat_inv true) in He as (-> & He & _).
    apply app_inv_tail in He as ->. by vm_compute.
  - apply (replace_differs (pat rule_isnull) (replacement rule_isnull) eq_refl). intros prev m cap rest Hm He.
    apply (exec_lit_pat_inv true) in He as (-> & He & _).
    apply app_inv_tail in He as ->. by vm_compute.
  - apply (replace_differs (pat rule_top) (replacement rule_top) eq_refl). intros prev m cap rest Hm He.
    apply exec_top_inv in He as (_ & c1 & c2 & c3 & sp & Hs & H1 & _).
    destruct m as [|c m]; [done|]. injection Hs as -> _.
    replace (expand (replacement rule_top) cap) with (76%N :: u "IMIT " ++ cap)
      by (unfold expand; simpl; by rewrite app_nil_r).
    apply comparable_heads. intros <-. by vm_compute in H1.
Qed.

(** The flag [hasConversions] says whether some rule matched. *)
Lemma convert_line_flag_fold rs : forall l h,
  (forall r, r ∈ rs -> r ∈ conversions) ->
  (foldl (fun '(convertedLine, hasConversions) conv =>
            (apply_rule conv convertedLine,
             if bool_decide (convertedLine = apply_rule conv convertedLine)
             then hasConversions else true))
         (l, h) rs).2 = h || pass_matches rs l.
Proof.
  induction rs as [|r rs IH]; intros l h Hrs; [by rewrite orb_false_r|].
  simpl. rewrite IH by (intros r' Hr'; apply Hrs; by right).
  destruct (has_match (pat r) None l) eqn:Hm.
  - rewrite bool_decide_eq_false_2; [by rewrite orb_true_r|].
    intros Heq. apply (rule_changes r l); [apply Hrs; by left|done|done].
  - unfold apply_rule at 1 2. rewrite replace_no_match by done.
    rewrite bool_decide_eq_true_2 by done. done.
Qed.

Lemma convert_line_flag l : (convert_line l).2 = pass_matches conversions l.
Proof. apply convert_line_flag_fold. auto. Qed.

(** ** The streaming run *)

Lemma settle_fields o st :
  lineCount (settle o st) = lineCount st /\ convertedCount (settle o st) = convertedCount st
  /\ written (settle o st) = written st /\ ws (settle o st) = ws st
  /\ rl_closed (settle o st) = rl_closed st.
Proof. unfold settle. by destruct (settled st). Qed.

Lemma on_line_fields l st :
  lineCount (on_line l st) = S (lineCount st)
  /\ convertedCount (on_line l st)
     = (if pass_matches conversions l then 1 else 0) + convertedCount st
  /\ written (on_line l st) = written st ++ [transform l ++ [NL]]
  /\ rl_closed (on_line l st) = rl_closed st
  /\ ws (on_line l st) = ws st
  /\ settled (on_line l st) = settled st.
Proof.
  unfold on_line. rewrite <- convert_line_flag, <- convert_line_text.
  destruct (convert_line l) as [cl h]. simpl. by destruct h.
Qed.

Lemma run_events_cons i o ev evs st :
  run_events i o (ev :: evs) st = run_events i o evs (deliver i o ev st).
Proof. done. Qed.

(** The line events of an open interface. *)
Lemma run_lines i o ls : forall st,
  rl_closed st = false ->
  lineCount (run_events i o (Line <$> ls) st) = lineCount st + length ls
  /\ convertedCount (run_events i o (Line <$> ls) st)
     = convertedCount st + count_lines (pass_matches conversions) ls
  /\ written (run_events i o (Line <$> ls) st)
     = written st ++ ((fun l => transform l ++ [NL]) <$> ls)
  /\ rl_closed (run_events i o (Line <$> ls) st) = false
  /\ ws (run_events i o (Line <$> ls) st) = ws st
  /\ settled (run_events i o (Line <$> ls) st) = settled st.
Proof.
  induction ls as [|l ls IH]; intros st Hopen.
  - simpl. rewrite app_nil_r. split_and!; auto.
  - rewrite fmap_cons, run_events_cons. cbn [deliver]. rewrite Hopen.
    destruct (on_line_fields l st) as (H1 & H2 & H3 & H4 & H5 & H6).
    destruct (IH (on_line l st)) as (I1 & I2 & I3 & I4 & I5 & I6); [congruence|].
    rewrite I1, I2, I3, I4, I5, I6, H1, H2, H3, H5, H6.
    rewrite <- app_assoc. cbn [length count_lines]. split_and!; auto; lia.
Qed.

Lemma run_events_app i o evs1 evs2 st :
  run_events i o (evs1 ++ evs2) st = run_events i o evs2 (run_events i o evs1 st).
Proof. apply foldl_app. Qed.

(** An input read to its end: every line is counted and written, then the
    promise resolves with the summary. *)
Lemma run_to_end ts i o s :
  let ls := readline_lines s in
  let st := run_events i o (events_of s) (stream_start ts) in
  lineCount st = length ls
  /\ convertedCount st = count_lines (pass_matches conversions) ls
  /\ written st = header ts :: ((fun l => transform l ++ [NL]) <$> ls)
  /\ ws st = WsEnded
  /\ settled st
     = Some (Resolve (summary i o (length ls) (count_lines (pass_matches conversions) ls))).
Proof.
  intros ls st. subst st. unfold events_of. rewrite run_events_app.
  destruct (run_lines i o ls (stream_start ts) eq_refl) as (I1 & I2 & I3 & I4 & I5 & I6).
  fold ls. set (st1 := run_events i o (Line <$> ls) (stream_start ts)) in *.
  cbn [stream_start lineCount convertedCount written ws settled] in I1, I2, I3, I5, I6.
  rewrite run_events_cons. cbn [deliver run_events foldl]. unfold rl_close. rewrite I4.
  unfold on_close, settle. cbn [settled lineCount convertedCount written ws].
  rewrite I6, I1, I2, I3. done.
Qed.

Lemma flushed_to_end ts i o s :
  flushed (run_events i o (events_of s) (stream_start ts)) = header ts ++ streaming_body s.
Proof.
  unfold flushed. destruct (run_to_end ts i o s) as (_ & _ & -> & _).
  by rewrite streaming_body_lines.
Qed.

(** Whatever events arrive, the header is the first chunk written. *)
Lemma deliver_written i o ev st :
  exists chunks, written (deliver i o ev st) = written st ++ chunks.
Proof.
  destruct ev as [l| |msg|msg]; simpl.
  - destruct (rl_closed st); [exists []; by rewrite app_nil_r|].
    destruct (on_line_fields l st) as (_ & _ & -> & _). eauto.
  - unfold rl_close. destruct (rl_closed st); [exists []; by rewrite app_nil_r|].
    unfold on_close. destruct (settle_fields
      (Resolve (summary i o (lineCount st) (convertedCount st)))
      (Stream (lineCount st) (convertedCount st) (written st)
         (console st ++ [carriage_return +:+ "Processed " +:+ pretty (lineCount st)
                           +:+ " lines total." +:+ line_feed])
         true WsEnded (settled st))) as (_ & _ & -> & _).
    exists []. by rewrite app_nil_r.
  - unfold on_rl_error. destruct (settle_fields (Reject ("Error reading file: " +:+ msg))
      (Stream (lineCount st) (convertedCount st) (written st) (console st)
         (rl_closed st) WsDestroyed (settled st))) as (_ & _ & -> & _).
    exists []. by rewrite app_nil_r.
  - unfold on_ws_error.
    destruct (settle_fields (Reject ("Error writing file: " +:+ msg)) (rl_close i o st))
      as (_ & _ & -> & _).
    unfold rl_close. destruct (rl_closed st); [exists []; by rewrite app_nil_r|].
    unfold on_close. destruct (settle_fields
      (Resolve (summary i o (lineCount st) (convertedCount st)))
      (Stream (lineCount st) (convertedCount st) (written st)
         (console st ++ [carriage_return +:+ "Processed " +:+ pretty (lineCount st)
                           +:+ " lines total." +:+ line_feed])
         true WsEnded (settled st))) as (_ & _ & -> & _).
    exists []. by rewrite app_nil_r.
Qed.

Lemma run_events_written i o evs : forall st,
  exists chunks, written (run_events i o evs st) = written st ++ chunks.
Proof.
  induction evs as [|ev evs IH]; intros st; simpl.
  - exists []. by rewrite app_nil_r.
  - destruct (IH (deliver i o ev st)) as [c2 H2].
    destruct (deliver_written i o ev st) as [c1 H1].
    exists (c1 ++ c2). unfold run_events in *. by rewrite H2, H1, app_assoc.
Qed.

(** ** The header *)

Lemma split_nl_go_line (l rest : text) : forall cur,
  NL ∉ l -> split_nl_go cur (l ++ NL :: rest) = (cur ++ l) :: split_nl_go [] rest.
Proof.
  induction l as [|x l IH]; intros cur Hl; simpl.
  - by rewrite app_nil_r.
  - apply not_elem_of_cons in Hl as [Hx Hl].
    replace (x =? NL)%N with false by (symmetry; apply N.eqb_neq; congruence).
    rewrite IH by done. by rewrite <- app_assoc.
Qed.

Ltac by_compute := apply (bool_decide_unpack _); vm_compute; exact I.

Lemma split_header ts body :
  NL ∉ ts -> split_nl (header ts ++ body) = header_lines ts ++ split_nl body.
Proof.
  intros Hts.
  replace (header ts ++ body)
    with (marker_line ++ NL :: (generated_prefix ++ ts) ++ NL
            :: caution_line ++ NL :: [] ++ NL :: body)
    by (unfold header; by rewrite <- !app_assoc).
  unfold split_nl, header_lines.
  rewrite (split_nl_go_line marker_line _ []) by by_compute.
  rewrite (split_nl_go_line (generated_prefix ++ ts) _ []).
  2:{ apply not_elem_of_app. split; [by_compute|done]. }
  rewrite (split_nl_go_line caution_line _ []) by by_compute.
  rewrite (split_nl_go_line [] body []) by apply not_elem_of_nil.
  done.
Qed.

(** ** Statistics *)

Lemma applied_fold orig rs : forall acc,
  foldl (fun applied conv =>
           match js_match (pat conv) orig with
           | Some matches => applied ++ [(source conv, length matches)]
           | None => applied
           end) acc rs
  = acc ++ omap (fun conv => (fun ms => (source conv, length ms)) <$> js_match (pat conv) orig) rs.
Proof.
  induction rs as [|r rs IH]; intros acc; simpl; [by rewrite app_nil_r|].
  rewrite IH. destruct (js_match (pat r) orig); simpl; [by rewrite <- app_assoc|done].
Qed.

Lemma js_match_length p s :
  length <$> js_match p s = if match_count p s =? 0 then None else Some (match_count p s).
Proof.
  unfold js_match, match_count. by destruct (omap matched (scan p None s 0)).
Qed.

Lemma reported_cons e l :
  reported (e :: l) = if e.2 =? 0 then reported l else e :: reported l.
Proof. unfold reported. simpl. by destruct (e.2 =? 0). Qed.

Lemma original_counts_cons r rs s :
  original_counts (r :: rs) s = (source r, match_count (pat r) s) :: original_counts rs s.
Proof. done. Qed.

Lemma applied_reported orig rs :
  omap (fun conv => (fun ms => (source conv, length ms)) <$> js_match (pat conv) orig) rs
  = reported (original_counts rs orig).
Proof.
  induction rs as [|r rs IH]; [done|].
  rewrite original_counts_cons, reported_cons. cbn [omap list_omap snd].
  pose proof (js_match_length (pat r) orig) as Hl.
  destruct (js_match (pat r) orig) as [ms|]; simpl in Hl |- *.
  - destruct (match_count (pat r) orig =? 0) eqn:E; [done|].
    injection Hl as ->. by rewrite IH.
  - destruct (match_count (pat r) orig =? 0) eqn:E; [|done]. exact IH.
Qed.

Lemma stats_applied orig conv :
  conversionsApplied (getConversionStats orig conv)
  = reported (original_counts conversions orig).
Proof.
  unfold getConversionStats. cbn [conversionsApplied].
  by rewrite applied_fold, applied_reported.
Qed.

Lemma match_count_zero p s :
  consuming p = true -> match_count p s = 0 <-> has_match p None s = false.
Proof.
  intros Hc. rewrite <- (js_match_none p s Hc).
  unfold js_match, match_count. destruct (omap matched (scan p None s 0)); simpl; split; done.
Qed.

(** ** No rule matches in blank text *)

Lemma canon_T_space x : canon x = 84%N -> is_space x = false.
Proof.
  unfold canon. destruct (in_range 97 122 x) eqn:Hr.
  - unfold in_range in Hr. apply andb_true_iff in Hr as [H1 H2].
    apply N.leb_le in H1, H2. intros H. assert (x = 116%N) as -> by lia. done.
  - by intros ->.
Qed.

Lemma first_unit r prev x s :
  r ∈ conversions -> is_Some (exec (pat r) prev (x :: s)) -> is_space x = false.
Proof.
  intros Hr. unfold conversions in Hr.
  repeat (apply elem_of_cons in Hr as [->|Hr]); [..|by apply elem_of_nil in Hr].
  1-5: (simpl; destruct (x =? _)%N eqn:E; [|by intros [??]];
        apply N.eqb_eq in E as ->; done).
  1-2: (simpl; destruct (xorb _ _); [|by intros [??]];
        destruct (x =? _)%N eqn:E; [|by intros [??]];
        apply N.eqb_eq in E as ->; done).
  intros [[cap rest] He]. apply exec_top_inv in He as (_ & c1 & c2 & c3 & sp & Hs & H1 & _).
  injection Hs as -> _. by apply canon_T_space.
Qed.

Lemma blank_no_match r s : r ∈ conversions -> blank s = true ->
  forall prev, has_match (pat r) prev s = false.
Proof.
  intros Hr. induction s as [|x s IH]; intros Hb prev.
  - simpl. apply bool_decide_eq_false_2. rewrite exec_nil; [by intros [??]|].
    unfold conversions in Hr.
    repeat (apply elem_of_cons in Hr as [->|Hr]); [done..|by apply elem_of_nil in Hr].
  - simpl in Hb. apply andb_true_iff in Hb as [Hx Hb].
    simpl. rewrite (IH Hb), orb_false_r. apply bool_decide_eq_false_2.
    intros Hs. apply (first_unit r) in Hs; [congruence|done].
Qed.

Lemma apply_rules_blank rs s :
  (forall r, r ∈ rs -> r ∈ conversions) -> blank s = true -> apply_rules rs s = s.
Proof.
  revert s. induction rs as [|r rs IH]; intros s Hrs Hb; [done|].
  rewrite apply_rules_cons. unfold apply_rule.
  rewrite replace_no_match by (apply blank_no_match; [apply Hrs; by left|done]).
  apply IH; [|done]. intros r' Hr'. apply Hrs. by right.
Qed.

Lemma transform_blank s : blank s = true -> transform s = s.
Proof. apply apply_rules_blank. auto. Qed.

(** ** One file *)

Lemma readable_in_content fs path :
  readable_in fs path = true -> exists content, readFileSync fs path = inr content.
Proof. unfold readable_in. destruct (readFileSync fs path); [done|eauto]. Qed.

Lemma readable_in_stat fs path :
  readable_in fs path = true -> exists size, statSync fs path = inr size.
Proof.
  unfold readable_in, readFileSync, statSync. destruct (fs !! path); [eauto|done].
Qed.

(** A readable source with a writable destination is converted. *)
Lemma convertAndSave_readable ts fs i o :
  write_lock fs o = None -> readable_in fs i = true ->
  exists r data,
    convertAndSave ts fs i o = (Some (Resolve r), <[o := stored data]> fs)
    /\ success r = true.
Proof.
  intros Hw Hr. destruct (readable_in_content _ _ Hr) as [content Hc].
  destruct (readable_in_stat _ _ Hr) as [size Hs].
  unfold convertAndSave. rewrite Hs. destruct (large size).
  - unfold convertLargeFileStreaming, stream_events. rewrite Hw, Hc.
    destruct (run_to_end ts i o content) as (_ & _ & _ & _ & ->). eauto.
  - unfold convertFile, writeFileSync. rewrite Hc, Hw. eauto.
Qed.


(** ** The batch loop *)

Section BatchLoop.

Variables (iso : nat -> text) (fs : files) (directory outputDir : string).
Variable names : list string.

(** No destination of the batch is one of its sources. *)
Hypothesis Hapart : forall n n',
  n ∈ names -> n' ∈ names -> output_path outputDir n <> path_join directory n'.




End BatchLoop.

(** ** Text that a pattern cannot start in *)










(** ** The first seven rules on text without their first units *)




Lemma transform_early s : transform s = apply_rule rule_top (apply_rules early_rules s).
Proof. reflexivity. Qed.



(** ** Opening brackets

    The two bracket rules remove opening brackets, the other rules neither
    remove nor add any.  A pass in which a bracket rule matches therefore
    changes the text, and a text without opening brackets keeps none. *)

Lemma opens_app a b : opens (a ++ b) = opens a + opens b.
Proof. unfold opens. by rewrite List.filter_app, length_app. Qed.

Lemma opens_cons x s : opens (x :: s) = opens [x] + opens s.
Proof. apply (opens_app [x] s). Qed.

Lemma opens_one x : opens [x] = if (91 =? x)%N then 1 else 0.
Proof.
  change (opens [x]) with (length (if (91 =? x)%N then [x] else [])).
  by destruct (91 =? x)%N.
Qed.

Lemma opens_class (cls : N -> bool) (run : text) :
  cls 91%N = false -> forallb cls run = true -> opens run = 0.
Proof.
  intros Hc. induction run as [|x run IH]; [done|].
  cbn [forallb]. intros [Hx Hrun]%andb_true_iff.
  rewrite opens_cons, (IH Hrun), opens_one.
  destruct (91 =? x)%N eqn:E; [|done]. apply N.eqb_eq in E as <-. congruence.
Qed.

Lemma opens_zero s : opens s = 0 <-> 91%N ∉ s.
Proof.
  induction s as [|x s IH]; [split; [intros _; apply not_elem_of_nil|done]|].
  rewrite opens_cons, not_elem_of_cons, <- IH, opens_one.
  destruct (91 =? x)%N eqn:E.
  - apply N.eqb_eq in E. split; [lia|]. by intros [? _].
  - apply N.eqb_neq in E. split; [done|]. by intros [_ ?].
Qed.

Section Opens.

Variables (p : pattern) (t : template).
Hypothesis Hc : consuming p = true.

Lemma replace_opens_same :
  (forall prev m cap rest, m <> [] -> exec p prev (m ++ rest) = Some (cap, rest) ->
     opens (expand t cap) = opens m) ->
  forall prev s, opens (replace_from p t prev s) = opens s.
Proof using Hc.
  intros Hd. unfold replace_from.
  apply (scan_ind p (fun prev s its => opens (mjoin (render t <$> its)) = opens s) Hc).
  - done.
  - intros prev x s He IH. rewrite render_copy, opens_cons, (opens_cons x s). by rewrite IH.
  - intros prev m cap rest Hm He IH. rewrite render_hit, !opens_app.
    by rewrite IH, (Hd _ _ _ _ Hm He).
Qed.

Lemma replace_opens_less :
  (forall prev m cap rest, m <> [] -> exec p prev (m ++ rest) = Some (cap, rest) ->
     opens (expand t cap) < opens m) ->
  forall prev s,
    opens (replace_from p t prev s) <= opens s
    /\ (has_match p prev s = true -> opens (replace_from p t prev s) < opens s).
Proof using Hc.
  intros Hd. unfold replace_from.
  apply (scan_ind p (fun prev s its =>
    opens (mjoin (render t <$> its)) <= opens s
    /\ (has_match p prev s = true -> opens (mjoin (render t <$> its)) < opens s)) Hc).
  - intros prev. simpl. rewrite exec_nil by done.
    by rewrite bool_decide_eq_false_2 by (by intros [??]).
  - intros prev x s He [IH1 IH2]. simpl has_match. rewrite He.
    rewrite bool_decide_eq_false_2 by (by intros [??]).
    rewrite render_copy, opens_cons, (opens_cons x s). cbn [orb].
    split; [lia|]. intros H. specialize (IH2 H). lia.
  - intros prev m cap rest Hm He [IH1 _]. rewrite render_hit, !opens_app.
    specialize (Hd _ _ _ _ Hm He). split; [lia|]. intros _. lia.
Qed.

End Opens.

Lemma wrap_opens_less a cls c prev m cap rest :
  0 < opens a -> m <> [] ->
  exec (wrap_pat a cls c) prev (m ++ rest) = Some (cap, rest) ->
  opens (expand [Grp] cap) < opens m.
Proof.
  intros Ha Hm He. rewrite expand_grp.
  apply exec_wrap_inv in He as (Hs & _ & _).
  assert (m = a ++ cap ++ [c]) as ->.
  { apply (app_inv_tail rest). rewrite Hs, <- !app_assoc. done. }
  rewrite !opens_app. lia.
Qed.

Lemma dbo_opens s :
  opens (apply_rule rule_dbo s) <= opens s
  /\ (has_match (pat rule_dbo) None s = true -> opens (apply_rule rule_dbo s) < opens s).
Proof.
  apply (replace_opens_less (pat rule_dbo) (replacement rule_dbo) eq_refl).
  intros prev m cap rest Hm He. rewrite pat_rule_dbo in He.
  apply (wrap_opens_less (u "[dbo].[") is_word 93%N prev m cap rest
           ltac:(vm_compute; lia) Hm He).
Qed.

Lemma bracket_opens s :
  opens (apply_rule rule_bracket s) <= opens s
  /\ (has_match (pat rule_bracket) None s = true ->
      opens (apply_rule rule_bracket s) < opens s).
Proof.
  apply (replace_opens_less (pat rule_bracket) (replacement rule_bracket) eq_refl).
  intros prev m cap rest Hm He. rewrite pat_rule_bracket in He.
  apply (wrap_opens_less [91%N] not_rbracket 93%N prev m cap rest
           ltac:(vm_compute; lia) Hm He).
Qed.

Lemma literal_opens bnd (l r : text) s :
  l <> [] -> opens r = opens l ->
  opens (replace (lit_pat bnd l) [Txt r] s) = opens s.
Proof.
  intros Hl Hlr.
  apply (replace_opens_same (lit_pat bnd l) [Txt r] (consuming_lit_pat _ _ Hl)).
  intros prev m cap rest Hm He.
  apply exec_lit_pat_inv in He as (-> & He & _). apply app_inv_tail in He as ->.
  unfold expand. simpl. by rewrite app_nil_r.
Qed.

Lemma canon_not_open c a : canon c = a -> a <> 91%N -> in_range 65 90 a = true -> opens [c] = 0.
Proof.
  intros Hc Ha Hr. rewrite opens_one. destruct (91 =? c)%N eqn:E; [|done].
  apply N.eqb_eq in E as <-. vm_compute in Hc. congruence.
Qed.

Lemma top_opens s : opens (apply_rule rule_top s) = opens s.
Proof.
  apply (replace_opens_same (pat rule_top) (replacement rule_top) eq_refl).
  intros prev m cap rest Hm He.
  apply exec_top_inv in He as (_ & c1 & c2 & c3 & sp & Hs & H1 & H2 & H3 & _ & Hsp & _).
  assert (m = [c1] ++ [c2] ++ [c3] ++ sp ++ cap) as ->.
  { apply (app_inv_tail rest). rewrite Hs, <- !app_assoc. done. }
  replace (expand (replacement rule_top) cap) with (u "LIMIT " ++ cap)
    by (unfold expand; simpl; by rewrite app_nil_r).
  rewrite !opens_app.
  rewrite (canon_not_open c1 84%N), (canon_not_open c2 79%N), (canon_not_open c3 80%N)
    by done.
  by rewrite (opens_class is_space sp).
Qed.

Lemma function_rules_opens s : opens (apply_rules function_rules s) = opens s.
Proof.
  unfold function_rules. rewrite !apply_rules_cons.
  change (apply_rules [] ?x) with x.
  rewrite top_opens.
  unfold apply_rule at 1. rewrite (literal_opens true (u "ISNULL(") (u "IFNULL(")) by done.
  unfold apply_rule at 1. rewrite (literal_opens true (u "LEN(") (u "LENGTH(")) by done.
  unfold apply_rule at 1. rewrite (literal_opens false (u "NEWID()") (u "UUID()")) by done.
  unfold apply_rule at 1.
  rewrite (literal_opens false (u "GETUTCDATE()") (u "UTC_TIMESTAMP()")) by done.
  unfold apply_rule at 1. by rewrite (literal_opens false (u "GETDATE()") (u "NOW()")).
Qed.

Lemma transform_opens s :
  opens (transform s) <= opens s
  /\ (has_match (pat rule_bracket) None s = true -> opens (transform s) < opens s).
Proof.
  rewrite transform_split, function_rules_opens.
  destruct (dbo_opens s) as [Hd1 Hd2].
  destruct (bracket_opens (apply_rule rule_dbo s)) as [Hb1 Hb2].
  split; [lia|]. intros Hm.
  destruct (has_match (pat rule_dbo) None s) eqn:Hd.
  - specialize (Hd2 eq_refl). lia.
  - assert (Hid : apply_rule rule_dbo s = s) by (by apply replace_no_match).
    rewrite Hid in *. specialize (Hb2 Hm). lia.
Qed.

(** A pass over a text in which the bracket rule matches changes the text. *)
Lemma transform_changes_brackets s :
  has_match (pat rule_bracket) None s = true -> transform s <> s.
Proof.
  intros Hm Heq. destruct (transform_opens s) as [_ Hlt].
  specialize (Hlt Hm). rewrite Heq in Hlt. lia.
Qed.

(** Without an opening bracket in the input, one pass is enough. *)
Lemma transform_settled_without_brackets s :
  91%N ∉ s -> transform (transform s) = transform s.
Proof.
  intros Hs. apply transform_settled.
  destruct (has_match (pat rule_bracket) None (transform s)) eqn:Hm; [|done].
  destruct (transform_opens (transform s)) as [_ Hlt]. specialize (Hlt Hm).
  destruct (transform_opens s) as [Hle _]. apply opens_zero in Hs. lia.
Qed.

(** ** A line with a match *)

Lemma pass_matches_any rs s :
  pass_matches rs s = existsb (fun r => has_match (pat r) None s) rs.
Proof.
  revert s. induction rs as [|r rs IH]; intros s; [done|].
  simpl. destruct (has_match (pat r) None s) eqn:Hm; [done|].
  unfold apply_rule. rewrite replace_no_match by done. apply IH.
Qed.

Lemma count_lines_ext f g ls :
  (forall l, f l = g l) -> count_lines f ls = count_lines g ls.
Proof. intros H. induction ls as [|l ls IH]; [done|]. simpl. by rewrite H, IH. Qed.

(** * The statements of the specification *)

(** ** C1: a second pass *)

(** C1, counterexample: the text [[[a]]] becomes [[a]] in one pass and [a]
    in the next, so applying the rules twice is not the same as applying
    them once. *)
Lemma second_pass_changes_nested :
  transform (transform (u "[[a]]")) <> transform (u "[[a]]").
Proof. by vm_compute. Qed.

(** C1, amended: a second pass changes nothing exactly when the bracket
    rule finds no match in the output of the first pass; the six rules after
    the bracket rules never match again after one pass.  In particular one
    pass is enough for every text without an opening bracket. *)
Theorem second_pass_idle (s : text) :
  (js_match (pat rule_bracket) (transform s) = None
   <-> transform (transform s) = transform s)
  /\ (91%N ∉ s -> transform (transform s) = transform s).
Proof.
  split; [split|].
  - intros H. apply transform_settled. by apply js_match_none.
  - intros Heq. apply js_match_none; [done|].
    destruct (has_match (pat rule_bracket) None (transform s)) eqn:Hm; [|done].
    by apply transform_changes_brackets in Hm.
  - apply transform_settled_without_brackets.
Qed.

(** [second_pass_idle] at a concrete input. *)
Lemma second_pass_idle_witness :
  js_match (pat rule_bracket) (transform (u "SELECT TOP 10 [Id] FROM [dbo].[Users]")) = None
  /\ transform (transform (u "SELECT TOP 10 [Id] FROM [dbo].[Users]"))
     = transform (u "SELECT TOP 10 [Id] FROM [dbo].[Users]")
  /\ (91%N ∉ u "SELECT LEN(x), GETDATE() FROM t")
  /\ transform (transform (u "SELECT LEN(x), GETDATE() FROM t"))
     = transform (u "SELECT LEN(x), GETDATE() FROM t").
Proof.
  split; [vm_compute; reflexivity|]. split.
  - apply (proj1 (second_pass_idle (u "SELECT TOP 10 [Id] FROM [dbo].[Users]"))).
    vm_compute; reflexivity.
  - split; [by_compute|].
    apply (proj2 (second_pass_idle (u "SELECT LEN(x), GETDATE() FROM t"))). by_compute.
Defined.

(** ** C2: buffered against streaming conversion *)

(** C2, counterexample: the two lines [TOP] and [10] are one [LIMIT 10] for
    the buffered conversion, because white space in the [TOP] rule includes
    the line feed; the streaming conversion sees each line alone and changes
    neither.  The bodies differ also when the line ends at their ends are
    left out. *)
Lemma modes_differ_across_lines :
  chomp (streaming_body (u "TOP" ++ NL :: u "10"))
  <> chomp (transform (u "TOP" ++ NL :: u "10")).
Proof. by vm_compute. Qed.

(** C2, amended: of the eight rules only the bracket rule and the [TOP]
    rule can match over a line feed.  For a text without carriage returns in
    which neither of them does so during the buffered pass, the streaming
    conversion writes, after its header, the body of the buffered
    conversion, followed by one line feed when the text does not end with
    one. *)
Theorem modes_agree_within_lines (ts1 ts2 : text) (inputFile outputFile : string) (s : text) :
  CR ∉ s ->
  crosses_line (pat rule_bracket) (apply_rule rule_dbo s) = false ->
  crosses_line (pat rule_top) (apply_rules early_rules s) = false ->
  convertToMySQL ts1 s = header ts1 ++ transform s
  /\ flushed (run_events inputFile outputFile (events_of s) (stream_start ts2))
     = header ts2 ++ transform s ++ (if open_ended s then [NL] else []).
Proof.
  intros Hcr Hb Ht. split; [done|].
  rewrite flushed_to_end, streaming_buffered; [done..|].
  by rewrite pass_crosses_conversions, Hb, Ht.
Qed.

(** [modes_agree_within_lines] at a concrete input. *)
Lemma modes_agree_within_lines_witness :
  let s := u "SELECT TOP 10 [Id]" ++ NL :: u "FROM [dbo].[Users] WHERE d < GETDATE()" in
  (CR ∉ s)
  /\ crosses_line (pat rule_bracket) (apply_rule rule_dbo s) = false
  /\ crosses_line (pat rule_top) (apply_rules early_rules s) = false
  /\ (convertToMySQL (u "t1") s = header (u "t1") ++ transform s
      /\ flushed (run_events "in.sql" "out.sql" (events_of s) (stream_start (u "t2")))
         = header (u "t2") ++ transform s ++ (if open_ended s then [NL] else [])).
Proof.
  intros s. split; [by_compute|]. split; [vm_compute; reflexivity|].
  split; [vm_compute; reflexivity|].
  apply (modes_agree_within_lines (u "t1") (u "t2") "in.sql" "out.sql" s);
    [by_compute|vm_compute; reflexivity..].
Defined.

(** ** C3: schema-qualified names *)




(** ** C4: case *)



(** ** C5: empty sources *)

(** C5, counterexample: an empty source is converted like any other; the
    result is the header alone and the call reports success. *)
Lemma empty_source_accepted :
  let fs : files := {[ "in.sql" := File 0 (Content []) None ]} in
  convertToMySQL (u "t") [] = header (u "t")
  /\ (convertAndSave (u "t") fs "in.sql" "out.sql").1
     = Some (Resolve (Result true "Successfully converted in.sql to out.sql")).
Proof. split; by vm_compute. Qed.

(** C5, amended: a source of white space only (or of no units at all) is not
    rejected by the converter: no rule matches in it, [convertToMySQL]
    returns the header followed by the source, and [convertAndSave] reports
    success and stores a destination; the empty-file error belongs to
    [executeSQLFile], which refuses such a file. *)
Theorem blank_source_converted (ts : text) (fs : files) (inputFile outputFile : string)
    (s : text) :
  readFileSync fs inputFile = inr s -> blank s = true ->
  write_lock fs outputFile = None ->
  convertToMySQL ts s = header ts ++ s
  /\ (exists r data,
        convertAndSave ts fs inputFile outputFile
        = (Some (Resolve r), <[outputFile := stored data]> fs)
        /\ success r = true)
  /\ executeSQLFile_read fs inputFile = inl "SQL file is empty".
Proof.
  intros Hread Hblank Hw. split_and!.
  - unfold convertToMySQL. by rewrite transform_blank.
  - apply convertAndSave_readable; [done|]. unfold readable_in. by rewrite Hread.
  - unfold executeSQLFile_read. rewrite Hread, Hblank.
    unfold readFileSync in Hread. by destruct (fs !! inputFile).
Qed.

(** [blank_source_converted] at a concrete input. *)
Lemma blank_source_converted_witness :
  let fs : files := {[ "in.sql" := File 3 (Content (u "   ")) None ]} in
  readFileSync fs "in.sql" = inr (u "   ") /\ blank (u "   ") = true
  /\ write_lock fs "out.sql" = None
  /\ (convertToMySQL (u "t") (u "   ") = header (u "t") ++ u "   "
      /\ (exists r data,
            convertAndSave (u "t") fs "in.sql" "out.sql"
            = (Some (Resolve r), <["out.sql" := stored data]> fs)
            /\ success r = true)
      /\ executeSQLFile_read fs "in.sql" = inl "SQL file is empty").
Proof.
  intros fs. split; [vm_compute; reflexivity|]. split; [reflexivity|].
  split; [vm_compute; reflexivity|].
  apply (blank_source_converted (u "t") fs "in.sql" "out.sql" (u "   "));
    [vm_compute; reflexivity|reflexivity|vm_compute; reflexivity].
Defined.

(** ** C6: the header *)

(** C6: in both modes the output starts with the same four lines: the
    marker, the line with the time stamp, the caution, and an empty line;
    the first three are comments.  In streaming mode the header is the first
    chunk written, whatever events follow. *)
Theorem header_first (ts : text) :
  NL ∉ ts ->
  (forall s, split_nl (convertToMySQL ts s) = header_lines ts ++ split_nl (transform s))
  /\ (forall inputFile outputFile evs,
        exists chunks,
          written (run_events inputFile outputFile evs (stream_start ts))
          = header ts :: chunks
          /\ split_nl (flushed (run_events inputFile outputFile evs (stream_start ts)))
             = header_lines ts ++ split_nl (mjoin chunks))
  /\ length (header_lines ts) = 4
  /\ forallb is_comment (take 3 (header_lines ts)) = true
  /\ header_lines ts !! 3 = Some [].
Proof.
  intros Hts. split_and!.
  - intros s. by apply split_header.
  - intros i o evs.
    destruct (run_events_written i o evs (stream_start ts)) as [chunks Hc].
    exists chunks. split; [done|]. unfold flushed. rewrite Hc. simpl.
    by apply split_header.
  - done.
  - done.
  - done.
Qed.

(** [header_first] at a concrete input. *)
Lemma header_first_witness :
  let ts := u "2024-01-15T10:30:00.000Z" in
  (NL ∉ ts)
  /\ ((forall s, split_nl (convertToMySQL ts s) = header_lines ts ++ split_nl (transform s))
      /\ (forall inputFile outputFile evs,
            exists chunks,
              written (run_events inputFile outputFile evs (stream_start ts))
              = header ts :: chunks
              /\ split_nl (flushed (run_events inputFile outputFile evs (stream_start ts)))
                 = header_lines ts ++ split_nl (mjoin chunks))
      /\ length (header_lines ts) = 4
      /\ forallb is_comment (take 3 (header_lines ts)) = true
      /\ header_lines ts !! 3 = Some []).
Proof.
  intros ts. split; [by_compute|]. apply (header_first ts). by_compute.
Defined.

(** ** C7: what the statistics count *)

(** C7: the list [conversionsApplied] is computed from the original text
    alone: it holds, for each rule in order, the number of its matches in
    the original text when that number is not zero, whatever the converted
    text is.  The counts can differ from the matches replaced during the
    conversion: in [[dbo].[Users]] the bracket rule is counted twice, but
    the schema rule has removed both brackets before the bracket rule runs. *)
Theorem stats_count_original :
  (forall originalContent convertedContent,
     conversionsApplied (getConversionStats originalContent convertedContent)
     = reported (original_counts conversions originalContent))
  /\ reported (original_counts conversions (u "[dbo].[Users]"))
     = [(source rule_dbo, 1); (source rule_bracket, 2)]
  /\ reported (pass_counts conversions (u "[dbo].[Users]"))
     = [(source rule_dbo, 1)].
Proof. split_and!; [apply stats_applied|by vm_compute..]. Qed.

(** ** C8: the summary of a streaming run *)

(** C8: when the input is read to its end, the promise resolves with
    [success: true]; the number of lines processed is the number of lines
    read, and the number of lines converted is the number of lines in which
    at least one rule has a match; both are reported in the message. *)
Theorem streaming_summary (ts : text) (fs : files) (inputFile outputFile : string)
    (content : text) :
  readFileSync fs inputFile = inr content ->
  write_lock fs outputFile = None ->
  let ls := readline_lines content in
  let st := run_events inputFile outputFile (events_of content) (stream_start ts) in
  lineCount st = length ls
  /\ convertedCount st = count_lines any_rule_matches ls
  /\ (convertLargeFileStreaming ts fs inputFile outputFile).1
     = Some (Resolve (summary inputFile outputFile (length ls)
                        (count_lines any_rule_matches ls)))
  /\ success (summary inputFile outputFile (length ls)
                (count_lines any_rule_matches ls)) = true.
Proof.
  intros Hr Hw ls st.
  destruct (run_to_end ts inputFile outputFile content) as (H1 & H2 & _ & _ & H5).
  rewrite (count_lines_ext any_rule_matches (pass_matches conversions))
    by (intros l; symmetry; apply pass_matches_any).
  split_and!; [done..| |done].
  unfold convertLargeFileStreaming, stream_events. by rewrite Hw, Hr.
Qed.

(** [streaming_summary] at a concrete input. *)
Lemma streaming_summary_witness :
  let content := u "SELECT [a]" ++ NL :: u "FROM t" ++ NL :: u "WHERE x = NEWID()" in
  let fs : files := {[ "in.sql" := File 60000000 (Content content) None ]} in
  let ls := readline_lines content in
  let st := run_events "in.sql" "out.sql" (events_of content) (stream_start (u "t")) in
  readFileSync fs "in.sql" = inr content /\ write_lock fs "out.sql" = None
  /\ (lineCount st = length ls
      /\ convertedCount st = count_lines any_rule_matches ls
      /\ (convertLargeFileStreaming (u "t") fs "in.sql" "out.sql").1
         = Some (Resolve (summary "in.sql" "out.sql" (length ls)
                            (count_lines any_rule_matches ls)))
      /\ success (summary "in.sql" "out.sql" (length ls)
                    (count_lines any_rule_matches ls)) = true).
Proof.
  intros content fs ls st. split; [vm_compute; reflexivity|].
  split; [vm_compute; reflexivity|].
  apply (streaming_summary (u "t") fs "in.sql" "out.sql" content);
    vm_compute; reflexivity.
Defined.

Example streaming_summary_message :
  message (summary "in.sql" "out.sql" 3 2)
  = "Successfully converted in.sql to out.sql (3 lines processed, 2 lines converted)".
Proof. by vm_compute. Qed.

(** ** C9: a batch with one unreadable file *)






(** ** C10: rules without a match *)

Lemma reported_elem rs s e :
  (forall r, r ∈ rs -> consuming (pat r) = true) ->
  e ∈ reported (original_counts rs s) <->
  exists r, r ∈ rs /\ e = (source r, match_count (pat r) s)
            /\ has_match (pat r) None s = true.
Proof.
  intros Hc. induction rs as [|r rs IH].
  - split; [by intros H%elem_of_nil|]. by intros (r & H%elem_of_nil & _).
  - rewrite original_counts_cons, reported_cons. cbn [snd].
    assert (IH' := IH (fun r' Hr' => Hc r' (list_elem_of_further _ _ _ Hr'))).
    pose proof (match_count_zero (pat r) s (Hc r (list_elem_of_here _ _))) as Hz.
    destruct (match_count (pat r) s =? 0) eqn:E.
    + apply Nat.eqb_eq in E. apply Hz in E. rewrite IH'. split.
      * intros (r' & Hr' & He & Hm). exists r'. split; [by right|done].
      * intros (r' & [->|Hr']%elem_of_cons & He & Hm); [congruence|]. by exists r'.
    + apply Nat.eqb_neq in E. rewrite elem_of_cons, IH'. split.
      * intros [->|(r' & Hr' & He & Hm)].
        -- exists r. split_and!; [by left|done|].
           apply not_false_iff_true. intros Hm. by apply Hz in Hm.
        -- exists r'. split; [by right|done].
      * intros (r' & [->|Hr']%elem_of_cons & He & Hm); [by left|]. right. by exists r'.
Qed.

Lemma reported_length rs s :
  (forall r, r ∈ rs -> consuming (pat r) = true) ->
  length (reported (original_counts rs s))
  = length (List.filter (fun r => has_match (pat r) None s) rs).
Proof.
  intros Hc. induction rs as [|r rs IH]; [done|].
  rewrite original_counts_cons, reported_cons. cbn [snd List.filter].
  assert (IH' := IH (fun r' Hr' => Hc r' (list_elem_of_further _ _ _ Hr'))).
  pose proof (match_count_zero (pat r) s (Hc r (list_elem_of_here _ _))) as Hz.
  destruct (match_count (pat r) s =? 0) eqn:E.
  - apply Nat.eqb_eq in E. apply Hz in E. by rewrite E.
  - apply Nat.eqb_neq in E.
    assert (Hm : has_match (pat r) None s = true).
    { apply not_false_iff_true. intros Hm. by apply Hz in Hm. }
    rewrite Hm. simpl. by rewrite IH'.
Qed.

Lemma conversions_consuming r : r ∈ conversions -> consuming (pat r) = true.
Proof.
  intros Hr. unfold conversions in Hr.
  repeat (apply elem_of_cons in Hr as [->|Hr]); [done..|by apply elem_of_nil in Hr].
Qed.

Lemma source_inj r r' :
  r ∈ conversions -> r' ∈ conversions -> source r = source r' -> r = r'.
Proof.
  intros Hr Hr'. unfold conversions in Hr, Hr'.
  repeat (apply elem_of_cons in Hr as [->|Hr]); try (by apply elem_of_nil in Hr);
    repeat (apply elem_of_cons in Hr' as [->|Hr']); try (by apply elem_of_nil in Hr');
    done.
Qed.

(** C10: [conversionsApplied] has one entry for each rule with a match in
    the original text and none for the others: its length is the number of
    rules that match, no entry has the count zero, a rule with a match is
    listed with its count, and the pattern of a rule without a match does
    not occur in the list. *)
Theorem stats_list_matching_rules (originalContent convertedContent : text) :
  let applied := conversionsApplied (getConversionStats originalContent convertedContent) in
  length applied
  = length (List.filter (fun r => has_match (pat r) None originalContent) conversions)
  /\ Forall (fun e => 0 < e.2) applied
  /\ (forall r, r ∈ conversions -> has_match (pat r) None originalContent = true ->
        (source r, match_count (pat r) originalContent) ∈ applied)
  /\ (forall r, r ∈ conversions -> has_match (pat r) None originalContent = false ->
        source r ∉ applied.*1).
Proof.
  intros applied. subst applied. rewrite stats_applied. split_and!.
  - apply reported_length, conversions_consuming.
  - apply Forall_forall. intros e He.
    apply (reported_elem _ _ _ conversions_consuming) in He as (r & Hr & -> & Hm).
    simpl. destruct (match_count (pat r) originalContent) eqn:E; [|lia].
    apply match_count_zero in E; [congruence|by apply conversions_consuming].
  - intros r Hr Hm. apply (reported_elem _ _ _ conversions_consuming). by exists r.
  - intros r Hr Hm Hin. apply list_elem_of_fmap in Hin as ([src n] & Hsrc & He).
    simpl in Hsrc. subst src.
    apply (reported_elem _ _ _ conversions_consuming) in He as (r' & Hr' & Heq & Hm').
    injection Heq as Hsrc _. apply source_inj in Hsrc; [|done..]. congruence.
Qed.

(** * Further properties of the code *)

(** ** Texts the conversion leaves as they are *)

Lemma transform_fixed s :
  transform s = s <-> forall r, r ∈ conversions -> has_match (pat r) None s = false.
Proof.
  split.
  - intros Heq.
    assert (Hb : has_match (pat rule_bracket) None s = false).
    { apply not_true_is_false. intros Hm. by apply transform_changes_brackets in Hm. }
    pose proof (no_bracket_no_dbo s Hb) as Hd.
    assert (Hf : apply_rules function_rules s = s).
    { rewrite transform_split in Heq. unfold apply_rule in Heq.
      by rewrite (replace_no_match _ _ _ Hd), (replace_no_match _ _ _ Hb) in Heq. }
    intros r Hr. unfold conversions in Hr.
    apply elem_of_cons in Hr as [->|Hr]; [done|].
    apply elem_of_cons in Hr as [->|Hr]; [done|].
    rewrite <- Hf. by apply function_rules_settled.
  - intros H. by apply apply_rules_no_match.
Qed.

Lemma changed_any l : changed l = any_rule_matches l.
Proof.
  unfold changed, any_rule_matches.
  destruct (existsb _ conversions) eqn:E.
  - apply existsb_exists in E as (r & Hr%list_elem_of_In & Hm).
    apply negb_true_iff, bool_decide_eq_false. intros Heq.
    by rewrite (proj1 (transform_fixed l) Heq r Hr) in Hm.
  - apply negb_false_iff, bool_decide_eq_true, transform_fixed.
    intros r Hr. apply not_true_is_false. intros Hm.
    assert (existsb (fun r => has_match (pat r) None l) conversions = true); [|congruence].
    apply existsb_exists. exists r. split; [by apply list_elem_of_In|done].
Qed.

(** X1: in the output of one conversion none of the six rules after the
    bracket rules has a match: no [GETDATE()], [GETUTCDATE()], [NEWID()],
    no [LEN(] or [ISNULL(] at a word boundary and no [TOP n] is left,
    whatever the input. *)
Theorem converted_without_function_calls (s : text) :
  Forall (fun r => js_match (pat r) (transform s) = None) function_rules.
Proof.
  apply Forall_forall. intros r Hr.
  apply js_match_none.
  - apply conversions_consuming. unfold function_rules in Hr. unfold conversions.
    by do 2 apply list_elem_of_further.
  - rewrite transform_split. by apply function_rules_settled.
Qed.

(** X2: the conversion returns a text unchanged exactly when no pattern of
    the rule table has a match in it: a rule that matches is never undone by
    the rules after it. *)
Theorem transform_fixed_points (s : text) :
  transform s = s <-> Forall (fun r => js_match (pat r) s = None) conversions.
Proof.
  rewrite transform_fixed, Forall_forall. split; intros H r Hr.
  - apply js_match_none; [by apply conversions_consuming|by apply H].
  - apply js_match_none; [by apply conversions_consuming|by apply H].
Qed.

(** X3: the list of applied conversions in the statistics is empty exactly
    when the conversion leaves the original text as it is. *)
Theorem stats_empty_iff_unchanged (originalContent convertedContent : text) :
  conversionsApplied (getConversionStats originalContent convertedContent) = []
  <-> transform originalContent = originalContent.
Proof.
  rewrite stats_applied, transform_fixed. split.
  - intros He r Hr. apply not_true_is_false. intros Hm.
    assert (Hin : (source r, match_count (pat r) originalContent)
                  ∈ reported (original_counts conversions originalContent)).
    { apply (reported_elem _ _ _ conversions_consuming). by exists r. }
    rewrite He in Hin. by apply elem_of_nil in Hin.
  - intros H.
    destruct (reported (original_counts conversions originalContent)) as [|e l] eqn:E; [done|].
    assert (Hin : e ∈ reported (original_counts conversions originalContent)).
    { rewrite E. by left. }
    apply (reported_elem _ _ _ conversions_consuming) in Hin as (r & Hr & _ & Hm).
    by rewrite (H r Hr) in Hm.
Qed.

(** X4: the flag [hasConversions] of the line handler is set exactly for a
    line whose converted text differs from the line read, so the count of
    converted lines in the summary of a streaming run is the number of lines
    written differently from how they were read. *)
Theorem converted_count_changed_lines (ts : text) (inputFile outputFile : string) (s : text) :
  (forall l, (convert_line l).2 = negb (bool_decide ((convert_line l).1 = l)))
  /\ convertedCount (run_events inputFile outputFile (events_of s) (stream_start ts))
     = count_lines changed (readline_lines s).
Proof.
  split.
  - intros l. rewrite convert_line_flag, convert_line_text, pass_matches_any.
    symmetry. apply changed_any.
  - destruct (run_to_end ts inputFile outputFile s) as (_ & -> & _).
    apply count_lines_ext. intros l. rewrite pass_matches_any. symmetry. apply changed_any.
Qed.

(** ** Rules that work line by line *)

Lemma split_nl_go_single (l : text) : forall cur, NL ∉ l -> split_nl_go cur l = [cur ++ l].
Proof.
  induction l as [|x l IH]; intros cur Hl; simpl.
  - by rewrite app_nil_r.
  - apply not_elem_of_cons in Hl as [Hx Hl].
    destruct (x =? NL)%N eqn:E; [apply N.eqb_eq in E; congruence|].
    rewrite IH by done. by rewrite <- app_assoc.
Qed.

Lemma split_nl_of_join (ls : list text) :
  ls <> [] -> Forall (fun l => NL ∉ l) ls -> split_nl (join_nl ls) = ls.
Proof.
  induction ls as [|l ls IH]; [done|]. intros _ Hls.
  apply Forall_cons in Hls as [Hl Hls].
  destruct ls as [|l' ls].
  - simpl. unfold split_nl. by rewrite split_nl_go_single.
  - rewrite join_nl_cons. unfold split_nl.
    rewrite split_nl_go_line by done. simpl. f_equal. by apply IH.
Qed.

Lemma split_nl_nonempty s : split_nl s <> [].
Proof. apply split_nl_go_nonempty. Qed.

Lemma replace_by_line p t s :
  consuming p = true -> one_line t = true -> within_line p = true ->
  split_nl (replace p t s) = replace p t <$> split_nl s.
Proof.
  intros Hc Ht Hw.
  rewrite <- (split_nl_join s) at 1.
  rewrite replace_join; [|done|apply split_nl_free|by apply within_line_never_crosses].
  apply split_nl_of_join.
  - pose proof (split_nl_nonempty s). by destruct (split_nl s).
  - apply Forall_fmap. eapply Forall_impl; [apply split_nl_free|].
    intros l Hl. by apply replace_one_line.
Qed.

(** X5: each of the six rules other than the bracket rule and the [TOP]
    rule works line by line: the lines of its output are its outputs on the
    lines of the input, for every input. *)
Theorem line_rules_by_line :
  Forall (fun r => forall s, split_nl (apply_rule r s) = apply_rule r <$> split_nl s)
         line_rules.
Proof.
  unfold line_rules. repeat apply Forall_cons_2; [..|apply Forall_nil_2];
    intros s; by apply replace_by_line.
Qed.

(** ** The lines of a streamed conversion *)

Lemma readline_go_free s : forall cur,
  NL ∉ cur -> CR ∉ cur ->
  Forall (fun l => (NL ∉ l) /\ (CR ∉ l)) (readline_go cur s).
Proof.
  induction s as [s IH] using (induction_ltof1 _ (@length N)). unfold ltof in IH.
  intros cur Hn Hr. destruct s as [|x s]; simpl.
  - destruct cur; [apply Forall_nil_2|by apply Forall_singleton].
  - destruct (x =? NL)%N eqn:E1.
    { apply Forall_cons. split; [done|]. apply IH; [simpl; lia|apply not_elem_of_nil..]. }
    destruct (x =? CR)%N eqn:E2.
    { destruct s as [|y s].
      - apply Forall_cons. split; [done|]. simpl. apply Forall_nil_2.
      - destruct (y =? NL)%N eqn:E3.
        + apply Forall_cons. split; [done|].
          apply IH; [simpl; lia|apply not_elem_of_nil..].
        + apply Forall_cons. split; [done|].
          apply IH; [simpl; lia|apply not_elem_of_nil..]. }
    apply N.eqb_neq in E1, E2.
    apply IH; [simpl; lia|..];
      (intros [?|?%list_elem_of_singleton]%elem_of_app; congruence).
Qed.

Lemma readline_go_line (l rest : text) : forall cur,
  NL ∉ l -> CR ∉ l ->
  readline_go cur (l ++ NL :: rest) = (cur ++ l) :: readline_go [] rest.
Proof.
  induction l as [|x l IH]; intros cur Hn Hr.
  - simpl. by rewrite app_nil_r.
  - apply not_elem_of_cons in Hn as [Hx Hn]. apply not_elem_of_cons in Hr as [Hx' Hr].
    cbn [app readline_go].
    destruct (x =? NL)%N eqn:E1; [apply N.eqb_eq in E1; congruence|].
    destruct (x =? CR)%N eqn:E2; [apply N.eqb_eq in E2; congruence|].
    rewrite IH by done. by rewrite <- app_assoc.
Qed.

Lemma readline_terminated (ls : list text) :
  Forall (fun l => (NL ∉ l) /\ (CR ∉ l)) ls ->
  readline_lines (mjoin ((fun l => l ++ [NL]) <$> ls)) = ls.
Proof.
  induction ls as [|l ls IH]; [done|]. intros [[Hn Hr] Hls]%Forall_cons.
  cbn [fmap list_fmap mjoin list_join]. rewrite <- app_assoc. cbn [app].
  unfold readline_lines. rewrite readline_go_line by done.
  f_equal. by apply IH.
Qed.

Lemma apply_rules_without c rs : forall s,
  Forall (fun r => consuming (pat r) = true
                   /\ forall txt, Txt txt ∈ replacement r -> c ∉ txt) rs ->
  c ∉ s -> c ∉ apply_rules rs s.
Proof.
  induction rs as [|r rs IH]; intros s Hrs Hs; [done|].
  apply Forall_cons in Hrs as [[Hc Ht] Hrs].
  rewrite apply_rules_cons. apply IH; [done|].
  intros [H|(txt & Hin & H)]%(replace_from_elem _ _ _ Hc); [done|].
  by apply (Ht txt).
Qed.

Lemma transform_without c s : c ∉ template_units -> c ∉ s -> c ∉ transform s.
Proof.
  intros Hc. apply apply_rules_without.
  apply Forall_forall. intros r Hr. split; [by apply conversions_consuming|].
  intros txt Hin Hx. apply Hc. unfold template_units.
  apply list_elem_of_join. exists (expand (replacement r) []).
  split; [|apply list_elem_of_fmap; by exists r].
  unfold expand. apply list_elem_of_join. exists txt.
  split; [done|]. apply list_elem_of_fmap. by exists (Txt txt).
Qed.

(** X6: what a streaming run that reads its input to the end has written
    is the header followed by the converted lines of the input, one for each
    line read and in the order read: no converted line contains a line feed
    or a carriage return, and every line ends with a line feed alone, also
    where the source had a carriage return. *)
Theorem streamed_output_lines (ts : text) (inputFile outputFile : string) (s : text) :
  exists body,
    flushed (run_events inputFile outputFile (events_of s) (stream_start ts))
    = header ts ++ body
    /\ readline_lines body = transform <$> readline_lines s
    /\ split_nl body = (transform <$> readline_lines s) ++ [[]]
    /\ (CR ∉ body).
Proof.
  exists (streaming_body s). split; [apply flushed_to_end|].
  assert (Hfree : Forall (fun l => (NL ∉ l) /\ (CR ∉ l)) (transform <$> readline_lines s)).
  { apply Forall_fmap. eapply Forall_impl.
    - apply (readline_go_free s []); apply not_elem_of_nil.
    - intros l [Hn Hr]. simpl. split; (apply transform_without; [by_compute|done]). }
  assert (Hb : streaming_body s
               = mjoin ((fun l => l ++ [NL]) <$> (transform <$> readline_lines s))).
  { rewrite streaming_body_lines, <- list_fmap_compose. done. }
  rewrite Hb. split; [by apply readline_terminated|].
  clear Hb. induction (transform <$> readline_lines s) as [|l ls IH].
  { split; [done|apply not_elem_of_nil]. }
  apply Forall_cons in Hfree as [[Hn Hr] Hls]. destruct (IH Hls) as [IH1 IH2].
  cbn [fmap list_fmap mjoin list_join]. rewrite <- app_assoc. cbn [app]. split.
  - unfold split_nl. rewrite split_nl_go_line by done. simpl. f_equal. exact IH1.
  - rewrite not_elem_of_app, not_elem_of_cons. done.
Qed.

(** ** How often a unit occurs *)

Lemma count_unit_app c a b : count_unit c (a ++ b) = count_unit c a + count_unit c b.
Proof. unfold count_unit. by rewrite List.filter_app, length_app. Qed.

Lemma count_unit_cons c x s :
  count_unit c (x :: s) = (if (c =? x)%N then 1 else 0) + count_unit c s.
Proof. unfold count_unit. simpl. by destruct (c =? x)%N. Qed.

Lemma count_unit_none c s : c ∉ s -> count_unit c s = 0.
Proof.
  induction s as [|x s IH]; [done|]. intros [Hx Hs]%not_elem_of_cons.
  rewrite count_unit_cons, IH by done.
  destruct (c =? x)%N eqn:E; [apply N.eqb_eq in E; congruence|done].
Qed.

Lemma count_unit_class (cls : N -> bool) c (run : text) :
  cls c = false -> forallb cls run = true -> count_unit c run = 0.
Proof.
  intros Hc Hrun. apply count_unit_none. intros Hin.
  rewrite forallb_forall in Hrun. apply list_elem_of_In, Hrun in Hin. congruence.
Qed.

Lemma split_nl_go_length s : forall cur, length (split_nl_go cur s) = S (count_unit NL s).
Proof.
  induction s as [|x s IH]; intros cur; [done|].
  rewrite count_unit_cons. cbn [split_nl_go]. rewrite (N.eqb_sym NL x).
  destruct (x =? NL)%N; cbn [length]; by rewrite IH.
Qed.

Lemma split_nl_length s : length (split_nl s) = S (count_unit NL s).
Proof. apply split_nl_go_length. Qed.

Section Count.

Variables (c : N) (p : pattern) (t : template) (R : nat -> nat -> Prop).
Hypothesis Hc : consuming p = true.
Hypothesis R_refl : forall n, R n n.
Hypothesis R_add : forall a b a' b', R a b -> R a' b' -> R (a + a') (b + b').

Lemma replace_count :
  (forall prev m cap rest, m <> [] -> exec p prev (m ++ rest) = Some (cap, rest) ->
     R (count_unit c (expand t cap)) (count_unit c m)) ->
  forall prev s, R (count_unit c (replace_from p t prev s)) (count_unit c s).
Proof using Hc R_refl R_add.
  intros Hd. unfold replace_from.
  apply (scan_ind p (fun prev s its =>
    R (count_unit c (mjoin (render t <$> its))) (count_unit c s)) Hc).
  - intros _. apply R_refl.
  - intros prev x s He IH. rewrite render_copy, !count_unit_cons.
    by apply R_add.
  - intros prev m cap rest Hm He IH. rewrite render_hit, !count_unit_app.
    apply R_add; [by apply (Hd prev _ _ rest)|done].
Qed.

End Count.

Lemma le_add a b a' b' : a <= b -> a' <= b' -> a + a' <= b + b'.
Proof. lia. Qed.

Lemma eq_add (a b a' b' : nat) : a = b -> a' = b' -> a + a' = b + b'.
Proof. lia. Qed.

(** A bracket rule keeps what it captures and drops the units around it. *)
Lemma wrap_count c a cls c' s :
  count_unit c (replace (wrap_pat a cls c') [Grp] s) <= count_unit c s
  /\ (c ∉ a -> c <> c' ->
      count_unit c (replace (wrap_pat a cls c') [Grp] s) = count_unit c s).
Proof.
  assert (Hc : consuming (wrap_pat a cls c') = true).
  { unfold wrap_pat, consuming. rewrite existsb_app. simpl. by rewrite orb_true_r. }
  split.
  - apply (replace_count c _ _ le Hc (fun n => le_n n) le_add).
    intros prev m cap rest Hm He. rewrite expand_grp.
    apply exec_wrap_inv in He as (Hs & _ & _).
    assert (m = a ++ cap ++ [c']) as ->.
    { apply (app_inv_tail rest). rewrite Hs, <- !app_assoc. done. }
    rewrite !count_unit_app. lia.
  - intros Ha Hcc.
    apply (replace_count c _ _ eq Hc (fun n => eq_refl) eq_add).
    intros prev m cap rest Hm He. rewrite expand_grp.
    apply exec_wrap_inv in He as (Hs & _ & _).
    assert (m = a ++ cap ++ [c']) as ->.
    { apply (app_inv_tail rest). rewrite Hs, <- !app_assoc. done. }
    rewrite !count_unit_app, (count_unit_none c a Ha), (count_unit_none c [c']); [lia|].
    by intros ->%list_elem_of_singleton.
Qed.

(** A literal rule trades the units of its literal for those of its
    replacement. *)
Lemma literal_count c bnd (l r : text) s :
  l <> [] -> c ∉ r ->
  count_unit c (replace (lit_pat bnd l) [Txt r] s) <= count_unit c s
  /\ (c ∉ l -> count_unit c (replace (lit_pat bnd l) [Txt r] s) = count_unit c s).
Proof.
  intros Hl Hr.
  assert (He : forall cap, expand [Txt r] cap = r).
  { intros cap. unfold expand. simpl. by rewrite app_nil_r. }
  split.
  - apply (replace_count c _ _ le (consuming_lit_pat _ _ Hl) (fun n => le_n n) le_add).
    intros prev m cap rest Hm Hx. rewrite He, (count_unit_none c r Hr). lia.
  - intros Hcl.
    apply (replace_count c _ _ eq (consuming_lit_pat _ _ Hl) (fun n => eq_refl) eq_add).
    intros prev m cap rest Hm Hx. rewrite He, (count_unit_none c r Hr).
    apply exec_lit_pat_inv in Hx as (_ & Hx & _). apply app_inv_tail in Hx as ->.
    by rewrite (count_unit_none c l Hcl).
Qed.

(** The [TOP] rule keeps the digits and drops the keyword and the white
    space. *)
Lemma top_count c s :
  c ∉ u "LIMIT " ->
  count_unit c (apply_rule rule_top s) <= count_unit c s
  /\ (is_space c = false -> is_word c = false ->
      count_unit c (apply_rule rule_top s) = count_unit c s).
Proof.
  intros Hl.
  assert (He : forall cap, expand (replacement rule_top) cap = u "LIMIT " ++ cap).
  { intros cap. unfold expand. simpl. by rewrite app_nil_r. }
  split.
  - apply (replace_count c _ _ le (eq_refl : consuming (pat rule_top) = true)
             (fun n => le_n n) le_add).
    intros prev m cap rest Hm Hx.
    apply exec_top_inv in Hx as (_ & c1 & c2 & c3 & sp & Hs & _).
    assert (m = [c1; c2; c3] ++ sp ++ cap) as ->.
    { apply (app_inv_tail rest). rewrite Hs, <- !app_assoc. done. }
    rewrite He, !count_unit_app, (count_unit_none c _ Hl). lia.
  - intros Hsp Hw.
    apply (replace_count c _ _ eq (eq_refl : consuming (pat rule_top) = true)
             (fun n => eq_refl) eq_add).
    intros prev m cap rest Hm Hx.
    apply exec_top_inv in Hx as (_ & c1 & c2 & c3 & sp & Hs & H1 & H2 & H3 & _ & Hs' & _).
    assert (m = [c1; c2; c3] ++ sp ++ cap) as ->.
    { apply (app_inv_tail rest). rewrite Hs, <- !app_assoc. done. }
    rewrite He, !count_unit_app, (count_unit_none c _ Hl).
    rewrite (count_unit_class is_space c sp Hsp Hs').
    rewrite (count_unit_class is_word c [c1; c2; c3] Hw); [lia|].
    simpl. by rewrite (canon_word c1 84%N), (canon_word c2 79%N), (canon_word c3 80%N).
Qed.

Lemma not_in_part (c : N) (part whole : text) :
  forallb (fun x => bool_decide (x ∈ whole)) part = true -> c ∉ whole -> c ∉ part.
Proof.
  intros Hp Hw Hin. apply Hw. rewrite forallb_forall in Hp.
  apply list_elem_of_In, Hp in Hin. by apply bool_decide_eq_true in Hin.
Qed.

Lemma transform_count_le c s :
  c ∉ template_units -> count_unit c (transform s) <= count_unit c s.
Proof.
  intros Hc.
  assert (Hlit : forall bnd l r, l <> [] ->
            forallb (fun x => bool_decide (x ∈ template_units)) r = true ->
            forall s, count_unit c (replace (lit_pat bnd l) [Txt r] s) <= count_unit c s).
  { intros bnd l r Hl Hr s'. apply literal_count; [done|]. by apply (not_in_part c r _ Hr). }
  rewrite transform_split. unfold function_rules. rewrite !apply_rules_cons.
  change (apply_rules [] ?x) with x.
  etrans; [apply top_count; by apply (not_in_part c _ template_units)|].
  unfold apply_rule at 1.
  etrans; [by apply (Hlit true (u "ISNULL(") (u "IFNULL("))|].
  unfold apply_rule at 1.
  etrans; [by apply (Hlit true (u "LEN(") (u "LENGTH("))|].
  unfold apply_rule at 1.
  etrans; [by apply (Hlit false (u "NEWID()") (u "UUID()"))|].
  unfold apply_rule at 1.
  etrans; [by apply (Hlit false (u "GETUTCDATE()") (u "UTC_TIMESTAMP()"))|].
  unfold apply_rule at 1.
  etrans; [by apply (Hlit false (u "GETDATE()") (u "NOW()"))|].
  unfold apply_rule at 1. rewrite pat_rule_bracket.
  etrans; [apply wrap_count|].
  unfold apply_rule. rewrite pat_rule_dbo. apply wrap_count.
Qed.

(** The units that the literals of the first seven rules are made of. *)
Lemma early_count_eq c s :
  c ∉ u "[dbo].[]GETDATE()NOW()GETUTCDATE()UTC_TIMESTAMP()NEWID()UUID()LEN(LENGTH(ISNULL(IFNULL(" ->
  count_unit c (apply_rules early_rules s) = count_unit c s.
Proof.
  intros Hc.
  assert (Hlit : forall bnd l r, l <> [] ->
            forallb (fun x => bool_decide (x ∈ u "[dbo].[]GETDATE()NOW()GETUTCDATE()UTC_TIMESTAMP()NEWID()UUID()LEN(LENGTH(ISNULL(IFNULL(")) (l ++ r) = true ->
            forall s, count_unit c (replace (lit_pat bnd l) [Txt r] s) = count_unit c s).
  { intros bnd l r Hl Hr s'. rewrite forallb_app in Hr. apply andb_true_iff in Hr as [H1 H2].
    apply literal_count; [done|by apply (not_in_part c _ _ H2)|by apply (not_in_part c _ _ H1)]. }
  unfold early_rules. rewrite !apply_rules_cons.
  change (apply_rules [] ?x) with x.
  unfold apply_rule at 1.
  etrans; [by apply (Hlit true (u "ISNULL(") (u "IFNULL("))|].
  unfold apply_rule at 1.
  etrans; [by apply (Hlit true (u "LEN(") (u "LENGTH("))|].
  unfold apply_rule at 1.
  etrans; [by apply (Hlit false (u "NEWID()") (u "UUID()"))|].
  unfold apply_rule at 1.
  etrans; [by apply (Hlit false (u "GETUTCDATE()") (u "UTC_TIMESTAMP()"))|].
  unfold apply_rule at 1.
  etrans; [by apply (Hlit false (u "GETDATE()") (u "NOW()"))|].
  unfold apply_rule at 1. rewrite pat_rule_bracket.
  etrans; [apply wrap_count; [refine (not_in_part c _ _ _ Hc); reflexivity|]|].
  { intros ->. apply Hc. by_compute. }
  unfold apply_rule. rewrite pat_rule_dbo.
  apply wrap_count; [refine (not_in_part c _ _ _ Hc); reflexivity|]. intros ->. apply Hc. by_compute.
Qed.

Lemma inert_not_in c (l : text) :
  inert c = true -> forallb (fun x => negb (inert x)) l = true -> c ∉ l.
Proof.
  intros Hc Hl Hin. rewrite forallb_forall in Hl.
  apply list_elem_of_In, Hl in Hin. by rewrite Hc in Hin.
Qed.

(** X7: a unit that is not white space, not a word character and none of
    the brackets, the dot and the parentheses occurs in the converted text
    exactly as often as in the input: the conversion neither adds nor
    removes a semicolon, a quote, a comma or an operator. *)
Theorem inert_units_kept (c : N) (s : text) :
  inert c = true -> count_unit c (transform s) = count_unit c s.
Proof.
  intros Hc.
  assert (Hsw : is_space c = false /\ is_word c = false).
  { unfold inert in Hc. apply negb_true_iff in Hc.
    apply orb_false_iff in Hc as [Hc _]. by apply orb_false_iff in Hc. }
  rewrite transform_early.
  etrans; [apply top_count; [by apply inert_not_in|apply Hsw..]|].
  apply early_count_eq. by apply inert_not_in.
Qed.

(** [inert_units_kept] for the semicolon. *)
Lemma inert_units_kept_witness :
  let s := u "SELECT TOP 3 [a;b], ';' FROM [dbo].[T]; SELECT GETDATE();" in
  inert 59 = true /\ count_unit 59 (transform s) = count_unit 59 s.
Proof.
  intros s. split; [reflexivity|]. apply (inert_units_kept 59 s). reflexivity.
Defined.

(** X8: the converted text never has more lines than the original text
    and the four lines of the header together, and exactly as many unless
    the [TOP] rule matches over a line feed; this is what the statistics
    report as [convertedLines] and [originalLines]. *)
Theorem converted_lines_bound (ts : text) (s : text) :
  NL ∉ ts ->
  let st := getConversionStats s (convertToMySQL ts s) in
  convertedLines st <= originalLines st + 4
  /\ (crosses_line (pat rule_top) (apply_rules early_rules s) = false ->
      convertedLines st = originalLines st + 4).
Proof.
  intros Hts. cbn [getConversionStats convertedLines originalLines]. cbv zeta.
  unfold convertToMySQL. rewrite split_header, length_app by done.
  change (length (header_lines ts)) with 4.
  rewrite !split_nl_length.
  split.
  - pose proof (transform_count_le NL s ltac:(by_compute)). lia.
  - intros Hx. rewrite transform_early.
    assert (count_unit NL (apply_rule rule_top (apply_rules early_rules s))
            = count_unit NL (apply_rules early_rules s)) as ->.
    { apply Nat.succ_inj. rewrite <- !split_nl_length.
      rewrite <- (split_nl_join (apply_rules early_rules s)) at 1.
      unfold apply_rule. rewrite replace_join; [|done|apply split_nl_free|by rewrite split_nl_join].
      rewrite split_nl_of_join.
      - by rewrite length_fmap.
      - pose proof (split_nl_nonempty (apply_rules early_rules s)).
        by destruct (split_nl (apply_rules early_rules s)).
      - apply Forall_fmap. eapply Forall_impl; [apply split_nl_free|].
        intros l Hl. by apply replace_one_line. }
    rewrite early_count_eq by by_compute. lia.
Qed.

(** [converted_lines_bound] at a concrete input. *)
Lemma converted_lines_bound_witness :
  let ts := u "2024-01-15T10:30:00.000Z" in
  let s := u "SELECT TOP" ++ NL :: u "5 [a]" ++ NL :: u "FROM [dbo].[T]" in
  let st := getConversionStats s (convertToMySQL ts s) in
  (NL ∉ ts)
  /\ originalLines st = 3 /\ convertedLines st = 6
  /\ convertedLines st <= originalLines st + 4
  /\ (crosses_line (pat rule_top) (apply_rules early_rules s) = false ->
      convertedLines st = originalLines st + 4).
Proof.
  intros ts s st.
  split; [by_compute|]. split; [reflexivity|]. split; [reflexivity|].
  apply (converted_lines_bound ts s). by_compute.
Defined.

(** ** One file on disk *)

(** X9: for a source of at most 50 MB that can be read, and a
    destination that can be written, [convertAndSave] reports success and the
    destination then reads back as the header followed by the converted
    source; every other path is left as it was.  The destination may be the
    source itself, which is then overwritten. *)
Theorem convertAndSave_stores_conversion (ts : text) (fs : files)
    (inputFile outputFile : string) (size : N) (content : text) :
  statSync fs inputFile = inr size -> large size = false ->
  readFileSync fs inputFile = inr content ->
  write_lock fs outputFile = None ->
  let run := convertAndSave ts fs inputFile outputFile in
  run.1 = Some (Resolve (Result true
            ("Successfully converted " +:+ inputFile +:+ " to " +:+ outputFile)))
  /\ readFileSync run.2 outputFile = inr (convertToMySQL ts content)
  /\ statSync run.2 outputFile = inr (utf8_length (convertToMySQL ts content))
  /\ forall path, path <> outputFile -> run.2 !! path = fs !! path.
Proof.
  intros Hs Hl Hr Hw. unfold convertAndSave, convertFile, writeFileSync.
  rewrite Hs, Hl, Hr, Hw. cbn [fst snd].
  unfold readFileSync, statSync. rewrite lookup_insert_eq. cbn [f_payload f_size stored].
  split_and!; [reflexivity..|]. intros path Hp. by rewrite lookup_insert_ne.
Qed.

(** [convertAndSave_stores_conversion] for a file converted in place. *)
Lemma convertAndSave_stores_conversion_witness :
  let content := u "SELECT [a] FROM [dbo].[T]" in
  let fs : files := {[ "q.sql" := File 25 (Content content) None ]} in
  let run := convertAndSave (u "t") fs "q.sql" "q.sql" in
  statSync fs "q.sql" = inr 25%N /\ large 25 = false
  /\ readFileSync fs "q.sql" = inr content /\ write_lock fs "q.sql" = None
  /\ run.1 = Some (Resolve (Result true "Successfully converted q.sql to q.sql"))
  /\ readFileSync run.2 "q.sql" = inr (convertToMySQL (u "t") content)
  /\ statSync run.2 "q.sql" = inr (utf8_length (convertToMySQL (u "t") content))
  /\ forall path, path <> "q.sql" -> run.2 !! path = fs !! path.
Proof.
  intros content fs run.
  split; [vm_compute; reflexivity|]. split; [reflexivity|].
  split; [vm_compute; reflexivity|]. split; [vm_compute; reflexivity|].
  apply (convertAndSave_stores_conversion (u "t") fs "q.sql" "q.sql" 25 content);
    vm_compute; reflexivity.
Defined.



(** X11: a source that cannot be read fails in two different ways: up to
    the threshold of 50 MB [convertAndSave] returns a result with [success: false]
    and a message that names the file; above it the promise of the streaming
    conversion is returned as it is and rejects, with a message that does
    not name the file. *)
Theorem read_failure_by_size (ts : text) (fs : files) (inputFile outputFile : string)
    (size : N) (msg : string) :
  statSync fs inputFile = inr size ->
  readFileSync fs inputFile = inl msg ->
  write_lock fs outputFile = None ->
  (convertAndSave ts fs inputFile outputFile).1
  = if large size
    then Some (Reject ("Error reading file: " +:+ msg))
    else Some (Resolve (Result false ("Error reading file " +:+ inputFile +:+ ": " +:+ msg))).
Proof.
  intros Hs Hr Hw. unfold convertAndSave, convertFile. rewrite Hs, Hr.
  destruct (large size); [|done].
  unfold convertLargeFileStreaming, stream_events. by rewrite Hw, Hr.
Qed.

(** [read_failure_by_size] above the threshold. *)
Lemma read_failure_by_size_witness :
  let fs : files :=
    {[ "big.sql" := File 60000000 (ReadFails "EACCES: permission denied") None ]} in
  statSync fs "big.sql" = inr 60000000%N
  /\ readFileSync fs "big.sql" = inl "EACCES: permission denied"
  /\ write_lock fs "out.sql" = None
  /\ (convertAndSave (u "t") fs "big.sql" "out.sql").1
     = if large 60000000
       then Some (Reject ("Error reading file: " +:+ "EACCES: permission denied"))
       else Some (Resolve (Result false
              ("Error reading file " +:+ "big.sql" +:+ ": " +:+ "EACCES: permission denied"))).
Proof.
  split; [vm_compute; reflexivity|]. split; [vm_compute; reflexivity|].
  split; [vm_compute; reflexivity|].
  apply (read_failure_by_size (u "t") _ "big.sql" "out.sql" 60000000
           "EACCES: permission denied"); vm_compute; reflexivity.
Defined.

(** ** The promise of a streaming run *)

Lemma deliver_settled i o ev st x :
  settled st = Some x -> settled (deliver i o ev st) = Some x.
Proof.
  intros Hs.
  assert (Hk : forall out st', settled st' = Some x -> settled (settle out st') = Some x).
  { intros out st' H. unfold settle. by rewrite H. }
  destruct ev as [l| |msg|msg]; simpl.
  - destruct (rl_closed st); [done|]. by destruct (on_line_fields l st) as (_ & _ & _ & _ & _ & ->).
  - unfold rl_close. destruct (rl_closed st); [done|]. by apply Hk.
  - by apply Hk.
  - unfold on_ws_error. apply Hk. unfold rl_close. destruct (rl_closed st); [done|].
    by apply Hk.
Qed.

Lemma run_events_settled i o evs : forall st x,
  settled st = Some x -> settled (run_events i o evs st) = Some x.
Proof.
  induction evs as [|ev evs IH]; intros st x Hs; [done|].
  rewrite run_events_cons. apply IH. by apply deliver_settled.
Qed.

Lemma run_ws_error (ts : text) (inputFile outputFile : string)
    (ls : list text) (msg : string) (evs : list event) :
  settled (run_events inputFile outputFile ((Line <$> ls) ++ WsError msg :: evs)
             (stream_start ts))
  = Some (Resolve (summary inputFile outputFile (length ls)
                     (count_lines any_rule_matches ls))).
Proof.
  rewrite run_events_app, run_events_cons. apply run_events_settled.
  destruct (run_lines inputFile outputFile ls (stream_start ts) eq_refl)
    as (Hl & Hc & _ & Hr & _ & Hs).
  cbn [deliver]. unfold on_ws_error, rl_close. rewrite Hr.
  unfold on_close, settle at 2. cbn [settled]. rewrite Hs. cbn [settled stream_start].
  unfold settle. cbn [settled]. rewrite Hl, Hc. cbn [lineCount convertedCount stream_start].
  do 3 f_equal. apply count_lines_ext. intros l. by rewrite pass_matches_any.
Qed.

(** X12: an error of the write stream is never reported as a failure.  Its
    handler closes the line reader first, the ['close'] handler resolves the
    promise with [success: true] and the counts reached so far, and the
    [reject] that follows finds the promise settled; no later event changes
    the outcome. *)
Theorem write_error_resolves (ts : text) (inputFile outputFile : string)
    (ls : list text) (msg : string) (evs : list event) :
  settled (run_events inputFile outputFile ((Line <$> ls) ++ WsError msg :: evs)
             (stream_start ts))
  = Some (Resolve (summary inputFile outputFile (length ls)
                     (count_lines any_rule_matches ls))).
Proof. apply run_ws_error. Qed.

(** ** Every file of a batch is counted *)

Lemma streaming_settles ts fs i o :
  exists out, (convertLargeFileStreaming ts fs i o).1 = Some out.
Proof.
  unfold convertLargeFileStreaming, stream_events. cbn [fst].
  destruct (write_lock fs o) as [msg|].
  - pose proof (run_ws_error ts i o [] msg []) as H. simpl in H. eauto.
  - destruct (readFileSync fs i) as [msg|content].
    + eauto.
    + destruct (run_to_end ts i o content) as (_ & _ & _ & _ & ->). eauto.
Qed.

Lemma convertAndSave_settles ts fs i o :
  exists out, (convertAndSave ts fs i o).1 = Some out.
Proof.
  unfold convertAndSave. destruct (statSync fs i) as [msg|size]; [eauto|].
  destruct (large size); [apply streaming_settles|].
  destruct (convertFile ts fs i) as [msg|converted]; [eauto|].
  destruct (writeFileSync fs o converted); eauto.
Qed.

Lemma batch_step_counts iso directory outputDir t n :
  hung t = false ->
  let t' := batch_step iso directory outputDir t n in
  hung t' = false
  /\ successCount t' + errorCount t' = S (successCount t + errorCount t)
  /\ clock t' = S (clock t).
Proof.
  intros Hh. unfold batch_step. rewrite Hh.
  destruct (convertAndSave_settles (iso (clock t)) (disk t) (path_join directory n)
              (output_path outputDir n)) as [out Hout].
  destruct (convertAndSave _ _ _ _) as [o fs']. simpl in Hout. subst o.
  destruct out as [r|msg]; [destruct (success r)|]; simpl; split_and!; lia || done.
Qed.

Lemma batch_loop_counts iso directory outputDir names : forall t,
  hung t = false ->
  let t' := foldl (batch_step iso directory outputDir) t names in
  hung t' = false
  /\ successCount t' + errorCount t' = successCount t + errorCount t + length names
  /\ clock t' = clock t + length names.
Proof.
  induction names as [|n names IH]; intros t Hh.
  - simpl. split_and!; [done|lia..].
  - destruct (batch_step_counts iso directory outputDir t n Hh) as (H1 & H2 & H3).
    destruct (IH _ H1) as (I1 & I2 & I3).
    cbn [foldl length]. split_and!; [done|lia..].
Qed.

(** X13: a batch counts every selected file exactly once, as a success or
    as an error, whatever happens to the single files: when the loop has
    run, the two counters add up to the number of names that end in [.sql],
    no conversion is left pending, and one conversion was started per
    file. *)
Theorem batch_counts_every_file (iso : nat -> text) (fs : files) (now : nat)
    (directory : string) (output : option string) :
  match batch iso fs now directory output with
  | Completed t =>
      successCount t + errorCount t = length (sql_files fs directory)
      /\ 0 < length (sql_files fs directory)
      /\ hung t = false
      /\ clock t = now + length (sql_files fs directory)
  | NoSqlFiles => sql_files fs directory = [] /\ readdirSync fs directory <> []
  | DirectoryNotFound => readdirSync fs directory = []
  end.
Proof.
  unfold batch. destruct (readdirSync fs directory) as [|e es] eqn:Hd; [done|].
  destruct (sql_files fs directory) as [|n names] eqn:Hn; [done|].
  destruct (batch_loop_counts iso directory (default directory output) (n :: names)
              (Tally 0 0 fs now false) eq_refl) as (H1 & H2 & H3).
  cbn [successCount errorCount clock] in H2, H3.
  split_and!; [done| simpl; lia | done | done].
Qed.

(** ** The names a batch writes to *)

Lemma append_cons (x : ascii) (a b : string) : String x a +:+ b = String x (a +:+ b).
Proof. reflexivity. Qed.

Lemma append_assoc (a b c : string) : (a +:+ b) +:+ c = a +:+ (b +:+ c).
Proof. induction a as [|x a IH]; [done|]. by rewrite !append_cons, IH. Qed.

Lemma length_append (a b : string) :
  String.length (a +:+ b) = String.length a + String.length b.
Proof. induction a as [|x a IH]; [done|]. rewrite append_cons. simpl. by rewrite IH. Qed.

Lemma rev_app_append (s1 : string) : forall s2,
  String.rev_app s1 s2 = String.rev s1 +:+ s2.
Proof.
  unfold String.rev. induction s1 as [|x s1 IH]; intros s2; [done|].
  simpl. rewrite (IH (String x s2)), (IH (String x "")), append_assoc. done.
Qed.

Lemma rev_app_app (a b : string) : forall c,
  String.rev_app (a +:+ b) c = String.rev_app b (String.rev_app a c).
Proof.
  induction a as [|x a IH]; intros c; [done|]. rewrite append_cons. simpl. by rewrite IH.
Qed.

Lemma rev_append (a b : string) : String.rev (a +:+ b) = String.rev b +:+ String.rev a.
Proof. unfold String.rev at 1. by rewrite rev_app_app, rev_app_append. Qed.

Lemma prefix_append (a b : string) : String.prefix a (a +:+ b) = true.
Proof.
  induction a as [|x a IH]; [by destruct b|].
  rewrite append_cons. simpl. by destruct (ascii_dec x x).
Qed.

Lemma endsWith_append (a b : string) : endsWith (a +:+ b) b = true.
Proof. unfold endsWith. rewrite rev_append. apply prefix_append. Qed.

Lemma toLowerCase_append (a b : string) :
  toLowerCase (a +:+ b) = toLowerCase a +:+ toLowerCase b.
Proof.
  induction a as [|x a IH]; [done|]. rewrite append_cons. simpl. by rewrite IH.
Qed.

Lemma substring_append (a b : string) :
  String.substring 0 (String.length a) (a +:+ b) = a.
Proof.
  induction a as [|x a IH]; [by destruct b|]. rewrite append_cons. simpl. by rewrite IH.
Qed.

Lemma basename_sql_suffix (base : string) :
  base <> "" -> basename_sql (base +:+ ".sql") = base.
Proof.
  intros Hb. unfold basename_sql. rewrite endsWith_append.
  rewrite bool_decide_eq_false_2.
  - cbn [negb andb]. rewrite length_append.
    replace (String.length base + String.length ".sql" - 4) with (String.length base)
      by (simpl; lia).
    apply substring_append.
  - intros Heq. apply (f_equal String.length) in Heq. rewrite length_append in Heq.
    destruct base; [done|]. simpl in Heq. lia.
Qed.

(** X14: the destination of a file of a batch.  A name that ends in [.sql]
    loses that suffix before [_mysql.sql] is added; a name the filter
    selected for its suffix in another case ([.SQL]) keeps the suffix; and
    every destination name ends in [.sql] itself, so a second batch over a
    directory that holds its own output selects the converted files as
    sources again. *)
Theorem batch_output_names (outputDir base name : string) :
  (base <> "" ->
   output_path outputDir (base +:+ ".sql") = outputDir +:+ "/" +:+ base +:+ "_mysql.sql")
  /\ (endsWith name ".sql" = false ->
      output_path outputDir name = outputDir +:+ "/" +:+ name +:+ "_mysql.sql")
  /\ endsWith (toLowerCase (basename_sql name +:+ "_mysql.sql")) ".sql" = true.
Proof.
  split_and!.
  - intros Hb. unfold output_path, path_join. by rewrite basename_sql_suffix.
  - intros He. unfold output_path, path_join, basename_sql. by rewrite He.
  - rewrite toLowerCase_append.
    change (toLowerCase "_mysql.sql") with ("_mysql" +:+ ".sql").
    rewrite <- append_assoc. apply endsWith_append.
Qed.

(** ** The [convert] command *)

(** X15: with [--preview] the command never writes: whatever the input, the
    other options and the size of the file, the file system is left as it
    was and no conversion is reported as saved. *)
Theorem preview_never_writes (default_output : string -> string) (ts : text) (fs : files)
    (inputFile : string) (output : option string) (stats : bool) :
  (convert default_output ts fs inputFile (ConvertOptions output stats true)).2 = fs
  /\ completed (convert default_output ts fs inputFile (ConvertOptions output stats true)).1
     = false.
Proof.
  unfold convert. cbn [opt_preview opt_output opt_stats].
  destruct (fs !! inputFile); [|done].
  destruct (statSync fs inputFile) as [msg|size]; [done|].
  destruct (large size); [done|].
  by destruct (readFileSync fs inputFile).
Qed.

Lemma imap_numbered {A} (l : list A) : forall k,
  (imap (fun index x => (k + index, x)) l).*2 = l
  /\ (imap (fun index x => (k + index, x)) l).*1 = seq k (length l).
Proof.
  induction l as [|x l IH]; intros k; [done|].
  cbn [imap fmap list_fmap length seq].
  rewrite (imap_ext _ (fun index x => (S k + index, x))) by (intros; simpl; f_equal; lia).
  destruct (IH (S k)) as [-> ->]. rewrite Nat.add_0_r. done.
Qed.

(** X16: the preview of a file of at most 50 MB shows the first twenty
    lines of the converted text, numbered from 1; four of them are the
    header, so at most sixteen lines of converted SQL are shown, and the
    notice of truncation is printed exactly when the converted SQL has more
    than sixteen lines. *)
Theorem preview_lines (default_output : string -> string) (ts : text) (fs : files)
    (inputFile : string) (output : option string) (stats : bool)
    (size : N) (content : text) :
  NL ∉ ts ->
  statSync fs inputFile = inr size -> large size = false ->
  readFileSync fs inputFile = inr content ->
  exists lines,
    (convert default_output ts fs inputFile (ConvertOptions output stats true)).1
    = Previewed lines (16 <? length (split_nl (transform content)))
    /\ lines.*2 = header_lines ts ++ take 16 (split_nl (transform content))
    /\ lines.*1 = seq 1 (length lines).
Proof.
  intros Hts Hs Hl Hr. unfold convert. rewrite Hs, Hl, Hr.
  assert (Hf : is_Some (fs !! inputFile)).
  { unfold statSync in Hs. by destruct (fs !! inputFile). }
  destruct Hf as [f ->]. cbn [opt_preview fst].
  unfold convertToMySQL. rewrite split_header by done.
  eexists. split_and!.
  - reflexivity.
  - rewrite (proj1 (imap_numbered _ 1)).
    by rewrite (take_app_add' (header_lines ts) _ 4 16).
  - rewrite (proj2 (imap_numbered _ 1)). by rewrite length_imap.
Qed.

(** [preview_lines] for a file of twenty lines. *)
Lemma preview_lines_witness :
  let ts := u "2024-01-15T10:30:00.000Z" in
  let content := mjoin (replicate 19 (u "SELECT [a];" ++ [NL])) ++ u "SELECT 1;" in
  let fs : files := {[ "q.sql" := File 237 (Content content) None ]} in
  (NL ∉ ts) /\ statSync fs "q.sql" = inr 237%N /\ large 237 = false
  /\ readFileSync fs "q.sql" = inr content
  /\ length (split_nl (transform content)) = 20
  /\ exists lines,
       (convert (fun _ => "q_mysql.sql") ts fs "q.sql" (ConvertOptions None false true)).1
       = Previewed lines (16 <? length (split_nl (transform content)))
       /\ lines.*2 = header_lines ts ++ take 16 (split_nl (transform content))
       /\ lines.*1 = seq 1 (length lines).
Proof.
  intros ts content fs.
  split; [by_compute|]. split; [vm_compute; reflexivity|]. split; [reflexivity|].
  split; [vm_compute; reflexivity|]. split; [vm_compute; reflexivity|].
  apply (preview_lines (fun _ => "q_mysql.sql") ts fs "q.sql" None false 237 content);
    [by_compute|vm_compute; reflexivity..].
Defined.

(** X17: without [--preview] the command leaves the file system exactly as
    [convertAndSave] does for the same source and destination, and it
    reports a converted file exactly when [convertAndSave] reports success;
    an empty [--output] counts as none. *)
Theorem convert_agrees_with_convertAndSave (default_output : string -> string)
    (ts : text) (fs : files) (inputFile : string) (output : option string) (stats : bool) :
  let outputFile :=
    match output with
    | Some o => if bool_decide (o = "") then default_output inputFile else o
    | None => default_output inputFile
    end in
  (convert default_output ts fs inputFile (ConvertOptions output stats false)).2
  = (convertAndSave ts fs inputFile outputFile).2
  /\ completed (convert default_output ts fs inputFile (ConvertOptions output stats false)).1
     = succeeded (convertAndSave ts fs inputFile outputFile).1.
Proof.
  intros outputFile. unfold convert, convertAndSave, convertFile.
  cbn [opt_preview opt_output opt_stats]. fold outputFile.
  unfold statSync. destruct (fs !! inputFile) as [f|]; [|done].
  destruct (large (f_size f)).
  - destruct (convertLargeFileStreaming ts fs inputFile outputFile) as [[[r|msg]|] fs'];
      [|done..]. cbn [fst snd succeeded]. by destruct (success r).
  - destruct (readFileSync fs inputFile) as [msg|content]; [done|].
    by destruct (writeFileSync fs outputFile (convertToMySQL ts content)).
Qed.

(** ** The statements of a file *)

Lemma split_semicolon_go_free s : forall cur,
  SEMICOLON ∉ cur -> Forall (fun l => SEMICOLON ∉ l) (split_semicolon_go cur s).
Proof.
  induction s as [|x s IH]; intros cur Hcur; simpl.
  - by apply Forall_singleton.
  - destruct (x =? SEMICOLON)%N eqn:E.
    + apply Forall_cons. split; [done|]. apply IH, not_elem_of_nil.
    + apply IH. apply N.eqb_neq in E.
      intros [?|?%list_elem_of_singleton]%elem_of_app; congruence.
Qed.

Lemma split_semicolon_go_single (l : text) : forall cur,
  SEMICOLON ∉ l -> split_semicolon_go cur l = [cur ++ l].
Proof.
  induction l as [|x l IH]; intros cur Hl; simpl.
  - by rewrite app_nil_r.
  - apply not_elem_of_cons in Hl as [Hx Hl].
    destruct (x =? SEMICOLON)%N eqn:E; [apply N.eqb_eq in E; congruence|].
    rewrite IH by done. by rewrite <- app_assoc.
Qed.

Lemma blank_app a b : blank (a ++ b) = blank a && blank b.
Proof. apply forallb_app. Qed.

Lemma split_semicolon_go_blank s : forall cur,
  Forall (fun seg => blank seg = true) (split_semicolon_go cur s)
  <-> blank cur = true /\ forallb is_separator s = true.
Proof.
  induction s as [|x s IH]; intros cur; simpl.
  - rewrite Forall_singleton. tauto.
  - unfold is_separator at 1. destruct (x =? SEMICOLON)%N eqn:E.
    + rewrite Forall_cons, IH, orb_true_r. cbn [andb].
      change (blank []) with true. tauto.
    + rewrite IH, blank_app, orb_false_r. unfold blank at 2. cbn [forallb].
      rewrite andb_true_r, !andb_true_iff. tauto.
Qed.

Lemma filter_nil_iff {A} (f : A -> bool) (l : list A) :
  List.filter f l = [] <-> Forall (fun x => f x = false) l.
Proof.
  induction l as [|x l IH]; simpl.
  - split; [intros _; apply Forall_nil_2|done].
  - rewrite Forall_cons. destruct (f x).
    + split; [done|]. by intros [? _].
    + rewrite IH. tauto.
Qed.

Lemma trimStart_spec s :
  exists sp, s = sp ++ trimStart s /\ blank sp = true
    /\ match trimStart s with [] => True | c :: _ => is_space c = false end.
Proof.
  induction s as [|x s (sp & Hs & Hsp & Hh)]; [by exists []|].
  simpl. destruct (is_space x) eqn:Hx.
  - exists (x :: sp). split_and!; [by rewrite Hs at 1|by simpl; rewrite Hx|done].
  - by exists [].
Qed.

Lemma blank_reverse s : blank (reverse s) = blank s.
Proof.
  unfold blank. apply eq_true_iff_eq. rewrite !forallb_forall.
  split; intros H x Hx; apply H; apply list_elem_of_In; apply list_elem_of_In in Hx.
  - by rewrite elem_of_reverse.
  - by rewrite elem_of_reverse in Hx.
Qed.

Lemma trimEnd_spec s :
  exists sp, s = trimEnd s ++ sp /\ blank sp = true
    /\ match last (trimEnd s) with None => True | Some c => is_space c = false end.
Proof.
  destruct (trimStart_spec (reverse s)) as (sp & Hs & Hsp & Hh).
  exists (reverse sp). unfold trimEnd. split_and!.
  - rewrite <- reverse_app, <- Hs. by rewrite reverse_involutive.
  - by rewrite blank_reverse.
  - rewrite last_reverse. by destruct (trimStart (reverse s)).
Qed.

Lemma trimStart_blank s : blank s = true -> trimStart s = [].
Proof.
  induction s as [|x s IH]; [done|]. simpl. intros [-> ?]%andb_true_iff. auto.
Qed.

Lemma trim_spec s :
  exists sp1 sp2, s = sp1 ++ trim s ++ sp2 /\ blank sp1 = true /\ blank sp2 = true
    /\ (trim s = []
        \/ exists c d, head (trim s) = Some c /\ is_space c = false
                       /\ last (trim s) = Some d /\ is_space d = false).
Proof.
  destruct (trimStart_spec s) as (sp1 & Hs1 & Hsp1 & Hh).
  destruct (trimEnd_spec (trimStart s)) as (sp2 & Hs2 & Hsp2 & Hl).
  exists sp1, sp2. fold (trim s) in Hs2, Hl. split_and!; [|done..|].
  - by rewrite <- Hs2.
  - destruct (trim s) as [|c r] eqn:Ht; [by left|right].
    rewrite Hs2 in Hh. simpl in Hh.
    destruct (last (c :: r)) as [d|] eqn:Hd.
    + by exists c, d.
    + by apply last_None in Hd.
Qed.

Lemma trim_nil_iff s : trim s = [] <-> blank s = true.
Proof.
  split.
  - intros Ht. destruct (trim_spec s) as (sp1 & sp2 & Hs & H1 & H2 & _).
    rewrite Hs, Ht, !blank_app, H1, H2. done.
  - intros Hb. unfold trim. by rewrite trimStart_blank.
Qed.

(** A text between white space is what [trim] leaves of it, when the text
    neither starts nor ends with white space. *)
Lemma trim_core (sp1 sp2 : text) (c d : N) (mid : text) :
  blank sp1 = true -> blank sp2 = true -> is_space c = false -> is_space d = false ->
  trim (sp1 ++ (c :: mid ++ [d]) ++ sp2) = c :: mid ++ [d].
Proof.
  intros H1 H2 Hc Hd.
  assert (Hstart : forall sp rest x, blank sp = true -> is_space x = false ->
            trimStart (sp ++ x :: rest) = x :: rest).
  { intros sp rest x Hsp Hx. induction sp as [|y sp IH]; simpl.
    - by rewrite Hx.
    - simpl in Hsp. apply andb_true_iff in Hsp as [-> Hsp]. by apply IH. }
  unfold trim, trimEnd. cbn [app]. rewrite Hstart by done.
  replace (c :: (mid ++ [d]) ++ sp2) with ((c :: mid) ++ d :: sp2)
    by (by rewrite <- !app_assoc).
  rewrite reverse_app, reverse_cons, <- app_assoc. cbn [app].
  rewrite Hstart by (by rewrite ?blank_reverse).
  change (d :: reverse (c :: mid)) with ([d] ++ reverse (c :: mid)).
  rewrite reverse_app, reverse_involutive. done.
Qed.

(** X18: every statement that [executeSQLFile] passes to the database is
    nonempty, contains no semicolon and neither starts nor ends with white
    space. *)
Theorem statements_trimmed (sqlContent : text) :
  Forall (fun stmt =>
            stmt <> [] /\ (SEMICOLON ∉ stmt)
            /\ exists c d, head stmt = Some c /\ is_space c = false
                           /\ last stmt = Some d /\ is_space d = false)
         (statements_of sqlContent).
Proof.
  apply Forall_forall. intros stmt Hin. unfold statements_of in Hin.
  apply list_elem_of_In, filter_In in Hin as [Hin Hlen].
  apply list_elem_of_In, list_elem_of_fmap in Hin as (seg & -> & Hseg).
  assert (Hne : trim seg <> []).
  { intros Heq. by rewrite Heq in Hlen. }
  destruct (trim_spec seg) as (sp1 & sp2 & Hs & _ & _ & [?|Hends]); [done|].
  split_and!; [done| |done].
  pose proof (split_semicolon_go_free sqlContent [] (not_elem_of_nil _)) as Hfree.
  rewrite Forall_forall in Hfree. specialize (Hfree seg Hseg).
  intros Hx. apply Hfree. rewrite Hs. rewrite !elem_of_app. auto.
Qed.

Lemma statements_nil_iff s :
  statements_of s = [] <-> forallb is_separator s = true.
Proof.
  unfold statements_of, split_semicolon. rewrite filter_nil_iff, Forall_fmap. split.
  - intros H. apply (proj1 (split_semicolon_go_blank s [])).
    eapply Forall_impl; [exact H|]. intros seg Hseg. simpl in Hseg.
    apply trim_nil_iff. by destruct (trim seg).
  - intros H.
    assert (Hb : Forall (fun seg => blank seg = true) (split_semicolon_go [] s)).
    { by apply split_semicolon_go_blank. }
    eapply Forall_impl; [exact Hb|]. intros seg Hseg. simpl.
    apply trim_nil_iff in Hseg. by rewrite Hseg.
Qed.

(** ** The execution loop *)

Section Executed.

Variable db : Type.
Variable execute : db -> text -> db * option string.

Lemma run_batches_all (statements : list text) : forall fuel i st,
  length statements - i <= fuel * Database.batchSize ->
  Database.run_batches execute fuel i statements st
  = foldl (Database.run_statement execute (length statements)) st (drop i statements).
Proof.
  unfold Database.batchSize.
  induction fuel as [|fuel IH]; intros i st Hf.
  - rewrite drop_ge by lia. done.
  - cbn [Database.run_batches]. destruct (Nat.ltb_spec i (length statements)).
    + unfold Database.batchSize. rewrite IH by lia.
      unfold Database.slice. replace (i + 100 - i) with 100 by lia.
      symmetry. rewrite <- (take_drop 100 (drop i statements)) at 1.
      by rewrite foldl_app, drop_drop.
    + by rewrite drop_ge by lia.
Qed.

Lemma line_of_app pre post line : line_of pre line -> line_of (pre ++ post) line.
Proof.
  destruct line as [k n|k msg pv]; simpl.
  - rewrite length_app. lia.
  - intros (Hk & stmt & Hs & Hp). split; [done|]. exists stmt.
    split; [|done]. by apply lookup_app_l_Some.
Qed.

Lemma run_statement_inv total pre st x :
  Database.executed st + Database.failed st = length pre ->
  Forall (line_of pre) (Database.console st) ->
  let st' := Database.run_statement execute total st x in
  Database.executed st' + Database.failed st' = length (pre ++ [x])
  /\ Forall (line_of (pre ++ [x])) (Database.console st').
Proof.
  intros Hn Hc. unfold Database.run_statement.
  assert (Hc' : Forall (line_of (pre ++ [x])) (Database.console st)).
  { eapply Forall_impl; [exact Hc|]. intros line. apply line_of_app. }
  rewrite length_app. cbn [length].
  destruct (execute (Database.connection st) x) as [d [msg|]];
    cbn [Database.executed Database.failed Database.console].
  - split; [lia|]. apply Forall_app. split; [done|]. apply Forall_singleton.
    split; [lia|]. exists x. split; [|done].
    replace (Database.executed st + S (Database.failed st) - 1) with (length pre) by lia.
    by rewrite list_lookup_middle.
  - split; [lia|]. destruct (S (Database.executed st) mod 50 =? 0); [|done].
    apply Forall_app. split; [done|]. apply Forall_singleton. cbn [line_of].
    rewrite length_app. cbn [length]. lia.
Qed.

Lemma run_statements_inv total post : forall pre st,
  Database.executed st + Database.failed st = length pre ->
  Forall (line_of pre) (Database.console st) ->
  let st' := foldl (Database.run_statement execute total) st post in
  Database.executed st' + Database.failed st' = length (pre ++ post)
  /\ Forall (line_of (pre ++ post)) (Database.console st').
Proof.
  induction post as [|x post IH]; intros pre st Hn Hc.
  - simpl. by rewrite app_nil_r.
  - destruct (run_statement_inv total pre st x Hn Hc) as [Hn' Hc'].
    cbn [foldl]. rewrite (cons_middle x pre post), app_assoc. by apply IH.
Qed.

(** X19: [executeSQLFile] passes every statement of the file to the
    database exactly once and in the order of the file, whether statements
    fail or not: cutting the list into batches of 100 changes nothing, the
    two counters of the report add up to the number of statements, and the
    report says [success: true] whatever the number of errors. *)
Theorem executeSQLFile_counts (fs : files) (filePath : string) (connection : db)
    (sqlContent : text) :
  executeSQLFile_read fs filePath = inr sqlContent ->
  let statements := statements_of sqlContent in
  let st := foldl (Database.run_statement execute (length statements))
                  (Database.Loop 0 0 connection []) statements in
  Database.executeSQLFile execute fs filePath (inr connection)
  = inr (Database.Report true (Database.executed st) (Database.failed st)
           (length statements), st)
  /\ Database.executed st + Database.failed st = length statements.
Proof.
  intros Hr statements st. unfold Database.executeSQLFile. rewrite Hr.
  fold statements. rewrite run_batches_all by (unfold Database.batchSize; lia).
  rewrite drop_0. fold st. split; [done|].
  by destruct (run_statements_inv (length statements) statements []
                 (Database.Loop 0 0 connection []) eq_refl (Forall_nil_2 _)).
Qed.

(** X20: the number printed with a failed statement is the position of that
    statement in the file, counted from 1, and the preview printed with it
    is the preview of that statement; the count of a progress line never
    exceeds the number of statements. *)
Theorem error_lines_number_statements (total : nat) (statements : list text)
    (connection : db) :
  Forall (line_of statements)
    (Database.console
       (foldl (Database.run_statement execute total)
              (Database.Loop 0 0 connection []) statements)).
Proof.
  by destruct (run_statements_inv total statements []
                 (Database.Loop 0 0 connection []) eq_refl (Forall_nil_2 _)).
Qed.

(** X21: the list of statements is empty exactly when the file consists of
    white space and semicolons only.  Such a file with a semicolon in it
    passes the test for an empty file: [executeSQLFile] connects, executes
    nothing and reports success with all counts zero. *)
Theorem separators_only_file (fs : files) (filePath : string) (connection : db)
    (sqlContent : text) :
  (statements_of sqlContent = [] <-> forallb is_separator sqlContent = true)
  /\ (readFileSync fs filePath = inr sqlContent ->
      forallb is_separator sqlContent = true -> SEMICOLON ∈ sqlContent ->
      Database.executeSQLFile execute fs filePath (inr connection)
      = inr (Database.Report true 0 0 0, Database.Loop 0 0 connection [])).
Proof.
  split; [apply statements_nil_iff|].
  intros Hr Hsep Hsemi. unfold Database.executeSQLFile, executeSQLFile_read.
  rewrite Hr. assert (Hf : is_Some (fs !! filePath)).
  { unfold readFileSync in Hr. by destruct (fs !! filePath). }
  destruct Hf as [f ->].
  assert (Hb : blank sqlContent = false).
  { apply not_true_is_false. intros Hb. unfold blank in Hb. rewrite forallb_forall in Hb.
    apply list_elem_of_In, Hb in Hsemi. done. }
  rewrite Hb. by rewrite (proj2 (statements_nil_iff sqlContent) Hsep).
Qed.

End Executed.

(** [executeSQLFile_counts] with a database that records what it executes
    and refuses the second statement. *)
Lemma executeSQLFile_counts_witness :
  let execute := fun (d : list text) (s : text) =>
    (d ++ [s], if bool_decide (s = u "DROP x") then Some "refused" else None) in
  let content := u "SELECT 1; DROP x;; SELECT [a;b] " in
  let fs : files := {[ "q.sql" := File 33 (Content content) None ]} in
  let statements := statements_of content in
  let st := foldl (Database.run_statement execute (length statements))
                  (Database.Loop 0 0 [] []) statements in
  executeSQLFile_read fs "q.sql" = inr content
  /\ statements = [u "SELECT 1"; u "DROP x"; u "SELECT [a"; u "b]"]
  /\ Database.executeSQLFile execute fs "q.sql" (inr [])
     = inr (Database.Report true (Database.executed st) (Database.failed st)
              (length statements), st)
  /\ Database.executed st + Database.failed st = length statements.
Proof.
  intros execute content fs statements st.
  split; [vm_compute; reflexivity|]. split; [vm_compute; reflexivity|].
  apply (executeSQLFile_counts (list text) execute fs "q.sql" [] content).
  vm_compute. reflexivity.
Defined.

(** ** A converted file as input of [executeSQLFile] *)

Lemma blank_without_semicolon s : blank s = true -> SEMICOLON ∉ s.
Proof.
  intros Hb Hs. unfold blank in Hb. rewrite forallb_forall in Hb.
  by apply list_elem_of_In, Hb in Hs.
Qed.

(** X22: a converted file is never empty for [executeSQLFile], since it
    starts with the header; the converted form of an empty or blank source
    is cut into exactly one statement, which consists of the three comment
    lines of the header. *)
Theorem converted_file_statements (ts : text) (s : text) :
  blank (convertToMySQL ts s) = false
  /\ (SEMICOLON ∉ ts -> blank s = true ->
      statements_of (convertToMySQL ts s)
      = [marker_line ++ NL :: generated_prefix ++ ts ++ NL :: caution_line]).
Proof.
  split; [done|]. intros Hts Hs.
  unfold statements_of, split_semicolon.
  rewrite split_semicolon_go_single.
  - cbn [app fmap list_fmap].
    set (mid := u "- Converted from SQL Server to MySQL" ++ NL :: generated_prefix ++ ts
                ++ NL :: u "-- Use with caution and verify before executin").
    assert (Hc : convertToMySQL ts s = [] ++ (45%N :: mid ++ [103%N]) ++ ([NL; NL] ++ s)).
    { unfold convertToMySQL, header, mid. rewrite transform_blank by done.
      change marker_line with (45%N :: u "- Converted from SQL Server to MySQL").
      change caution_line with (u "-- Use with caution and verify before executin" ++ [103%N]).
      repeat first [rewrite <- app_assoc | progress cbn [app]]. done. }
    assert (Hm : marker_line ++ NL :: generated_prefix ++ ts ++ NL :: caution_line
                 = 45%N :: mid ++ [103%N]).
    { unfold mid.
      change marker_line with (45%N :: u "- Converted from SQL Server to MySQL").
      change caution_line with (u "-- Use with caution and verify before executin" ++ [103%N]).
      repeat first [rewrite <- app_assoc | progress cbn [app]]. done. }
    rewrite Hc, trim_core, Hm; [done|done| |done|done].
    rewrite blank_app. by rewrite Hs.
  - unfold convertToMySQL, header. rewrite transform_blank by done.
    pose proof (blank_without_semicolon s Hs).
    assert (SEMICOLON ∉ marker_line) by by_compute.
    assert (SEMICOLON ∉ generated_prefix) by by_compute.
    assert (SEMICOLON ∉ caution_line) by by_compute.
    assert (SEMICOLON ∉ [NL; NL]) by by_compute.
    assert (SEMICOLON ∉ [NL]) by by_compute.
    repeat (apply not_elem_of_app; split); done.
Qed.

(** ** Units the conversion cannot add *)

(** X23: a unit that occurs in no replacement text (the replacement texts
    are made of the letters of [NOW], [UTC_TIMESTAMP], [UUID], [LENGTH],
    [IFNULL] and [LIMIT], the underscore, the parentheses and the space)
    occurs in the converted text at most as often as in the input: the
    conversion adds no bracket, no quote, no digit, no line break. *)
Theorem units_never_added (c : N) (s : text) :
  c ∉ template_units -> count_unit c (transform s) <= count_unit c s.
Proof. apply transform_count_le. Qed.

(** [units_never_added] for the closing bracket. *)
Lemma units_never_added_witness :
  let s := u "SELECT TOP 3 [a] FROM [dbo].[T] WHERE [b]]] = GETDATE()" in
  template_units = u "NOW()UTC_TIMESTAMP()UUID()LENGTH(IFNULL(LIMIT "
  /\ (93%N ∉ template_units)
  /\ count_unit 93 s = 6 /\ count_unit 93 (transform s) = 2
  /\ count_unit 93 (transform s) <= count_unit 93 s.
Proof.
  intros s. split; [vm_compute; reflexivity|]. split; [by_compute|].
  split; [vm_compute; reflexivity|]. split; [vm_compute; reflexivity|].
  apply (units_never_added 93 s). by_compute.
Defined.

(** ** Lines read against lines counted *)

Lemma drop_empty_last_length (ls : list text) :
  length (drop_empty_last ls)
  = length ls - (match last ls with Some [] => 1 | _ => 0 end).
Proof.
  induction ls as [|l ls IH]; [done|].
  destruct ls as [|l' ls].
  - by destruct l.
  - rewrite drop_empty_last_cons by done. rewrite last_cons_nonempty by done.
    cbn [length] in *. rewrite IH.
    destruct (last (l' :: ls)) as [[|]|]; lia.
Qed.

(** X24: for a text without carriage returns the number of lines a
    streaming run counts is the number of lines the statistics count
    ([split('\n')]), less one when the text is empty or ends with a line
    feed: the line reader does not deliver the empty piece after the last
    line feed. *)
Theorem streamed_line_count (ts : text) (inputFile outputFile : string) (s : text) :
  CR ∉ s ->
  lineCount (run_events inputFile outputFile (events_of s) (stream_start ts))
  = originalLines (getConversionStats s (convertToMySQL ts s))
    - (if open_ended s then 0 else 1).
Proof.
  intros Hcr. destruct (run_to_end ts inputFile outputFile s) as (-> & _).
  rewrite readline_split by done. rewrite drop_empty_last_length.
  cbn [getConversionStats originalLines]. rewrite split_nl_open.
  by destruct (last (split_nl s)) as [[|]|].
Qed.

(** [streamed_line_count] for a text that ends with a line feed. *)
Lemma streamed_line_count_witness :
  let s := u "SELECT 1;" ++ NL :: u "SELECT 2;" ++ [NL] in
  (CR ∉ s)
  /\ originalLines (getConversionStats s (convertToMySQL (u "t") s)) = 3
  /\ lineCount (run_events "in.sql" "out.sql" (events_of s) (stream_start (u "t")))
     = originalLines (getConversionStats s (convertToMySQL (u "t") s))
       - (if open_ended s then 0 else 1).
Proof.
  intros s. split; [by_compute|]. split; [vm_compute; reflexivity|].
  apply (streamed_line_count (u "t") "in.sql" "out.sql" s). by_compute.
Defined.
